(** * Vortex scope: capture control and VCD dump (runtime/common/scope.cpp)

    A shallow embedding of the trace-capture runtime: the register command
    words, the clock writer, the per-tap bit decoder, the earliest-first
    merge of taps, the module hierarchy of the header, and the two entry
    points [vx_scope_start] and [vx_scope_stop].

    Machine integers are [Z] with the wrap-around of their C++ type written
    out ([u32], [u64]).  The device behind the injected callback pair is an
    arbitrary state machine; every register access is recorded in a trace. *)

From Stdlib Require Import ZArith List String Ascii Lia Sorted.
From stdpp Require Import base option list gmap strings pretty.
Import ListNotations.

Local Open Scope Z_scope.

(** ** Machine words *)

Definition u32 (z : Z) : Z := z mod 2 ^ 32.
Definition u64 (z : Z) : Z := z mod 2 ^ 64.

(** ** Register commands (lines 40-46 and the command words built in
    [vx_scope_start], [vx_scope_stop] and [dump_tap]) *)

Definition CMD_GET_WIDTH : Z := 0.
Definition CMD_GET_COUNT : Z := 1.
Definition CMD_GET_START : Z := 2.
Definition CMD_GET_DATA  : Z := 3.
Definition CMD_SET_START : Z := 4.
Definition CMD_SET_STOP  : Z := 5.
Definition CMD_SET_DEPTH : Z := 6.

Definition MAX_DELAY_CYCLES : Z := 10000.
Definition SAMPLE_FLUSH_SIZE : Z := 100.
Definition TIMEOUT_TIME : Z := 60 * 60.

(** [(id << 3) | CMD]: [id] is a [uint32_t], so the shift wraps at 32 bits
    before the word is widened to the 64-bit register value. *)
Definition cmd_get (id op : Z) : Z := Z.lor (u32 (Z.shiftl id 3)) op.

Definition cmd_width (id : Z) : Z := cmd_get id CMD_GET_WIDTH.
Definition cmd_count (id : Z) : Z := cmd_get id CMD_GET_COUNT.
Definition cmd_get_start (id : Z) : Z := cmd_get id CMD_GET_START.
Definition cmd_data (id : Z) : Z := cmd_get id CMD_GET_DATA.

(** [(capture_size << 11) | (id << 3) | CMD_SET_DEPTH], all in [uint32_t]. *)
Definition cmd_depth (capture_size id : Z) : Z :=
  Z.lor (Z.lor (u32 (Z.shiftl capture_size 11)) (u32 (Z.shiftl id 3))) CMD_SET_DEPTH.

(** [(stop_time << 11) | (id << 3) | CMD_SET_STOP], the time is [uint64_t]. *)
Definition cmd_stop (stop_time id : Z) : Z :=
  Z.lor (Z.lor (u64 (Z.shiftl stop_time 11)) (u32 (Z.shiftl id 3))) CMD_SET_STOP.

(** [(start_time << 11) | (id << 3) | CMD_SET_START]. *)
Definition cmd_set_start (start_time id : Z) : Z :=
  Z.lor (Z.lor (u64 (Z.shiftl start_time 11)) (u32 (Z.shiftl id 3))) CMD_SET_START.

(** [(0 << 11) | (tap.id << 3) | CMD_SET_STOP], the hard stop of
    [vx_scope_stop]. *)
Definition cmd_stop_now (id : Z) : Z :=
  Z.lor (Z.lor (Z.shiftl 0 11) (u32 (Z.shiftl id 3))) CMD_SET_STOP.

(** The three fields of a command word. *)
Definition opcode_field (w : Z) : Z := Z.land w 7.
Definition tap_field (w : Z) : Z := Z.land (Z.shiftr w 3) 255.
Definition payload_field (w : Z) : Z := Z.shiftr w 11.

(** The formula as the specification words it: the payload shifted by three
    bits only. *)
Definition spec_cmd_word (payload opcode tap_id : Z) : Z :=
  Z.lor (Z.lor (Z.shiftl payload 3) opcode) (Z.shiftl tap_id 3).

(** The same with the payload above bit 10, as the code shifts it. *)
Definition cmd_word (payload opcode tap_id : Z) : Z :=
  Z.lor (Z.lor (Z.shiftl payload 11) (Z.shiftl tap_id 3)) opcode.

Definition cmd_fields (w : Z) : Z * Z * Z :=
  (opcode_field w, tap_field w, payload_field w).

(** ** Data model (lines 57-71) *)

Record tap_signal_t := {
  sig_id : Z;          (* uint32_t id *)
  sig_name : string;
  sig_width : Z        (* uint32_t width *)
}.

Record tap_t := {
  tap_id : Z;          (* uint32_t id *)
  tap_width : Z;       (* uint32_t width *)
  samples : Z;         (* uint32_t *)
  cur_sample : Z;      (* uint32_t *)
  cycle_time : Z;      (* uint64_t *)
  path : string;
  signals : list tap_signal_t
}.

Definition set_progress (tap : tap_t) (cur : Z) (time : Z) : tap_t :=
  {| tap_id := tap_id tap; tap_width := tap_width tap; samples := samples tap;
     cur_sample := cur; cycle_time := time; path := path tap;
     signals := signals tap |}.

Definition set_trace_info (tap : tap_t) (count : Z) (time : Z) : tap_t :=
  {| tap_id := tap_id tap; tap_width := tap_width tap; samples := count;
     cur_sample := cur_sample tap; cycle_time := time; path := path tap;
     signals := signals tap |}.

(** ** The waveform file, line by line

    Every [ofs << ... << std::endl] statement of the source is one
    constructor; [render] gives its text. *)

Inductive clock_value := ClkX | Clk0 | Clk1.

Inductive vcd_line :=
| LText (s : string)
| LScope (indentation : nat) (name : string)
| LVar (indentation : nat) (width id : Z) (name : string)
| LUpscope (indentation : nat)
| LTime (t : Z)
| LClock (v : clock_value)
| LValue (bits : string) (id : Z).

Fixpoint spaces (n : nat) : string :=
  match n with
  | O => EmptyString
  | S n' => String " " (spaces n')
  end.

Definition render (l : vcd_line) : string :=
  match l with
  | LText s => s
  | LScope n name => spaces n +:+ "$scope module " +:+ name +:+ " $end"
  | LVar n w i name =>
      spaces n +:+ " $var wire " +:+ pretty w +:+ " " +:+ pretty i +:+ " "
        +:+ name +:+ " $end"
  | LUpscope n => spaces n +:+ "$upscope $end"
  | LTime t => "#" +:+ pretty t
  | LClock ClkX => "bx 0"
  | LClock Clk0 => "b0 0"
  | LClock Clk1 => "b1 0"
  | LValue bits i => "b" +:+ bits +:+ " " +:+ pretty i
  end%string.

(** ** [advance_clock] (lines 165-182)

    The function only writes to the stream: it is a pure function to the
    lines written and the returned time. *)

Definition half_periods (v0 v1 : clock_value) (cur_time : Z) : list vcd_line :=
  [LTime (u64 (cur_time * 2 + 0)); LClock v0;
   LTime (u64 (cur_time * 2 + 1)); LClock v1].

(** The [if (delta > MAX_DELAY_CYCLES)] block: lines written and the cursor
    after it. *)
Definition skip_gap (cur_time next_time : Z) : list vcd_line * Z :=
  let delta := u64 (next_time - cur_time) in
  if MAX_DELAY_CYCLES <? delta
  then (half_periods ClkX ClkX cur_time, u64 (next_time - MAX_DELAY_CYCLES))
  else ([], cur_time).

(** The [while (cur_time < next_time)] loop, at most [n] rounds. *)
Fixpoint clock_loop (n : nat) (cur_time next_time : Z) : list vcd_line * Z :=
  match n with
  | O => ([], cur_time)
  | S n' =>
      if cur_time <? next_time then
        let '(out, t) := clock_loop n' (u64 (cur_time + 1)) next_time in
        (half_periods Clk0 Clk1 cur_time ++ out, t)
      else ([], cur_time)
  end.

(** The loop leaves when [cur_time] has reached [next_time]:
    [next_time - cur_time] rounds are all it can make. *)
Definition advance_clock (cur_time next_time : Z) : list vcd_line * Z :=
  let '(out1, t1) := skip_gap cur_time next_time in
  let '(out2, t2) := clock_loop (Z.to_nat (next_time - t1)) t1 next_time in
  (out1 ++ out2, t2).

(** ** [split] (lines 81-89): [std::getline] up to the delimiter; a read at
    the end of the stream fails, so a trailing delimiter adds no token. *)
Fixpoint split_from (token : string) (fresh : bool) (s : string) (delimiter : ascii)
  : list string :=
  match s with
  | EmptyString => if fresh then [] else [token]
  | String c rest =>
      if Ascii.eqb c delimiter
      then token :: split_from EmptyString true rest delimiter
      else split_from (token +:+ String c EmptyString) false rest delimiter
  end.

Definition split (s : string) (delimiter : ascii) : list string :=
  split_from EmptyString true s delimiter.

(** ** The header: [dump_module] (lines 91-114) and [dump_header]
    (lines 116-145)

    [std::unordered_set] and [std::unordered_map] iterate in an order the
    language leaves open: [iteration_order] is that order, any enumeration
    of the set.  The recursion of [dump_module] follows the hierarchy, which
    a path such as [a.a] makes cyclic: [fuel] bounds its depth. *)

Inductive halt :=
| Status (err : Z)   (* the function returned this status *)
| Uncaught           (* an exception left the function *)
| Undefined          (* undefined behaviour: an access out of bounds *)
| OutOfFuel.         (* the model's loop budget ran out *)

(** The [$var] lines of a tap (lines 101-103). *)
Definition var_lines (indentation : nat) (tap : tap_t) : list vcd_line :=
  map (fun signal => LVar indentation (sig_width signal)
                       (sig_id signal) (sig_name signal))
      (signals tap).

Section Header.
Context (iteration_order : gset string → list string).

Fixpoint dump_module (fuel : nat) (name : string)
    (hierarchy : gmap string (gset string)) (tails : gmap string tap_t)
    (indentation : nat) : option (list vcd_line) :=
  match fuel with
  | O => None
  | S fuel' =>
      let vars :=
        match tails !! name with
        | Some tap => var_lines indentation tap
        | None => []
        end in
      children ←
        match hierarchy !! name with
        | Some set =>
            mapM (fun child =>
                    dump_module fuel' child hierarchy tails (S indentation))
                 (iteration_order set)
        | None => Some []
        end;
      Some ([LScope indentation name] ++ vars ++ concat children
              ++ [LUpscope indentation])
  end.

(** [hierarchy[tokens[i-1]].insert(tokens[i])] for [i = 1 .. size-1]. *)
Fixpoint add_edges (tokens : list string)
    (hierarchy : gmap string (gset string)) : gmap string (gset string) :=
  match tokens with
  | parent :: ((child :: _) as rest) =>
      add_edges rest
        (<[parent := {[child]} ∪ default ∅ (hierarchy !! parent)]> hierarchy)
  | _ => hierarchy
  end.

(** The three containers built by the first loop of [dump_header];
    [tokens[0]] of an empty path is an access out of bounds. *)
Fixpoint build_hierarchy (taps : list tap_t)
    (acc : gmap string (gset string) * gset string * gmap string tap_t)
  : option (gmap string (gset string) * gset string * gmap string tap_t) :=
  match taps with
  | [] => Some acc
  | tap :: rest =>
      let '(hierarchy, heads, tails) := acc in
      let tokens := split (path tap) "." in
      h ← head tokens;
      t ← last tokens;
      build_hierarchy rest
        (add_edges tokens hierarchy, {[h]} ∪ heads, <[t := tap]> tails)
  end.

Definition header_preamble : list vcd_line :=
  [LText "$version Generated by Vortex Scope Analyzer $end";
   LText "$timescale 1 ns $end";
   LText "$scope module TOP $end";
   LText " $var wire 1 0 clk $end"].

Definition header_end : list vcd_line :=
  [LText "$upscope $end"; LText "enddefinitions $end"].

Definition dump_header (fuel : nat) (taps : list tap_t)
  : list vcd_line + halt :=
  match build_hierarchy taps (∅, ∅, ∅) with
  | None => inr Undefined
  | Some (hierarchy, heads, tails) =>
      match mapM (fun head => dump_module fuel head hierarchy tails 1%nat)
                 (iteration_order heads) with
      | None => inr OutOfFuel
      | Some modules => inl (header_preamble ++ concat modules ++ header_end)
      end
  end.
End Header.

(** ** The device, the session and the files

    [vx_device_h] is an opaque pointer; [None] is [nullptr].  The callback
    pair acts on the state [D] of the device and returns a status with it. *)

Definition vx_device_h := option N.

Record scope_callback_t (D : Type) := {
  registerWrite : vx_device_h → Z → D → Z * D;
  registerRead : vx_device_h → D → Z * Z * D
}.
Arguments registerWrite {D}.
Arguments registerRead {D}.

(** One entry per call of a callback, in program order. *)
Inductive io_event :=
| IoWrite (value : Z) (status : Z)
| IoRead (value : Z) (status : Z).

Record world (D : Type) := {
  dev : D;                                   (* the device *)
  io : list io_event;                        (* register accesses so far *)
  scope_vcd : list vcd_line;                 (* the file scope.vcd *)
  g_running : bool;
  g_callback : option (scope_callback_t D);  (* [None]: never assigned *)
  auto_stop : list Z;                        (* timeouts of the watcher threads *)
  dispatched : list (nat * Z)                (* history: tap index and
                                                cycle_time of every dispatch *)
}.
Arguments dev {D}.
Arguments io {D}.
Arguments scope_vcd {D}.
Arguments g_running {D}.
Arguments g_callback {D}.
Arguments auto_stop {D}.
Arguments dispatched {D}.

(** The manifest as the program sees it: whether the stream opened, and what
    [json::parse] makes of it. *)
Record json_tap := {
  json_id : Z;
  json_width : Z;
  json_path : string;
  json_signals : list (string * Z)
}.

Inductive parse_result :=
| ParseThrows                       (* [json::parse] raises *)
| ParseNull                         (* [json_obj.is_null()] *)
| ParseTaps (taps : list json_tap). (* an object with a [taps] array *)

Record environment := {
  manifest_opens : bool;          (* [ifs] is good *)
  manifest_json : parse_result;
  SCOPE_DEPTH : option Z;         (* set, and read by [ss >> capture_size] *)
  SCOPE_TIMEOUT : option Z        (* set, and read by [ss >> env_value] *)
}.

(** ** Statements: state, early return, faults *)

Definition M (D A : Type) : Type := world D → (A + halt) * world D.

Section Runtime.
Context {D : Type}.
Context (iteration_order : gset string → list string).

Definition ret {A} (a : A) : M D A := fun w => (inl a, w).

Definition bind {A B} (m : M D A) (k : A → M D B) : M D B :=
  fun w =>
    match m w with
    | (inl a, w') => k a w'
    | (inr h, w') => (inr h, w')
    end.

Definition stop_with {A} (h : halt) : M D A := fun w => (inr h, w).

(** [return status;] *)
Definition return_ {A} (status : Z) : M D A := stop_with (Status status).

Definition upd_dev (d : D) (e : io_event) (w : world D) : world D :=
  {| dev := d; io := io w ++ [e]; scope_vcd := scope_vcd w;
     g_running := g_running w; g_callback := g_callback w;
     auto_stop := auto_stop w; dispatched := dispatched w |}.

Definition upd_vcd (f : list vcd_line) (w : world D) : world D :=
  {| dev := dev w; io := io w; scope_vcd := f;
     g_running := g_running w; g_callback := g_callback w;
     auto_stop := auto_stop w; dispatched := dispatched w |}.

Definition upd_running (b : bool) (w : world D) : world D :=
  {| dev := dev w; io := io w; scope_vcd := scope_vcd w;
     g_running := b; g_callback := g_callback w;
     auto_stop := auto_stop w; dispatched := dispatched w |}.

Definition upd_callback (c : scope_callback_t D) (w : world D) : world D :=
  {| dev := dev w; io := io w; scope_vcd := scope_vcd w;
     g_running := g_running w; g_callback := Some c;
     auto_stop := auto_stop w; dispatched := dispatched w |}.

Definition upd_auto_stop (t : Z) (w : world D) : world D :=
  {| dev := dev w; io := io w; scope_vcd := scope_vcd w;
     g_running := g_running w; g_callback := g_callback w;
     auto_stop := auto_stop w ++ [t]; dispatched := dispatched w |}.

Definition upd_dispatched (i : nat) (t : Z) (w : world D) : world D :=
  {| dev := dev w; io := io w; scope_vcd := scope_vcd w;
     g_running := g_running w; g_callback := g_callback w;
     auto_stop := auto_stop w; dispatched := dispatched w ++ [(i, t)] |}.

(** [CHECK_ERR(g_callback.registerWrite(hdevice, value))] *)
Definition reg_write (hdevice : vx_device_h) (value : Z) : M D unit :=
  fun w =>
    match g_callback w with
    | None => (inr Undefined, w)
    | Some cb =>
        let '(err, d) := registerWrite cb hdevice value (dev w) in
        let w' := upd_dev d (IoWrite value err) w in
        if err =? 0 then (inl tt, w') else (inr (Status err), w')
    end.

(** [CHECK_ERR(g_callback.registerRead(hdevice, &word))]; the register is
    64 bits wide. *)
Definition reg_read (hdevice : vx_device_h) : M D Z :=
  fun w =>
    match g_callback w with
    | None => (inr Undefined, w)
    | Some cb =>
        let '(err, value, d) := registerRead cb hdevice (dev w) in
        let w' := upd_dev d (IoRead (u64 value) err) w in
        if err =? 0 then (inl (u64 value), w') else (inr (Status err), w')
    end.

(** [ofs << ... << std::endl] *)
Definition emit (lines : list vcd_line) : M D unit :=
  fun w => (inl tt, upd_vcd (scope_vcd w ++ lines) w).

(** A range-based [for] whose body is a statement. *)
Fixpoint for_each {A} (body : A → M D unit) (l : list A) : M D unit :=
  match l with
  | [] => ret tt
  | a :: rest => bind (body a) (fun _ => for_each body rest)
  end.

(** A range-based [for] over [auto& tap : taps] whose body updates the
    element. *)
Fixpoint for_each_tap (body : tap_t → M D tap_t) (taps : list tap_t)
  : M D (list tap_t) :=
  match taps with
  | [] => ret []
  | tap :: rest =>
      bind (body tap) (fun tap' =>
      bind (for_each_tap body rest) (fun rest' => ret (tap' :: rest')))
  end.
End Runtime.

Notation "'let*' x ':=' m 'in' k" := (bind m (fun x => k))
  (at level 10, x pattern, m at level 99, k at level 200, only parsing).
Notation "m ';;' k" := (bind m (fun _ => k))
  (at level 100, k at level 200, only parsing).

(** ** [dump_tap] (lines 184-229) *)

(** [std::vector<char> signal_data(n)]: [n] zero characters. *)
Definition new_buffer (n : Z) : list ascii := replicate (Z.to_nat n) Ascii.zero.

(** [signal_data[i] = c]; the index must be inside the vector. *)
Definition store (buf : list ascii) (i : Z) (c : ascii) : option (list ascii) :=
  if (0 <=? i) && (i <? Z.of_nat (length buf))
  then Some (<[Z.to_nat i := c]> buf)
  else None.

(** [signal_data.data()] read as a C string: the characters before the first
    zero, which must be inside the vector. *)
Fixpoint c_str (buf : list ascii) : option string :=
  match buf with
  | [] => None
  | c :: rest =>
      if Ascii.eqb c Ascii.zero then Some EmptyString
      else s ← c_str rest; Some (String c s)
  end.

(** The local variables of [dump_tap]; [signal_it] counts the steps of the
    reverse iterator from [rbegin()]. *)
Record decoder := {
  signal_offset : Z;
  sample_offset : Z;
  word : Z;
  signal_data : list ascii;
  signal_it : nat;
  signal_width : Z
}.

Definition bit_char (word word_offset : Z) : ascii :=
  if Z.land (Z.shiftr word word_offset) 1 =? 0 then "0"%char else "1"%char.

Section Decoder.
Context {D : Type}.

Definition lift_ub {A} (o : option A) : M D A :=
  match o with
  | Some a => ret a
  | None => stop_with Undefined
  end.

(** [*signal_it], a step from [rbegin()]. *)
Definition deref (tap : tap_t) (it : nat) : M D tap_signal_t :=
  lift_ub (rev (signals tap) !! it).

(** The end-of-sample block (lines 207-219). *)
Definition end_of_sample (hdevice : vx_device_h) (tap : tap_t) (st : decoder)
  : M D (tap_t * decoder) :=
  let cur := u32 (cur_sample tap + 1) in
  if cur =? samples tap then ret (set_progress tap cur (cycle_time tap), st)
  else
    reg_write hdevice (cmd_data (tap_id tap));;
    let* w := reg_read hdevice in
    ret (set_progress tap cur (u64 (cycle_time tap + (1 + w))),
         {| signal_offset := signal_offset st; sample_offset := sample_offset st;
            word := w; signal_data := signal_data st;
            signal_it := signal_it st; signal_width := signal_width st |}).

(** One round of the inner [do] (lines 199-224); the flag is [true] when
    the round leaves by [break]. *)
Definition decode_bit (hdevice : vx_device_h) (tap : tap_t) (st : decoder)
  : M D (tap_t * decoder * bool) :=
  let word_offset := sample_offset st mod 64 in
  let* buf := lift_ub (store (signal_data st)
                         (u32 (signal_width st - signal_offset st - 1))
                         (bit_char (word st) word_offset)) in
  let signal_offset' := u32 (signal_offset st + 1) in
  let sample_offset' := u32 (sample_offset st + 1) in
  if signal_offset' =? signal_width st then
    let* buf := lift_ub (store buf (signal_width st) Ascii.zero) in
    let* text := lift_ub (c_str buf) in
    let* signal := deref tap (signal_it st) in
    emit [LValue text (sig_id signal)];;
    let st' := {| signal_offset := signal_offset'; sample_offset := sample_offset';
                  word := word st; signal_data := buf;
                  signal_it := signal_it st; signal_width := signal_width st |} in
    if sample_offset' =? tap_width tap then
      let* (tap', st'') := end_of_sample hdevice tap st' in
      ret (tap', st'', true)
    else
      let* next := deref tap (S (signal_it st)) in
      ret (tap,
           {| signal_offset := 0; sample_offset := sample_offset';
              word := word st; signal_data := buf;
              signal_it := S (signal_it st); signal_width := sig_width next |},
           false)
  else
    ret (tap,
         {| signal_offset := signal_offset'; sample_offset := sample_offset';
            word := word st; signal_data := buf;
            signal_it := signal_it st; signal_width := signal_width st |},
         false).

(** The inner [do ... while ((sample_offset % 64) != 0)]. *)
Fixpoint decode_word (fuel : nat) (hdevice : vx_device_h) (tap : tap_t)
    (st : decoder) : M D (tap_t * decoder) :=
  match fuel with
  | O => stop_with OutOfFuel
  | S fuel' =>
      let* (tap', st', break) := decode_bit hdevice tap st in
      if break then ret (tap', st')
      else if sample_offset st' mod 64 =? 0 then ret (tap', st')
      else decode_word fuel' hdevice tap' st'
  end.

(** The outer [do ... while (sample_offset != tap->width)].  A word holds
    64 bits, so the inner loop makes at most 64 rounds. *)
Fixpoint decode_sample (fuel : nat) (hdevice : vx_device_h) (tap : tap_t)
    (st : decoder) : M D tap_t :=
  match fuel with
  | O => stop_with OutOfFuel
  | S fuel' =>
      reg_write hdevice (cmd_data (tap_id tap));;
      let* w := reg_read hdevice in
      let* (tap', st') :=
        decode_word 64 hdevice tap
          {| signal_offset := signal_offset st; sample_offset := sample_offset st;
             word := w; signal_data := signal_data st;
             signal_it := signal_it st; signal_width := signal_width st |} in
      if sample_offset st' =? tap_width tap' then ret tap'
      else decode_sample fuel' hdevice tap' st'
  end.

Definition dump_tap (fuel : nat) (hdevice : vx_device_h) (tap : tap_t)
  : M D tap_t :=
  let* first := deref tap 0 in
  decode_sample fuel hdevice tap
    {| signal_offset := 0; sample_offset := 0; word := 0;
       signal_data := new_buffer (tap_width tap);
       signal_it := 0; signal_width := sig_width first |}.
End Decoder.

(** ** [find_earliest_tap] (lines 148-163)

    The pointer [earliest] is the index of the tap in the vector, kept with
    the element it points to (the scan does not change the vector). *)

Definition has_data (tap : tap_t) : bool :=
  negb (samples tap =? 0) && negb (cur_sample tap =? samples tap).

Fixpoint find_earliest_from (i : nat) (taps : list tap_t)
    (earliest : option (nat * tap_t)) : option (nat * tap_t) :=
  match taps with
  | [] => earliest
  | tap :: rest =>
      find_earliest_from (S i) rest
        (if samples tap =? 0 then earliest
         else if cur_sample tap =? samples tap then earliest
         else match earliest with
              | Some (_, e) =>
                  if cycle_time tap <? cycle_time e then Some (i, tap)
                  else earliest
              | None => Some (i, tap)
              end)
  end.

Definition find_earliest_tap (taps : list tap_t) : option nat :=
  fst <$> find_earliest_from 0 taps None.

(** ** The manifest read by [vx_scope_stop] (lines 340-359) *)

Fixpoint read_signals (signal_id : Z) (l : list (string * Z))
  : list tap_signal_t * Z :=
  match l with
  | [] => ([], signal_id)
  | (name, width) :: rest =>
      let '(sigs, next) := read_signals (u32 (signal_id + 1)) rest in
      ({| sig_id := signal_id; sig_name := name; sig_width := u32 width |} :: sigs,
       next)
  end.

Fixpoint read_taps (signal_id : Z) (l : list json_tap) : list tap_t :=
  match l with
  | [] => []
  | tap :: rest =>
      let '(sigs, next) := read_signals signal_id (json_signals tap) in
      {| tap_id := u32 (json_id tap); tap_width := u32 (json_width tap);
         samples := 0; cur_sample := 0; cycle_time := 0;
         path := json_path tap; signals := sigs |} :: read_taps next rest
  end.

Section Session.
Context {D : Type}.
Context (iteration_order : gset string → list string).

(** The body of the loop of lines 371-399. *)
Definition load_trace_info (hdevice : vx_device_h) (tap : tap_t) : M D tap_t :=
  reg_write hdevice (cmd_count (tap_id tap));;
  let* count := reg_read hdevice in
  if count =? 0 then ret tap
  else
    reg_write hdevice (cmd_get_start (tap_id tap));;
    let* start := reg_read hdevice in
    reg_write hdevice (cmd_data (tap_id tap));;
    let* delta := reg_read hdevice in
    ret (set_trace_info tap (u32 count) (u64 (1 + start + delta))).

(** The [do ... while (tap != nullptr)] of lines 412-419; [i] is the tap
    [find_earliest_tap] returned, [words] the budget of each [dump_tap],
    [fuel] the number of rounds. *)
Fixpoint dump_taps (words fuel : nat) (hdevice : vx_device_h) (i : nat)
    (taps : list tap_t) (cur_time : Z) : M D (list tap_t * Z) :=
  match fuel with
  | O => stop_with OutOfFuel
  | S fuel' =>
      let* tap := lift_ub (taps !! i) in
      (fun w => (inl tt, upd_dispatched i (cycle_time tap) w));;
      let '(lines, cur_time') := advance_clock cur_time (cycle_time tap) in
      emit lines;;
      let* tap' := dump_tap words hdevice tap in
      let taps' := <[i := tap']> taps in
      match find_earliest_tap taps' with
      | Some j => dump_taps words fuel' hdevice j taps' cur_time'
      | None => ret (taps', cur_time')
      end
  end.

(** Lines 331-426: the manifest is read again, the capture stopped, the
    trace information loaded and the file written. *)
Definition stop_and_dump (fuel : nat) (env : environment)
    (hdevice : vx_device_h) : M D unit :=
  let* taps :=
    match manifest_json env with
    | ParseThrows => stop_with Uncaught
    | ParseNull => return_ 0
    | ParseTaps l => ret (read_taps 1 l)
    end in
  for_each (fun tap => reg_write hdevice (cmd_stop_now (tap_id tap))) taps;;
  let* taps := for_each_tap (load_trace_info hdevice) taps in
  (fun w => (inl tt, upd_vcd [] w));;
  let* header :=
    match dump_header iteration_order fuel taps with
    | inl lines => ret lines
    | inr h => stop_with h
    end in
  emit header;;
  match find_earliest_tap taps with
  | Some i =>
      let* (_, cur_time) := dump_taps fuel fuel hdevice i taps 0 in
      emit (fst (advance_clock cur_time (u64 (cur_time + 1))))
  | None => ret tt
  end.

(** Lines 320-329 and the call of the rest.  The mutex is held for the
    whole call: calls never overlap, and run here one after the other. *)
Definition vx_scope_stop_body (fuel : nat) (env : environment)
    (hdevice : vx_device_h) : M D unit :=
  if hdevice is None then return_ (-1)
  else
    let* running := (fun w => (inl (g_running w), w)) in
    if negb running then return_ 0
    else
      (fun w => (inl tt, upd_running false w));;
      stop_and_dump fuel env hdevice.

(** A call: the status returned (falling off the body is the final
    [return 0]) or the way the call was cut short, and the state left. *)
Definition call (body : M D unit) (w : world D) : halt * world D :=
  match body w with
  | (inl _, w') => (Status 0, w')
  | (inr h, w') => (h, w')
  end.

Definition vx_scope_stop (fuel : nat) (env : environment)
    (hdevice : vx_device_h) (w : world D) : halt * world D :=
  call (vx_scope_stop_body fuel env hdevice) w.

(** Lines 231-318. *)
Definition vx_scope_start_body (env : environment)
    (callback : option (scope_callback_t D)) (hdevice : vx_device_h)
    (start_time stop_time : Z) : M D unit :=
  match hdevice, callback with
  | Some _, Some cb =>
      if negb (manifest_opens env) then return_ (-1)
      else
        let* taps :=
          match manifest_json env with
          | ParseThrows => stop_with Uncaught
          | ParseNull => return_ (-1)
          | ParseTaps l => ret l
          end in
        (fun w => (inl tt, upd_callback cb w));;
        for_each (fun tap =>
            let id := u32 (json_id tap) in
            let width := u32 (json_width tap) in
            reg_write hdevice (cmd_width id);;
            let* dev_width := reg_read hdevice in
            if negb (width =? dev_width) then return_ 1 else ret tt) taps;;
        match SCOPE_DEPTH env with
        | Some capture_size =>
            for_each (fun tap =>
                reg_write hdevice (cmd_depth (u32 capture_size) (u32 (json_id tap))))
              taps
        | None => ret tt
        end;;
        (if negb (stop_time =? u64 (-1)) then
           for_each (fun tap =>
               reg_write hdevice (cmd_stop stop_time (u32 (json_id tap)))) taps
         else ret tt);;
        (if negb (start_time =? u64 (-1)) then
           for_each (fun tap =>
               reg_write hdevice (cmd_set_start start_time (u32 (json_id tap)))) taps
         else ret tt);;
        (fun w => (inl tt, upd_running true w));;
        (fun w =>
           (inl tt, upd_auto_stop (default TIMEOUT_TIME (SCOPE_TIMEOUT env)) w))
  | _, _ => return_ (-1)
  end.

Definition vx_scope_start (env : environment)
    (callback : option (scope_callback_t D)) (hdevice : vx_device_h)
    (start_time stop_time : Z) (w : world D) : halt * world D :=
  call (vx_scope_start_body env callback hdevice start_time stop_time) w.
End Session.

(** ** A device for the examples

    Writes succeed; a read takes the next value of a script (0 once the
    script is used up). *)

Definition scripted : scope_callback_t (list Z) :=
  {| registerWrite := fun _ _ d => (0, d);
     registerRead := fun _ d =>
       match d with
       | [] => (0, 0, [])
       | v :: rest => (0, v, rest)
       end |}.

Definition session (script : list Z) (running : bool) : world (list Z) :=
  {| dev := script; io := []; scope_vcd := []; g_running := running;
     g_callback := Some scripted; auto_stop := []; dispatched := [] |}.

Definition handle : vx_device_h := Some 1%N.

(** The tap of the round-trip example: width 4, sub-signals of widths 1
    and 3, two samples. *)
Definition tap13 : tap_t :=
  {| tap_id := 0; tap_width := 4; samples := 2; cur_sample := 0;
     cycle_time := 1; path := "top.tap";
     signals := [ {| sig_id := 1; sig_name := "a"; sig_width := 1 |};
                  {| sig_id := 2; sig_name := "b"; sig_width := 3 |} ] |}.

(** ** What the decoder is expected to write

    The words a device hands out for [GET_DATA] requests, one after the
    other, and the value lines they stand for. *)

Definition transfers_ok {D} (cb : scope_callback_t D) : Prop :=
  (∀ h v d, fst (registerWrite cb h v d) = 0) ∧
  (∀ h d, fst (fst (registerRead cb h d)) = 0).

(** One request and its response, on the device alone. *)
Definition request {D} (cb : scope_callback_t D) (h : vx_device_h) (cmd : Z)
    (d : D) : Z * D :=
  let d1 := snd (registerWrite cb h cmd d) in
  (u64 (snd (fst (registerRead cb h d1))), snd (registerRead cb h d1)).

Definition next_data {D} (cb : scope_callback_t D) (h : vx_device_h) (id : Z)
    (d : D) : Z * D :=
  request cb h (cmd_data id) d.

Definition dev_after {D} (cb : scope_callback_t D) (h : vx_device_h) (id : Z)
    (d0 : D) (m : nat) : D :=
  Nat.iter m (fun d => snd (next_data cb h id d)) d0.

Definition data_word {D} (cb : scope_callback_t D) (h : vx_device_h) (id : Z)
    (d0 : D) (m : nat) : Z :=
  fst (next_data cb h id (dev_after cb h id d0 m)).

(** The trace of the first [m] requests. *)
Definition data_events (id : Z) (wordf : nat → Z) (m : nat) : list io_event :=
  flat_map (fun i => [IoWrite (cmd_data id) 0; IoRead (wordf i) 0]) (seq 0 m).

(** Bit [k] of a sample: bit [k mod 64] of word [k / 64]. *)
Definition sample_bit (wordf : nat → Z) (k : Z) : ascii :=
  bit_char (wordf (Z.to_nat (k / 64))) (k mod 64).

(** The text of a sub-signal held in the bits [off .. off + w - 1] of the
    sample: the highest bit is the first character. *)
Definition signal_text (wordf : nat → Z) (off w : Z) : string :=
  string_of_list_ascii
    (map (fun i => sample_bit wordf (off + w - 1 - i)) (seqZ 0 w)).

(** The value lines of the sub-signals [rs], packed from bit [off] on. *)
Fixpoint sample_lines (wordf : nat → Z) (off : Z) (rs : list tap_signal_t)
  : list vcd_line :=
  match rs with
  | [] => []
  | s :: rest =>
      LValue (signal_text wordf off (sig_width s)) (sig_id s)
        :: sample_lines wordf (off + sig_width s) rest
  end.

Definition sum_widths (l : list tap_signal_t) : Z :=
  foldr (fun s acc => sig_width s + acc) 0 l.

(** A tap as the manifest promises it: the widths of the sub-signals are
    positive and add up to the width of the tap. *)
Record packed (tap : tap_t) : Prop := {
  packed_pos : Forall (fun s => 0 < sig_width s) (signals tap);
  packed_sum : sum_widths (signals tap) = tap_width tap;
  packed_u32 : tap_width tap < 2 ^ 32
}.

(** The same with more than one sub-signal. *)
Record well_formed (tap : tap_t) : Prop := {
  wf_packed : packed tap;
  wf_two : (2 <= length (signals tap))%nat
}.

(** The number of 64-bit words of one sample. *)
Definition sample_words (tap : tap_t) : nat := Z.to_nat ((tap_width tap + 63) / 64).

(** The state a few register accesses and written lines later. *)
Definition after {D} (w : world D) (d : D) (events : list io_event)
    (lines : list vcd_line) : world D :=
  {| dev := d; io := io w ++ events; scope_vcd := scope_vcd w ++ lines;
     g_running := g_running w; g_callback := g_callback w;
     auto_stop := auto_stop w; dispatched := dispatched w |}.

(** The decoder between two bits: [k] bits of the sample are consumed, the
    iterator stands on sub-signal [j] of [rs], and the buffer holds the bits
    of that sub-signal read so far, the first one at the last position. *)
Record decoding (wordf : nat → Z) (rs : list tap_signal_t) (W : Z)
    (k : Z) (j : nat) (st : decoder) : Prop := {
  dec_sample : sample_offset st = k;
  dec_it : signal_it st = j;
  dec_width : sig_width <$> rs !! j = Some (signal_width st);
  dec_offset : 0 <= signal_offset st < signal_width st;
  dec_start : k = sum_widths (take j rs) + signal_offset st;
  dec_length : Z.of_nat (length (signal_data st)) = W;
  dec_buffer : ∀ i, 0 <= i < signal_offset st →
    signal_data st !! Z.to_nat (signal_width st - 1 - i)
    = Some (sample_bit wordf (sum_widths (take j rs) + i))
}.

(** The tap after one more sample; [delta] is the word read for the time
    of the next one. *)
Definition last_sample (tap : tap_t) : bool :=
  u32 (cur_sample tap + 1) =? samples tap.

Definition next_sample (tap : tap_t) (delta : Z) : tap_t :=
  set_progress tap (u32 (cur_sample tap + 1))
    (if last_sample tap then cycle_time tap
     else u64 (cycle_time tap + (1 + delta))).

(** The [GET_DATA] requests of one [dump_tap]: the words of the sample, and
    the delta unless the sample is the last. *)
Definition requests (tap : tap_t) : nat :=
  if last_sample tap then sample_words tap else S (sample_words tap).

(** The same tap with the sub-signals in the other order, and a tap with a
    single sub-signal as wide as the tap. *)
Definition tap31 : tap_t :=
  {| tap_id := 0; tap_width := 4; samples := 2; cur_sample := 0;
     cycle_time := 1; path := "top.tap";
     signals := [ {| sig_id := 1; sig_name := "b"; sig_width := 3 |};
                  {| sig_id := 2; sig_name := "a"; sig_width := 1 |} ] |}.

Definition tap4 : tap_t :=
  {| tap_id := 0; tap_width := 4; samples := 2; cur_sample := 0;
     cycle_time := 1; path := "top.tap";
     signals := [ {| sig_id := 1; sig_name := "a"; sig_width := 4 |} ] |}.

(** The text of the lines [dump_tap] writes on the scripted device. *)
Definition decoded_text (tap : tap_t) (script : list Z) : list string :=
  map render (scope_vcd (snd (dump_tap 1 handle tap (session script true)))).

(** ** What a statement leaves behind

    [extends w w' ev lines log]: from [w] to [w'] the register accesses [ev]
    were made, the lines [lines] written and the dispatches [log] recorded;
    the session is otherwise as it was. *)
Record extends {D} (w w' : world D) (ev : list io_event)
    (lines : list vcd_line) (log : list (nat * Z)) : Prop := {
  ext_io : io w' = io w ++ ev;
  ext_vcd : scope_vcd w' = scope_vcd w ++ lines;
  ext_log : dispatched w' = dispatched w ++ log;
  ext_callback : g_callback w' = g_callback w;
  ext_running : g_running w' = g_running w;
  ext_auto_stop : auto_stop w' = auto_stop w
}.

(** [triple m E L G P]: the statement [m] makes only register accesses in
    [E], writes only lines in [L], records only dispatches in [G], and a
    value it hands on is in [P]. *)
Definition triple {D A} (m : M D A)
    (E : io_event → Prop) (L : vcd_line → Prop) (G : nat * Z → Prop)
    (P : A → Prop) : Prop :=
  ∀ w r w', m w = (r, w') →
    (∃ ev lines log, extends w w' ev lines log ∧
        Forall E ev ∧ Forall L lines ∧ Forall G log) ∧
    (∀ a, r = inl a → P a).

(** A register access on behalf of the tap [id] during a dump. *)
Definition data_event (id : Z) (e : io_event) : Prop :=
  match e with
  | IoWrite v _ => v = cmd_data id
  | IoRead _ _ => True
  end.

(** A value line of one of the sub-signals of [tap]. *)
Definition value_line (tap : tap_t) (l : vcd_line) : Prop :=
  match l with
  | LValue _ i => i ∈ map sig_id (signals tap)
  | _ => False
  end.

(** [tap'] is [tap] one sample later. *)
Definition progressed (tap tap' : tap_t) : Prop :=
  ∃ time', tap' = set_progress tap (u32 (cur_sample tap + 1)) time'.

(** ** The order of the dispatches *)

(** The cycle times at which tap [i] was dispatched, in order. *)
Definition times_of (i : nat) (log : list (nat * Z)) : list Z :=
  map snd (List.filter (fun e => Nat.eqb (fst e) i) log).

(** Every tap on its own is dispatched at times that do not decrease: its
    64-bit [cycle_time] never wrapped around. *)
Definition each_tap_in_order (log : list (nat * Z)) : Prop :=
  ∀ i, StronglySorted Z.le (times_of i log).

(** The times of the [#] lines of a piece of the file. *)
Fixpoint timestamps (lines : list vcd_line) : list Z :=
  match lines with
  | [] => []
  | LTime t :: rest => t :: timestamps rest
  | _ :: rest => timestamps rest
  end.

(** A second tap, and the manifest of two taps used in the examples. *)
Definition tap11 : tap_t :=
  {| tap_id := 1; tap_width := 2; samples := 1; cur_sample := 0;
     cycle_time := 3; path := "top.tap2";
     signals := [ {| sig_id := 3; sig_name := "c"; sig_width := 1 |};
                  {| sig_id := 4; sig_name := "d"; sig_width := 1 |} ] |}.

Definition manifest2 : environment :=
  {| manifest_opens := true;
     manifest_json :=
       ParseTaps
         [ {| json_id := 0; json_width := 4; json_path := "top.tap";
              json_signals := [("a"%string, 1); ("b"%string, 3)] |};
           {| json_id := 1; json_width := 2; json_path := "top.tap2";
              json_signals := [("c"%string, 1); ("d"%string, 1)] |} ];
     SCOPE_DEPTH := None; SCOPE_TIMEOUT := None |}.

(** What the device answers during a stop: tap 0 has two samples from time
    100 on, tap 1 one sample at time 60; the delta after the first sample of
    tap 0 is [2^64 - 50]. *)
Definition wrapping_script : list Z :=
  [2; 98; 1;  1; 58; 1;  2;  11; 2 ^ 64 - 50;  5].

(** ** The trace information of a tap

    What the device answers to the three requests of [load_trace_info],
    asked one after the other from the state [d]. *)
Definition count_of {D} (cb : scope_callback_t D) (h : vx_device_h)
    (tap : tap_t) (d : D) : Z * D :=
  request cb h (cmd_count (tap_id tap)) d.

Definition start_of {D} (cb : scope_callback_t D) (h : vx_device_h)
    (tap : tap_t) (d : D) : Z * D :=
  request cb h (cmd_get_start (tap_id tap)) (snd (count_of cb h tap d)).

Definition delta_of {D} (cb : scope_callback_t D) (h : vx_device_h)
    (tap : tap_t) (d : D) : Z * D :=
  request cb h (cmd_data (tap_id tap)) (snd (start_of cb h tap d)).

(** A register access of [load_trace_info] on behalf of the tap [id]. *)
Definition info_event (id : Z) (e : io_event) : Prop :=
  match e with
  | IoWrite v _ => v = cmd_count id ∨ v = cmd_get_start id ∨ v = cmd_data id
  | IoRead _ _ => True
  end.

Definition info_event_of (taps : list tap_t) (e : io_event) : Prop :=
  ∃ t, t ∈ taps ∧ info_event (tap_id t) e.

(** ** Taps without samples *)

(** A register access of the merge loop on behalf of a tap with samples. *)
Definition sampled_event (taps : list tap_t) (e : io_event) : Prop :=
  ∃ t, t ∈ taps ∧ samples t ≠ 0 ∧ data_event (tap_id t) e.

(** A line of the body: a line of the clock, or a value line of a
    sub-signal of a tap with samples. *)
Definition body_line (taps : list tap_t) (l : vcd_line) : Prop :=
  match l with
  | LTime _ | LClock _ => True
  | LValue _ i => ∃ t, t ∈ taps ∧ samples t ≠ 0 ∧ i ∈ map sig_id (signals t)
  | _ => False
  end.

(** A dispatch of a tap with samples. *)
Definition sampled_dispatch (taps : list tap_t) (e : nat * Z) : Prop :=
  ∃ t, taps !! fst e = Some t ∧ samples t ≠ 0.

(** The taps without samples are in [taps'] what they were in [taps]. *)
Definition untouched (taps taps' : list tap_t) : Prop :=
  ∀ j t, taps !! j = Some t → samples t = 0 → taps' !! j = Some t.

(** A device that accepts every write and answers 0 to every read, and a
    running session on it. *)
Definition idle : scope_callback_t unit :=
  {| registerWrite := fun _ _ d => (0, d);
     registerRead := fun _ d => (0, 0, d) |}.

Definition idle_session : world unit :=
  {| dev := tt; io := []; scope_vcd := []; g_running := true;
     g_callback := Some idle; auto_stop := []; dispatched := [] |}.

(** ** The session across a call *)

(** The running flag, the callbacks and the watchers are what they were. *)
Definition same_session {D} (w w' : world D) : Prop :=
  g_running w' = g_running w ∧ g_callback w' = g_callback w ∧
  auto_stop w' = auto_stop w.

Definition keeps {D A} (m : M D A) : Prop :=
  ∀ w r w', m w = (r, w') → same_session w w'.

(** No register access was made and the file is as it was. *)
Definition untouched_device {D} (w w' : world D) : Prop :=
  dev w' = dev w ∧ io w' = io w ∧ scope_vcd w' = scope_vcd w.

(** A full run for the examples: what the device answers to the requests
    of a stop on [manifest2] (two samples for tap 0, one for tap 1). *)
Definition stop_script : list Z := [2; 5; 0;  1; 7; 3;  11; 4;  13;  2].

(** A manifest that [json::parse] reads as null. *)
Definition null_manifest : environment :=
  {| manifest_opens := true; manifest_json := ParseNull;
     SCOPE_DEPTH := None; SCOPE_TIMEOUT := None |}.

(** The accesses of a stop that finds no samples: the hard stop of every
    tap, then the count of every tap, answered by 0. *)
Definition stop_events (taps : list tap_t) : list io_event :=
  map (fun t => IoWrite (cmd_stop_now (tap_id t)) 0) taps.

Definition count_events (taps : list tap_t) : list io_event :=
  flat_map (fun t => [IoWrite (cmd_count (tap_id t)) 0; IoRead 0 0]) taps.

(** The device answers 0 to every read. *)
Definition reads_zero {D} (cb : scope_callback_t D) : Prop :=
  ∀ h d, u64 (snd (fst (registerRead cb h d))) = 0.

(** The answers to a stop on [manifest2] when tap 1 has no sample. *)
Definition empty_tap_script : list Z := [2; 5; 0;  0;  11; 4;  13].

(** The identifiers of all sub-signals, tap after tap. *)
Definition all_ids (taps : list tap_t) : list Z :=
  concat (map (fun t => map sig_id (signals t)) taps).

(** The number of sub-signals of a manifest. *)
Definition signal_count (l : list json_tap) : Z :=
  Z.of_nat (length (concat (map json_signals l))).

(** The scope of a tap at the end of a path, one level below [indentation]
    zero: its [$scope] line, its [$var] lines and its [$upscope] line. *)
Definition leaf_scope (indentation : nat) (name : string) (tap : tap_t)
  : list vcd_line :=
  [LScope indentation name] ++ var_lines indentation tap
    ++ [LUpscope indentation].

(** The two taps of the hierarchy example. *)
Definition tap_reg : tap_t :=
  {| tap_id := 0; tap_width := 4; samples := 0; cur_sample := 0;
     cycle_time := 0; path := "cpu.core.reg";
     signals := [ {| sig_id := 1; sig_name := "a"; sig_width := 1 |};
                  {| sig_id := 2; sig_name := "b"; sig_width := 3 |} ] |}.

Definition tap_alu : tap_t :=
  {| tap_id := 1; tap_width := 2; samples := 0; cur_sample := 0;
     cycle_time := 0; path := "cpu.core.alu";
     signals := [ {| sig_id := 3; sig_name := "c"; sig_width := 1 |};
                  {| sig_id := 4; sig_name := "d"; sig_width := 1 |} ] |}.

Definition header_text (taps : list tap_t) : list string :=
  match dump_header elements 3 taps with
  | inl lines => map render lines
  | inr _ => []
  end.

(** ** Paths and their tokens *)

(** The tokens put together again, the delimiter between them. *)
Fixpoint join (delimiter : ascii) (tokens : list string) : string :=
  match tokens with
  | [] => EmptyString
  | token :: rest =>
      match rest with
      | [] => token
      | _ :: _ => token +:+ String delimiter (join delimiter rest)
      end
  end.

(** The last character of [s] is [c]. *)
Fixpoint ends_with (s : string) (c : ascii) : bool :=
  match s with
  | EmptyString => false
  | String a rest =>
      match rest with
      | EmptyString => Ascii.eqb a c
      | String _ _ => ends_with rest c
      end
  end.

(** The character [c] occurs in [s]. *)
Fixpoint occurs (c : ascii) (s : string) : bool :=
  match s with
  | EmptyString => false
  | String a rest => Ascii.eqb a c || occurs c rest
  end.

(** ** The shape of the header *)

(** [child] is a child of [parent] in the hierarchy. *)
Definition edge (hierarchy : gmap string (gset string)) (parent child : string)
  : Prop :=
  ∃ set, hierarchy !! parent = Some set ∧ child ∈ set.

(** [a] stands right before [b] in [tokens]. *)
Definition adjacent (a b : string) (tokens : list string) : Prop :=
  ∃ before after, tokens = before ++ a :: b :: after.

(** A reader of the scope lines that keeps the depth: a [$scope] line must
    be indented by the depth it opens, an [$upscope] line by the depth it
    closes, and a [$var] line stands in a scope, indented as the scope is.
    The result is the depth after the last line. *)
Fixpoint nesting (depth : nat) (lines : list vcd_line) : option nat :=
  match lines with
  | [] => Some depth
  | LScope n _ :: rest =>
      if Nat.eqb n (S depth) then nesting (S depth) rest else None
  | LUpscope n :: rest =>
      match depth with
      | S depth' => if Nat.eqb n depth then nesting depth' rest else None
      | O => None
      end
  | LVar n _ _ _ :: rest =>
      match depth with
      | S _ => if Nat.eqb n depth then nesting depth rest else None
      | O => None
      end
  | _ :: rest => nesting depth rest
  end.

(** A tap whose path names the module [cpu] twice. *)
Definition tap_loop : tap_t :=
  {| tap_id := 0; tap_width := 4; samples := 0; cur_sample := 0;
     cycle_time := 0; path := "cpu.cpu";
     signals := [ {| sig_id := 1; sig_name := "a"; sig_width := 1 |};
                  {| sig_id := 2; sig_name := "b"; sig_width := 3 |} ] |}.

(** ** The whole merge *)

(** The samples of a tap that are still to be dumped. *)
Definition remaining (tap : tap_t) : nat :=
  Z.to_nat (samples tap - cur_sample tap).

Definition total_remaining (taps : list tap_t) : nat :=
  foldr (fun tap n => (remaining tap + n)%nat) 0%nat taps.

(** The counters of a tap as [vx_scope_stop] keeps them. *)
Definition in_range (tap : tap_t) : Prop :=
  0 <= cur_sample tap <= samples tap ∧ samples tap < 2 ^ 32.

(** [tap'] is [tap] with all its samples dumped. *)
Definition finished_from (tap tap' : tap_t) : Prop :=
  tap_id tap' = tap_id tap ∧ tap_width tap' = tap_width tap ∧
  samples tap' = samples tap ∧ path tap' = path tap ∧
  signals tap' = signals tap ∧ cur_sample tap' = samples tap.

(** A tap whose last sub-signal has no bit. *)
Definition tap30 : tap_t :=
  {| tap_id := 0; tap_width := 3; samples := 2; cur_sample := 0;
     cycle_time := 1; path := "top.tap";
     signals := [ {| sig_id := 1; sig_name := "b"; sig_width := 3 |};
                  {| sig_id := 2; sig_name := "a"; sig_width := 0 |} ] |}.

(** ** A start, access by access *)

(** The accesses of the validation loop when every tap has the width of
    the manifest. *)
Definition width_events (taps : list json_tap) : list io_event :=
  flat_map (fun tap => [IoWrite (cmd_width (u32 (json_id tap))) 0;
                        IoRead (u32 (json_width tap)) 0]) taps.

(** The words written after the validation: the capture depth when
    [SCOPE_DEPTH] is set, the stop time and the start time unless they are
    [uint64_t(-1)], each for every tap in turn. *)
Definition setup_commands (env : environment) (taps : list json_tap)
    (start_time stop_time : Z) : list Z :=
  match SCOPE_DEPTH env with
  | Some capture_size =>
      map (fun tap => cmd_depth (u32 capture_size) (u32 (json_id tap))) taps
  | None => []
  end
  ++ (if stop_time =? u64 (-1) then []
      else map (fun tap => cmd_stop stop_time (u32 (json_id tap))) taps)
  ++ (if start_time =? u64 (-1) then []
      else map (fun tap => cmd_set_start start_time (u32 (json_id tap))) taps).

(** The device reports the width [width] for the tap [id]. *)
Definition reports_width {D} (cb : scope_callback_t D) (h : vx_device_h)
    (id width : Z) : Prop :=
  ∀ d, fst (request cb h (cmd_width id) d) = width.

(** A device that reports the width 4 for every tap, and a fresh session
    on it. *)
Definition four_wide : scope_callback_t unit :=
  {| registerWrite := fun _ _ d => (0, d);
     registerRead := fun _ d => (0, 4, d) |}.

Definition fresh {D} (d : D) : world D :=
  {| dev := d; io := []; scope_vcd := []; g_running := false;
     g_callback := None; auto_stop := []; dispatched := [] |}.

(** A manifest of one tap of width 4, with a capture depth. *)
Definition manifest1 : environment :=
  {| manifest_opens := true;
     manifest_json :=
       ParseTaps
         [ {| json_id := 0; json_width := 4; json_path := "top.tap";
              json_signals := [("a"%string, 1); ("b"%string, 3)] |} ];
     SCOPE_DEPTH := Some 256; SCOPE_TIMEOUT := Some 30 |}.

(** ** Failed transfers *)

Definition io_status (e : io_event) : Z :=
  match e with
  | IoWrite _ status => status
  | IoRead _ status => status
  end.

(** Every access of [ev] returned 0. *)
Definition clean (ev : list io_event) : Prop :=
  Forall (fun e => io_status e = 0) ev.

(** The accesses [ev] of a call with the outcome [r]: all of them returned
    0, or only the last one did not, and its status is the outcome. *)
Definition checked_outcome {A} (stopped : halt → A) (ev : list io_event)
    (r : A) : Prop :=
  clean ev ∨
  ∃ ev0 e, ev = ev0 ++ [e] ∧ clean ev0 ∧ io_status e ≠ 0 ∧
           r = stopped (Status (io_status e)).

Definition checked {D A} (m : M D A) : Prop :=
  ∀ w r w', m w = (r, w') →
    ∃ ev, io w' = io w ++ ev ∧ checked_outcome inr ev r.

(** A device that refuses every write with the status 5, and a running
    session on it. *)
Definition refusing : scope_callback_t unit :=
  {| registerWrite := fun _ _ d => (5, d);
     registerRead := fun _ d => (0, 0, d) |}.

Definition refusing_session : world unit :=
  {| dev := tt; io := []; scope_vcd := [LText "kept"]; g_running := true;
     g_callback := Some refusing; auto_stop := [3600]; dispatched := [] |}.

(** ** What a stop says to the device *)

(** The tap ids of the manifest, as [vx_scope_stop] reads them. *)
Definition manifest_ids (env : environment) : list Z :=
  match manifest_json env with
  | ParseTaps taps => map (fun tap => u32 (json_id tap)) taps
  | _ => []
  end.

(** An access of a stop: a response, or one of the four words a stop
    writes, for a tap of [ids]. *)
Definition stop_event (ids : list Z) (e : io_event) : Prop :=
  match e with
  | IoWrite v _ =>
      ∃ id, id ∈ ids ∧
        (v = cmd_stop_now id ∨ v = cmd_count id ∨ v = cmd_get_start id ∨
         v = cmd_data id)
  | IoRead _ _ => True
  end.

(** [talks E P m]: the statement [m] makes only accesses in [E], leaves the
    callbacks and the watchers as they are, and hands on a value in [P]. *)
Definition talks {D A} (E : io_event → Prop) (P : A → Prop) (m : M D A) : Prop :=
  ∀ w r w', m w = (r, w') →
    (∃ ev, io w' = io w ++ ev ∧ Forall E ev) ∧
    g_callback w' = g_callback w ∧ auto_stop w' = auto_stop w ∧
    ∀ a, r = inl a → P a.

(** ** What a start leaves behind *)

(** [framed m]: the statement [m] leaves the file, the history, the running
    flag, the callbacks and the watchers as they are, and does not end the
    call with the status 0. *)
Definition framed {D A} (m : M D A) : Prop :=
  ∀ w r w', m w = (r, w') →
    scope_vcd w' = scope_vcd w ∧ dispatched w' = dispatched w ∧
    g_running w' = g_running w ∧ auto_stop w' = auto_stop w ∧
    g_callback w' = g_callback w ∧ r ≠ inr (Status 0).

(** [starting t m]: the same up to the end of [m], where the session is
    marked running and a watcher with the timeout [t] is added. *)
Definition starting {D} (t : Z) (m : M D unit) : Prop :=
  ∀ w r w', m w = (r, w') →
    scope_vcd w' = scope_vcd w ∧ dispatched w' = dispatched w ∧
    g_callback w' = g_callback w ∧
    match r with
    | inl _ => g_running w' = true ∧ auto_stop w' = auto_stop w ++ [t]
    | inr h => h ≠ Status 0 ∧ g_running w' = g_running w ∧
               auto_stop w' = auto_stop w
    end.

(** ** A whole stop *)

(** [t'] declares what [t] declares: the same path and sub-signals. *)
Definition same_decl (t t' : tap_t) : Prop :=
  path t' = path t ∧ signals t' = signals t.

(** The device after the words [cmds] are written to it. *)
Definition write_all {D} (cb : scope_callback_t D) (h : vx_device_h)
    (cmds : list Z) (d : D) : D :=
  foldl (fun d cmd => snd (registerWrite cb h cmd d)) d cmds.

(** What the loop that loads the trace information makes of the taps, on
    the device alone: a tap whose count is 0 is left as it is, the others
    get their count and their first time. *)
Fixpoint load_all {D} (cb : scope_callback_t D) (h : vx_device_h)
    (taps : list tap_t) (d : D) : list tap_t * D :=
  match taps with
  | [] => ([], d)
  | tap :: rest =>
      if fst (count_of cb h tap d) =? 0 then
        let '(rest', d') := load_all cb h rest (snd (count_of cb h tap d)) in
        (tap :: rest', d')
      else
        let '(rest', d') := load_all cb h rest (snd (delta_of cb h tap d)) in
        (set_trace_info tap (u32 (fst (count_of cb h tap d)))
           (u64 (1 + fst (start_of cb h tap d) + fst (delta_of cb h tap d)))
           :: rest', d')
  end.

(** The taps of a manifest as a stop has them when it begins to write the
    file: read from the manifest, stopped, and loaded. *)
Definition loaded_taps {D} (cb : scope_callback_t D) (h : vx_device_h)
    (manifest : list json_tap) (d : D) : list tap_t :=
  fst (load_all cb h (read_taps 1 manifest)
         (write_all cb h
            (map (fun tap => cmd_stop_now (tap_id tap)) (read_taps 1 manifest))
            d)).

(** [t1] is [t] with the trace information a device gave: the counters are
    those of the manifest but for [samples], a 32-bit count, and the time. *)
Definition loaded (t t1 : tap_t) : Prop :=
  tap_id t1 = tap_id t ∧ tap_width t1 = tap_width t ∧
  cur_sample t1 = cur_sample t ∧ path t1 = path t ∧ signals t1 = signals t ∧
  (samples t1 = samples t ∨ 0 <= samples t1 < 2 ^ 32).

(** The module a tap's sub-signals are declared in: the last name of its
    path. *)
Definition tail_name (tap : tap_t) : option string := last (split (path tap) ".").

(** A running session has its callbacks installed. *)
Definition usable {D} (w : world D) : Prop :=
  g_running w = true → is_Some (g_callback w).

(** Two taps whose paths end in the same module. *)
Definition tap_core1 : tap_t :=
  {| tap_id := 0; tap_width := 4; samples := 0; cur_sample := 0;
     cycle_time := 0; path := "cpu.unit";
     signals := [ {| sig_id := 1; sig_name := "a"; sig_width := 1 |};
                  {| sig_id := 2; sig_name := "b"; sig_width := 3 |} ] |}.

Definition tap_core2 : tap_t :=
  {| tap_id := 1; tap_width := 2; samples := 0; cur_sample := 0;
     cycle_time := 0; path := "gpu.unit";
     signals := [ {| sig_id := 3; sig_name := "c"; sig_width := 1 |};
                  {| sig_id := 4; sig_name := "d"; sig_width := 1 |} ] |}.

(** The taps of [manifest2]. *)
Definition two_taps : list json_tap :=
  [ {| json_id := 0; json_width := 4; json_path := "top.tap";
       json_signals := [("a"%string, 1); ("b"%string, 3)] |};
    {| json_id := 1; json_width := 2; json_path := "top.tap2";
       json_signals := [("c"%string, 1); ("d"%string, 1)] |} ].

(** ** The text of a value line *)

(** Every character of [s] is [0] or [1]. *)
Definition binary (s : string) : Prop :=
  Forall (fun c => c = "0"%char ∨ c = "1"%char) (list_ascii_of_string s).

(** [line] is a value line of the sub-signal [s]: its identifier, and one
    binary digit for each of its bits. *)
Definition value_of (s : tap_signal_t) (line : vcd_line) : Prop :=
  ∃ text, line = LValue text (sig_id s) ∧
          Z.of_nat (String.length text) = sig_width s ∧ binary text.


(** * Properties *)

(** ** Machine words *)

(** [lia] with the powers of two of the word sizes spelled out. *)
Ltac word_lia :=
  change (2 ^ 63) with 9223372036854775808 in *;
  change (2 ^ 64) with 18446744073709551616 in *;
  lia.

Lemma u32_range z : 0 <= u32 z < 2 ^ 32.
Proof. unfold u32. apply Z.mod_pos_bound. lia. Qed.

Lemma u64_range z : 0 <= u64 z < 2 ^ 64.
Proof. unfold u64. apply Z.mod_pos_bound. lia. Qed.

Lemma u32_small z : 0 <= z < 2 ^ 32 -> u32 z = z.
Proof. intros. unfold u32. apply Z.mod_small. lia. Qed.

Lemma u64_small z : 0 <= z < 2 ^ 64 -> u64 z = z.
Proof. intros. unfold u64. apply Z.mod_small. lia. Qed.

(** Fields that do not overlap are added by [Z.lor]. *)
Lemma lor_shifted_add (a b k : Z) :
  0 <= k -> 0 <= b < 2 ^ k -> Z.lor (a * 2 ^ k) b = a * 2 ^ k + b.
Proof.
  intros Hk Hb.
  rewrite <- (Z.add_lor_land (a * 2 ^ k) b).
  assert (Z.land (a * 2 ^ k) b = 0) as ->; [|lia].
  apply Z.bits_inj'. intros n Hn.
  rewrite Z.land_spec, Z.bits_0.
  destruct (Z_lt_le_dec n k).
  - rewrite Z.mul_pow2_bits_low by lia. reflexivity.
  - assert (Z.testbit b n = false) as ->; [|apply andb_false_r].
    destruct (Z.eq_dec b 0) as [->|]; [apply Z.bits_0|].
    apply Z.bits_above_log2; [lia|].
    apply Z.log2_lt_pow2; [lia|].
    assert (2 ^ k <= 2 ^ n) by (apply Z.pow_le_mono_r; lia). lia.
Qed.

(** ** Register commands *)

Lemma cmd_word_sum (p op id : Z) :
  0 <= op < 8 -> 0 <= id < 256 ->
  cmd_word p op id = p * 2048 + id * 8 + op.
Proof.
  intros Hop Hid. unfold cmd_word.
  rewrite !Z.shiftl_mul_pow2 by lia.
  change (2 ^ 11) with 2048. change (2 ^ 3) with 8.
  assert (Z.lor (p * 2048) (id * 8) = p * 2048 + id * 8) as ->.
  { change 2048 with (2 ^ 11). apply lor_shifted_add; lia. }
  replace (p * 2048 + id * 8) with ((p * 256 + id) * 2 ^ 3) by lia.
  rewrite lor_shifted_add by lia. lia.
Qed.

Lemma cmd_word_fields (p op id : Z) :
  0 <= op < 8 -> 0 <= id < 256 ->
  opcode_field (cmd_word p op id) = op /\
  tap_field (cmd_word p op id) = id /\
  payload_field (cmd_word p op id) = p.
Proof.
  intros Hop Hid. rewrite cmd_word_sum by assumption.
  unfold opcode_field, tap_field, payload_field.
  change 7 with (Z.ones 3). change 255 with (Z.ones 8).
  rewrite !Z.land_ones, !Z.shiftr_div_pow2 by lia.
  change (2 ^ 3) with 8. change (2 ^ 8) with 256. change (2 ^ 11) with 2048.
  repeat split; Z.div_mod_to_equations; lia.
Qed.

Lemma shiftl_small_id (id : Z) : 0 <= id < 256 -> u32 (Z.shiftl id 3) = Z.shiftl id 3.
Proof. intros. rewrite Z.shiftl_mul_pow2 by lia. apply u32_small. lia. Qed.

Lemma shiftl_payload_64 (t : Z) :
  u64 (Z.shiftl t 11) = Z.shiftl (t mod 2 ^ 53) 11.
Proof.
  unfold u64. rewrite !Z.shiftl_mul_pow2 by lia.
  change (2 ^ 64) with (2 ^ 53 * 2 ^ 11).
  rewrite Z.mul_mod_distr_r by lia. reflexivity.
Qed.

Lemma shiftl_payload_32 (c : Z) :
  u32 (Z.shiftl c 11) = Z.shiftl (c mod 2 ^ 21) 11.
Proof.
  unfold u32. rewrite !Z.shiftl_mul_pow2 by lia.
  change (2 ^ 32) with (2 ^ 21 * 2 ^ 11).
  rewrite Z.mul_mod_distr_r by lia. reflexivity.
Qed.

Lemma cmd_get_word (id op : Z) :
  0 <= id < 256 -> cmd_get id op = cmd_word 0 op id.
Proof.
  intros. unfold cmd_get, cmd_word. rewrite shiftl_small_id by assumption.
  reflexivity.
Qed.

Lemma cmd_fields_word (p op id : Z) :
  0 <= op < 8 -> 0 <= id < 256 -> cmd_fields (cmd_word p op id) = (op, id, p).
Proof.
  intros Hop Hid. unfold cmd_fields.
  destruct (cmd_word_fields p op id Hop Hid) as (-> & -> & ->). reflexivity.
Qed.

Lemma cmd_time_word (t id op : Z) :
  0 <= id < 256 ->
  Z.lor (Z.lor (u64 (Z.shiftl t 11)) (u32 (Z.shiftl id 3))) op
  = cmd_word (t mod 2 ^ 53) op id.
Proof.
  intros. unfold cmd_word.
  rewrite shiftl_payload_64, shiftl_small_id by assumption. reflexivity.
Qed.

Lemma cmd_depth_word (c id : Z) :
  0 <= id < 256 -> cmd_depth c id = cmd_word (c mod 2 ^ 21) CMD_SET_DEPTH id.
Proof.
  intros. unfold cmd_depth, cmd_word.
  rewrite shiftl_payload_32, shiftl_small_id by assumption. reflexivity.
Qed.

Lemma cmd_stop_now_word (id : Z) :
  0 <= id < 256 -> cmd_stop_now id = cmd_word 0 CMD_SET_STOP id.
Proof.
  intros. unfold cmd_stop_now, cmd_word.
  rewrite shiftl_small_id by assumption. reflexivity.
Qed.

(** C5, as the code has it: every command word is
    [(payload << 11) | (tap_id << 3) | opcode].  For a tap id below 256 the
    opcode is read back from bits 0-2, the tap id from bits 3-10 and the
    payload from the bits above bit 10: nothing for the GET commands and the
    hard stop, the low 53 bits of a start or stop time, the low 21 bits of a
    capture depth (the depth word is built in 32 bits). *)
Theorem command_word_layout (id t c : Z) :
  0 <= id < 256 ->
  (cmd_width id = cmd_word 0 CMD_GET_WIDTH id /\
   cmd_count id = cmd_word 0 CMD_GET_COUNT id /\
   cmd_get_start id = cmd_word 0 CMD_GET_START id /\
   cmd_data id = cmd_word 0 CMD_GET_DATA id /\
   cmd_set_start t id = cmd_word (t mod 2 ^ 53) CMD_SET_START id /\
   cmd_stop t id = cmd_word (t mod 2 ^ 53) CMD_SET_STOP id /\
   cmd_stop_now id = cmd_word 0 CMD_SET_STOP id /\
   cmd_depth c id = cmd_word (c mod 2 ^ 21) CMD_SET_DEPTH id) /\
  (cmd_fields (cmd_width id) = (0, id, 0) /\
   cmd_fields (cmd_count id) = (1, id, 0) /\
   cmd_fields (cmd_get_start id) = (2, id, 0) /\
   cmd_fields (cmd_data id) = (3, id, 0) /\
   cmd_fields (cmd_set_start t id) = (4, id, t mod 2 ^ 53) /\
   cmd_fields (cmd_stop t id) = (5, id, t mod 2 ^ 53) /\
   cmd_fields (cmd_stop_now id) = (5, id, 0) /\
   cmd_fields (cmd_depth c id) = (6, id, c mod 2 ^ 21)).
Proof.
  intros Hid.
  assert (cmd_width id = cmd_word 0 CMD_GET_WIDTH id) as E1
    by (apply cmd_get_word; assumption).
  assert (cmd_count id = cmd_word 0 CMD_GET_COUNT id) as E2
    by (apply cmd_get_word; assumption).
  assert (cmd_get_start id = cmd_word 0 CMD_GET_START id) as E3
    by (apply cmd_get_word; assumption).
  assert (cmd_data id = cmd_word 0 CMD_GET_DATA id) as E4
    by (apply cmd_get_word; assumption).
  assert (cmd_set_start t id = cmd_word (t mod 2 ^ 53) CMD_SET_START id) as E5
    by (apply cmd_time_word; assumption).
  assert (cmd_stop t id = cmd_word (t mod 2 ^ 53) CMD_SET_STOP id) as E6
    by (apply cmd_time_word; assumption).
  pose proof (cmd_stop_now_word id Hid) as E7.
  pose proof (cmd_depth_word c id Hid) as E8.
  split; [tauto|].
  rewrite E1, E2, E3, E4, E5, E6, E7, E8.
  unfold CMD_GET_WIDTH, CMD_GET_COUNT, CMD_GET_START, CMD_GET_DATA,
    CMD_SET_START, CMD_SET_STOP, CMD_SET_DEPTH.
  repeat split; apply cmd_fields_word; lia.
Qed.

Lemma command_word_layout_witness :
  0 <= 5 < 256 /\
  cmd_fields (cmd_depth 1024 5) = (6, 5, 1024 mod 2 ^ 21) /\
  cmd_fields (cmd_stop 77 5) = (5, 5, 77 mod 2 ^ 53).
Proof.
  split; [lia|].
  split; apply (command_word_layout 5 77 1024); lia.
Defined.

(** C5 as the specification words the formula, with the payload shifted by
    three bits: a depth of 1 sent to tap 0 is the word 2054, not 14. *)
Lemma command_word_not_shift3 :
  cmd_depth 1 0 = 2054 /\ spec_cmd_word 1 CMD_SET_DEPTH 0 = 14 /\
  cmd_depth 1 0 <> spec_cmd_word 1 CMD_SET_DEPTH 0.
Proof. vm_compute. repeat split; discriminate. Qed.

(** ** The clock *)

Lemma seqZ_cons' (t : Z) (n : nat) :
  seqZ t (Z.of_nat (S n)) = t :: seqZ (t + 1) (Z.of_nat n).
Proof.
  rewrite seqZ_cons by lia. f_equal. f_equal; lia.
Qed.

(** The loop from [cur_time] up to [next_time] writes one pair of
    half-periods per cycle and stops at [next_time]. *)
Lemma clock_loop_spec (n : nat) (cur_time next_time : Z) :
  0 <= cur_time -> next_time < 2 ^ 64 ->
  Z.of_nat n = next_time - cur_time ->
  clock_loop n cur_time next_time
  = (flat_map (half_periods Clk0 Clk1) (seqZ cur_time (Z.of_nat n)), next_time).
Proof.
  revert cur_time. induction n as [|n IH]; intros cur_time H0 H1 Hn.
  - simpl. f_equal. lia.
  - cbn [clock_loop].
    destruct (Z.ltb_spec cur_time next_time); [|lia].
    rewrite u64_small by lia.
    rewrite IH by lia.
    rewrite seqZ_cons'. reflexivity.
Qed.

(** A gap of at most [MAX_DELAY_CYCLES]: every cycle is written. *)
Lemma advance_clock_small (cur_time next_time : Z) :
  0 <= cur_time <= next_time -> next_time < 2 ^ 64 ->
  next_time - cur_time <= MAX_DELAY_CYCLES ->
  advance_clock cur_time next_time
  = (flat_map (half_periods Clk0 Clk1) (seqZ cur_time (next_time - cur_time)),
     next_time).
Proof.
  intros H0 H1 Hgap. unfold advance_clock, skip_gap.
  rewrite u64_small by lia.
  destruct (Z.ltb_spec MAX_DELAY_CYCLES (next_time - cur_time)); [lia|].
  rewrite clock_loop_spec by lia.
  rewrite Z2Nat.id by lia. reflexivity.
Qed.

(** A gap above [MAX_DELAY_CYCLES]: the two [x] half-periods, the jump and
    the last [MAX_DELAY_CYCLES] cycles. *)
Lemma skip_gap_jump (cur_time next_time : Z) :
  0 <= cur_time -> next_time < 2 ^ 64 ->
  MAX_DELAY_CYCLES < next_time - cur_time ->
  skip_gap cur_time next_time
  = ([LTime (u64 (2 * cur_time)); LClock ClkX;
      LTime (u64 (2 * cur_time + 1)); LClock ClkX],
     next_time - MAX_DELAY_CYCLES).
Proof.
  intros H0 H1 Hgap. unfold skip_gap, MAX_DELAY_CYCLES, half_periods in *.
  rewrite (u64_small (next_time - cur_time)) by lia.
  destruct (Z.ltb_spec 10000 (next_time - cur_time)); [|lia].
  rewrite (u64_small (next_time - 10000)) by lia.
  replace (cur_time * 2 + 0) with (2 * cur_time) by lia.
  replace (cur_time * 2 + 1) with (2 * cur_time + 1) by lia.
  reflexivity.
Qed.

Lemma advance_clock_jump (cur_time next_time : Z) :
  0 <= cur_time -> next_time < 2 ^ 64 ->
  MAX_DELAY_CYCLES < next_time - cur_time ->
  advance_clock cur_time next_time
  = ([LTime (u64 (2 * cur_time)); LClock ClkX;
      LTime (u64 (2 * cur_time + 1)); LClock ClkX]
       ++ flat_map (half_periods Clk0 Clk1)
            (seqZ (next_time - MAX_DELAY_CYCLES) MAX_DELAY_CYCLES),
     next_time).
Proof.
  intros H0 H1 Hgap. unfold advance_clock.
  rewrite (skip_gap_jump _ _ H0 H1 Hgap). unfold MAX_DELAY_CYCLES in *.
  rewrite clock_loop_spec by lia.
  replace (next_time - (next_time - 10000)) with 10000 by lia.
  reflexivity.
Qed.

(** C4: a gap above [MAX_DELAY_CYCLES] writes the two [x] half-periods at
    the times [2*cur] and [2*cur+1] (as 64-bit values; these very numbers
    for [cur < 2^63]), moves the cursor to [next - 10000], and then writes
    the 10000 ordinary cycles up to [next]; from 0 to 20000 the [x]
    half-periods are at the times 0 and 1 and the cursor jumps to 10000. *)
Theorem advance_clock_large_gap (cur_time next_time : Z) :
  0 <= cur_time -> next_time < 2 ^ 64 ->
  MAX_DELAY_CYCLES < next_time - cur_time ->
  skip_gap cur_time next_time
  = ([LTime (u64 (2 * cur_time)); LClock ClkX;
      LTime (u64 (2 * cur_time + 1)); LClock ClkX],
     next_time - MAX_DELAY_CYCLES) /\
  advance_clock cur_time next_time
  = ([LTime (u64 (2 * cur_time)); LClock ClkX;
      LTime (u64 (2 * cur_time + 1)); LClock ClkX]
       ++ flat_map (half_periods Clk0 Clk1)
            (seqZ (next_time - MAX_DELAY_CYCLES) MAX_DELAY_CYCLES),
     next_time) /\
  (cur_time < 2 ^ 63 ->
   u64 (2 * cur_time) = 2 * cur_time /\ u64 (2 * cur_time + 1) = 2 * cur_time + 1).
Proof.
  intros H0 H1 Hgap.
  split; [apply skip_gap_jump; assumption|].
  split; [apply advance_clock_jump; assumption|].
  intros. split; apply u64_small; word_lia.
Qed.

Lemma advance_clock_large_gap_witness :
  0 <= 0 /\ 20000 < 2 ^ 64 /\ MAX_DELAY_CYCLES < 20000 - 0 /\
  skip_gap 0 20000 = ([LTime 0; LClock ClkX; LTime 1; LClock ClkX], 10000) /\
  advance_clock 0 20000
  = ([LTime 0; LClock ClkX; LTime 1; LClock ClkX]
       ++ flat_map (half_periods Clk0 Clk1) (seqZ 10000 10000), 20000).
Proof.
  assert (0 <= 0) as H0 by lia.
  assert (20000 < 2 ^ 64) as H1 by lia.
  assert (MAX_DELAY_CYCLES < 20000 - 0) as H2 by (unfold MAX_DELAY_CYCLES; lia).
  split; [exact H0|]. split; [exact H1|]. split; [exact H2|].
  destruct (advance_clock_large_gap 0 20000 H0 H1 H2) as (Hs & Ha & _).
  split; [exact Hs | exact Ha].
Defined.

(** ** Statements and states *)

Lemma bind_inl {D A B} (m : M D A) (k : A → M D B) w a w' :
  m w = (inl a, w') -> bind m k w = k a w'.
Proof. intros H. unfold bind. rewrite H. reflexivity. Qed.

Lemma bind_inr {D A B} (m : M D A) (k : A → M D B) w h w' :
  m w = (inr h, w') -> bind m k w = (inr h, w').
Proof. intros H. unfold bind. rewrite H. reflexivity. Qed.

Lemma after_nil {D} (w : world D) : after w (dev w) [] [] = w.
Proof. destruct w. unfold after. simpl. rewrite !app_nil_r. reflexivity. Qed.

Lemma after_after {D} (w : world D) d1 e1 l1 d2 e2 l2 :
  after (after w d1 e1 l1) d2 e2 l2 = after w d2 (e1 ++ e2) (l1 ++ l2).
Proof. unfold after. simpl. rewrite !app_assoc. reflexivity. Qed.

Lemma upd_dev_after {D} (w : world D) d e d' ev ln :
  upd_dev d e (after w d' ev ln) = after w d (ev ++ [e]) ln.
Proof. unfold upd_dev, after. simpl. rewrite !app_assoc. reflexivity. Qed.

Lemma emit_after {D} (w : world D) d ev ln lines :
  emit lines (after w d ev ln) = (inl tt, after w d ev (ln ++ lines)).
Proof. unfold emit, upd_vcd, after. simpl. rewrite !app_assoc. reflexivity. Qed.

(** A request and its response on a device whose transfers succeed. *)
Lemma request_ok {D} (cb : scope_callback_t D) h cmd (w : world D) d ev ln :
  transfers_ok cb -> g_callback w = Some cb ->
  bind (reg_write h cmd) (fun _ => reg_read h) (after w d ev ln)
  = (inl (fst (request cb h cmd d)),
     after w (snd (request cb h cmd d))
       (ev ++ [IoWrite cmd 0; IoRead (fst (request cb h cmd d)) 0]) ln).
Proof.
  intros [Hw Hr] Hcb. unfold bind, reg_write, reg_read, request.
  change (g_callback (after w d ev ln)) with (g_callback w). rewrite Hcb.
  change (dev (after w d ev ln)) with d.
  specialize (Hw h cmd d).
  destruct (registerWrite cb h cmd d) as [e1 d1]. simpl in Hw. subst e1.
  cbn [Z.eqb snd]. rewrite upd_dev_after.
  change (g_callback (after w d1 (ev ++ [IoWrite cmd 0]) ln))
    with (g_callback w). rewrite Hcb.
  change (dev (after w d1 (ev ++ [IoWrite cmd 0]) ln)) with d1.
  specialize (Hr h d1).
  destruct (registerRead cb h d1) as [[e2 v] d2]. simpl in Hr. subst e2.
  cbn [Z.eqb fst snd]. rewrite upd_dev_after, <- app_assoc. reflexivity.
Qed.

Lemma bind_assoc {D A B C} (m : M D A) (f : A → M D B) (g : B → M D C) w :
  bind (bind m f) g w = bind m (fun a => bind (f a) g) w.
Proof. unfold bind. destruct (m w) as [[a|h] w']; reflexivity. Qed.

Lemma request_then {D B} (cb : scope_callback_t D) h cmd (w : world D) d ev ln
    (k : Z → M D B) :
  transfers_ok cb -> g_callback w = Some cb ->
  bind (reg_write h cmd) (fun _ => bind (reg_read h) k) (after w d ev ln)
  = k (fst (request cb h cmd d))
      (after w (snd (request cb h cmd d))
         (ev ++ [IoWrite cmd 0; IoRead (fst (request cb h cmd d)) 0]) ln).
Proof.
  intros Hok Hcb. rewrite <- bind_assoc. unfold bind at 1.
  rewrite (request_ok cb h cmd w d ev ln Hok Hcb). reflexivity.
Qed.

Lemma fetch_data_then {D B} (cb : scope_callback_t D) h id (w : world D) d ev ln
    (k : Z → M D B) :
  transfers_ok cb -> g_callback w = Some cb ->
  bind (reg_write h (cmd_data id)) (fun _ => bind (reg_read h) k) (after w d ev ln)
  = k (fst (next_data cb h id d))
      (after w (snd (next_data cb h id d))
         (ev ++ [IoWrite (cmd_data id) 0; IoRead (fst (next_data cb h id d)) 0]) ln).
Proof. apply request_then. Qed.

Lemma next_data_after {D} (cb : scope_callback_t D) h id d0 m :
  next_data cb h id (dev_after cb h id d0 m)
  = (data_word cb h id d0 m, dev_after cb h id d0 (S m)).
Proof. reflexivity. Qed.

Lemma data_events_S id wordf m :
  data_events id wordf (S m)
  = data_events id wordf m ++ [IoWrite (cmd_data id) 0; IoRead (wordf m) 0].
Proof.
  unfold data_events. rewrite seq_S, flat_map_app. simpl.
  reflexivity.
Qed.

(** ** Sub-signals and their place in the sample *)

Lemma sum_widths_app l1 l2 :
  sum_widths (l1 ++ l2) = sum_widths l1 + sum_widths l2.
Proof. induction l1 as [|a l1 IH]; simpl; [reflexivity|]. rewrite IH. lia. Qed.

Lemma sum_widths_rev l : sum_widths (rev l) = sum_widths l.
Proof.
  induction l as [|a l IH]; simpl; [reflexivity|].
  rewrite sum_widths_app, IH. simpl. lia.
Qed.

Lemma sum_widths_nonneg l :
  Forall (fun s => 0 < sig_width s) l -> 0 <= sum_widths l.
Proof. induction 1; simpl; lia. Qed.

Lemma sum_widths_take_S (rs : list tap_signal_t) j s :
  rs !! j = Some s ->
  sum_widths (take (S j) rs) = sum_widths (take j rs) + sig_width s.
Proof.
  intros H. rewrite (take_S_r _ _ _ H), sum_widths_app. simpl. lia.
Qed.

Lemma sum_widths_take_le (rs : list tap_signal_t) j :
  Forall (fun s => 0 < sig_width s) rs ->
  sum_widths (take j rs) <= sum_widths rs.
Proof.
  intros Hpos. rewrite <- (take_drop j rs) at 2. rewrite sum_widths_app.
  assert (0 <= sum_widths (drop j rs)); [|lia].
  apply sum_widths_nonneg. apply Forall_drop. assumption.
Qed.

(** A sub-signal that does not end the sample is followed by another. *)
Lemma next_signal_exists (rs : list tap_signal_t) j s :
  Forall (fun s => 0 < sig_width s) rs ->
  rs !! j = Some s ->
  sum_widths (take j rs) + sig_width s < sum_widths rs ->
  is_Some (rs !! S j).
Proof.
  intros Hpos Hj Hlt. apply lookup_lt_is_Some.
  destruct (decide (S j < length rs)%nat) as [|Hge]; [assumption|].
  rewrite <- (sum_widths_take_S _ _ _ Hj) in Hlt.
  rewrite take_ge in Hlt by lia. lia.
Qed.

(** The sub-signal that ends the sample is the last one. *)
Lemma last_signal_take (rs : list tap_signal_t) j s :
  Forall (fun s => 0 < sig_width s) rs ->
  rs !! j = Some s ->
  sum_widths (take j rs) + sig_width s = sum_widths rs ->
  take (S j) rs = rs.
Proof.
  intros Hpos Hj Heq. apply take_ge.
  destruct (decide (length rs <= S j)%nat) as [|Hlt]; [assumption|].
  destruct (lookup_lt_is_Some_2 rs (S j) ltac:(lia)) as [s' Hs'].
  pose proof (sum_widths_take_S _ _ _ Hs') as H2.
  rewrite (sum_widths_take_S _ _ _ Hj) in H2.
  pose proof (sum_widths_take_le rs (S (S j)) Hpos).
  assert (0 < sig_width s').
  { eapply (proj1 (Forall_lookup _ _) Hpos); eassumption. }
  lia.
Qed.

Lemma elem_le_sum_widths (l : list tap_signal_t) s :
  Forall (fun s => 0 < sig_width s) l -> s ∈ l -> sig_width s <= sum_widths l.
Proof.
  induction 1 as [|a l Ha Hl IH]; intros Hin.
  - inversion Hin.
  - apply elem_of_cons in Hin as [->|Hin]; simpl.
    + pose proof (sum_widths_nonneg l Hl). lia.
    + specialize (IH Hin). lia.
Qed.

(** With two sub-signals or more, each is narrower than the sample. *)
Lemma signal_narrower (l : list tap_signal_t) s :
  Forall (fun s => 0 < sig_width s) l -> (2 <= length l)%nat -> s ∈ l ->
  sig_width s < sum_widths l.
Proof.
  intros Hpos Hlen Hin.
  apply list_elem_of_lookup in Hin as [j Hj].
  pose proof (take_drop_middle l j s Hj) as Hsplit.
  rewrite <- Hsplit, sum_widths_app. simpl.
  assert (Forall (fun s => 0 < sig_width s) (take j l)) as H1 by (apply Forall_take; assumption).
  assert (Forall (fun s => 0 < sig_width s) (drop (S j) l)) as H2 by (apply Forall_drop; assumption).
  pose proof (sum_widths_nonneg _ H1). pose proof (sum_widths_nonneg _ H2).
  assert (length (take j l) + S (length (drop (S j) l)) = length l)%nat as Hl.
  { rewrite <- Hsplit at 3. rewrite length_app. simpl. reflexivity. }
  destruct (take j l) as [|a t] eqn:Et.
  - destruct (drop (S j) l) as [|b r] eqn:Ed; [simpl in Hl; lia|].
    inversion H2; subst. simpl in *. pose proof (sum_widths_nonneg r ltac:(assumption)). lia.
  - inversion H1; subst. simpl in *. pose proof (sum_widths_nonneg t ltac:(assumption)). lia.
Qed.

Lemma sample_lines_app wordf off l1 l2 :
  sample_lines wordf off (l1 ++ l2)
  = sample_lines wordf off l1 ++ sample_lines wordf (off + sum_widths l1) l2.
Proof.
  revert off. induction l1 as [|a l1 IH]; intros off; simpl.
  - f_equal. lia.
  - rewrite IH. do 3 f_equal. lia.
Qed.

Lemma sample_lines_take_S wordf (rs : list tap_signal_t) j s :
  rs !! j = Some s ->
  sample_lines wordf 0 (take (S j) rs)
  = sample_lines wordf 0 (take j rs)
      ++ [LValue (signal_text wordf (sum_widths (take j rs)) (sig_width s)) (sig_id s)].
Proof.
  intros H. rewrite (take_S_r _ _ _ H), sample_lines_app. reflexivity.
Qed.

(** ** The text buffer *)

Lemma bit_char_nonzero word off : bit_char word off <> Ascii.zero.
Proof. unfold bit_char. destruct (_ =? 0); discriminate. Qed.

Lemma store_inside (buf : list ascii) i c :
  0 <= i < Z.of_nat (length buf) ->
  store buf i c = Some (<[Z.to_nat i := c]> buf).
Proof.
  intros H. unfold store.
  destruct (Z.leb_spec 0 i); [|lia].
  destruct (Z.ltb_spec i (Z.of_nat (length buf))); [|lia]. reflexivity.
Qed.

Lemma store_outside (buf : list ascii) i c :
  Z.of_nat (length buf) <= i -> store buf i c = None.
Proof.
  intros H. unfold store.
  destruct (Z.ltb_spec i (Z.of_nat (length buf))); [lia|].
  rewrite andb_false_r. reflexivity.
Qed.

Lemma c_str_prefix (l rest : list ascii) :
  Forall (fun c => c <> Ascii.zero) l ->
  c_str (l ++ Ascii.zero :: rest) = Some (string_of_list_ascii l).
Proof.
  induction 1 as [|c l Hc Hl IH]; simpl.
  - reflexivity.
  - destruct (Ascii.eqb_spec c Ascii.zero) as [|_]; [contradiction|].
    rewrite IH. reflexivity.
Qed.

(** A sub-signal whose bits are all in the buffer reads as its text. *)
Lemma completed_text wordf (buf : list ascii) off w :
  0 < w -> w < Z.of_nat (length buf) ->
  (∀ i, 0 <= i < w →
     buf !! Z.to_nat (w - 1 - i) = Some (sample_bit wordf (off + i))) ->
  c_str (<[Z.to_nat w := Ascii.zero]> buf) = Some (signal_text wordf off w).
Proof.
  intros Hw Hlen Hbuf.
  rewrite insert_take_drop by lia.
  assert (take (Z.to_nat w) buf
          = map (fun i => sample_bit wordf (off + w - 1 - i)) (seqZ 0 w)) as ->.
  { apply list_eq. intros idx.
    destruct (decide (idx < Z.to_nat w)%nat) as [Hlt|Hge].
    - rewrite lookup_take_lt by assumption.
      rewrite list_lookup_fmap, lookup_seqZ_lt by lia. simpl.
      specialize (Hbuf (w - 1 - Z.of_nat idx) ltac:(lia)).
      replace (Z.to_nat (w - 1 - (w - 1 - Z.of_nat idx))) with idx in Hbuf by lia.
      rewrite Hbuf. do 2 f_equal. lia.
    - rewrite lookup_take_ge by lia.
      rewrite list_lookup_fmap, lookup_seqZ_ge by lia. reflexivity. }
  apply c_str_prefix. apply Forall_forall. intros c Hc.
  apply list_elem_of_In, in_map_iff in Hc as (i & <- & _). apply bit_char_nonzero.
Qed.

(** ** One sample *)

Section DecodeSample.
Context {D : Type} (cb : scope_callback_t D) (hdevice : vx_device_h).
Context (tap : tap_t) (w0 : world D) (d0 : D).
Hypothesis Hok : transfers_ok cb.
Hypothesis Hcb : g_callback w0 = Some cb.
Hypothesis Hpacked : packed tap.

Let rs := rev (signals tap).
Let W := tap_width tap.
Let wordf := data_word cb hdevice (tap_id tap) d0.
Let devf := dev_after cb hdevice (tap_id tap) d0.
Let events := data_events (tap_id tap) wordf.

Lemma rs_pos : Forall (fun s => 0 < sig_width s) rs.
Proof.
  apply Forall_forall. intros s Hs.
  apply list_elem_of_In, in_rev, list_elem_of_In in Hs.
  revert s Hs. apply Forall_forall. apply (packed_pos _ Hpacked).
Qed.

Lemma rs_sum : sum_widths rs = W.
Proof. unfold rs. rewrite sum_widths_rev. apply (packed_sum _ Hpacked). Qed.

Lemma rs_positive j s : rs !! j = Some s -> 0 < sig_width s.
Proof.
  intros Hj. eapply (proj1 (Forall_lookup _ _) rs_pos); eassumption.
Qed.

Lemma W_u32 : W < 2 ^ 32.
Proof. apply (packed_u32 _ Hpacked). Qed.

(** Facts every state between two bits gives. *)
Lemma decoding_bounds k j st :
  decoding wordf rs W k j st ->
  ∃ s, rs !! j = Some s ∧ signal_width st = sig_width s ∧
       0 < signal_width st <= W ∧ 0 <= k ∧
       k + (signal_width st - signal_offset st) <= W.
Proof.
  intros H. pose proof (dec_width _ _ _ _ _ _ H) as Hw.
  destruct (rs !! j) as [s|] eqn:Hj; [|discriminate].
  simpl in Hw. injection Hw as Hw.
  exists s. split; [reflexivity|]. split; [congruence|].
  pose proof (rs_positive j s Hj) as Hn. rewrite Hw in Hn.
  pose proof (dec_start _ _ _ _ _ _ H) as Hk.
  pose proof (dec_offset _ _ _ _ _ _ H) as Ho.
  pose proof (sum_widths_nonneg (take j rs) (Forall_take _ _ _ rs_pos)).
  pose proof (sum_widths_take_S rs j s Hj) as HS.
  pose proof (sum_widths_take_le rs (S j) rs_pos) as Hle.
  rewrite rs_sum in Hle. repeat split; lia.
Qed.

(** The buffer after the bit [k] is stored. *)
Lemma buffer_step k j st :
  decoding wordf rs W k j st ->
  let buf := <[Z.to_nat (signal_width st - signal_offset st - 1)
               := sample_bit wordf k]> (signal_data st) in
  Z.of_nat (length buf) = W ∧
  ∀ i, 0 <= i < signal_offset st + 1 →
    buf !! Z.to_nat (signal_width st - 1 - i)
    = Some (sample_bit wordf (sum_widths (take j rs) + i)).
Proof.
  intros H buf.
  destruct (decoding_bounds k j st H) as (s & Hj & Hw & Hn & Hk & Hle).
  pose proof (dec_offset _ _ _ _ _ _ H) as Ho.
  pose proof (dec_length _ _ _ _ _ _ H) as Hlen.
  split.
  - unfold buf. rewrite length_insert. exact Hlen.
  - intros i Hi. unfold buf.
    destruct (Z.eq_dec i (signal_offset st)) as [->|Hne].
    + replace (signal_width st - 1 - signal_offset st)
        with (signal_width st - signal_offset st - 1) by lia.
      rewrite list_lookup_insert_eq by lia.
      rewrite (dec_start _ _ _ _ _ _ H). reflexivity.
    + rewrite list_lookup_insert_ne by lia.
      apply (dec_buffer _ _ _ _ _ _ H). lia.
Qed.

Lemma loaded_bit k st :
  word st = wordf (Z.to_nat (k / 64)) ->
  bit_char (word st) (k mod 64) = sample_bit wordf k.
Proof. intros ->. reflexivity. Qed.

(** A bit inside a sub-signal. *)
Lemma decode_bit_inside k j st (w : world D) :
  decoding wordf rs W k j st ->
  word st = wordf (Z.to_nat (k / 64)) ->
  signal_offset st + 1 < signal_width st ->
  ∃ st', decode_bit hdevice tap st w = (inl (tap, st', false), w) ∧
         decoding wordf rs W (k + 1) j st' ∧ word st' = word st.
Proof.
  intros H Hword Hin.
  destruct (decoding_bounds k j st H) as (s & Hj & Hw & Hn & Hk & Hle).
  destruct (buffer_step k j st H) as [Hlen Hbuf].
  pose proof (dec_offset _ _ _ _ _ _ H) as Ho.
  pose proof (dec_sample _ _ _ _ _ _ H) as Hs.
  pose proof W_u32.
  eexists. split.
  - unfold decode_bit.
    rewrite (u32_small (signal_width st - signal_offset st - 1)) by lia.
    rewrite store_inside by (rewrite (dec_length _ _ _ _ _ _ H); lia).
    cbn [lift_ub]. unfold bind at 1. cbn [ret].
    rewrite (u32_small (signal_offset st + 1)) by lia.
    destruct (Z.eqb_spec (signal_offset st + 1) (signal_width st)); [lia|].
    reflexivity.
  - cbn [word]. split; [|reflexivity].
    rewrite Hs, (loaded_bit k st Hword).
    rewrite (u32_small (k + 1)) by lia.
    constructor; cbn [sample_offset signal_it signal_width signal_offset signal_data].
    + reflexivity.
    + apply (dec_it _ _ _ _ _ _ H).
    + apply (dec_width _ _ _ _ _ _ H).
    + lia.
    + pose proof (dec_start _ _ _ _ _ _ H). lia.
    + exact Hlen.
    + exact Hbuf.
Qed.

Lemma decoding_load k j st w :
  decoding wordf rs W k j st ->
  decoding wordf rs W k j
    {| signal_offset := signal_offset st; sample_offset := sample_offset st;
       word := w; signal_data := signal_data st;
       signal_it := signal_it st; signal_width := signal_width st |}.
Proof. intros []. constructor; assumption. Qed.

(** *** A sub-signal as wide as the tap

    The zero that ends the text is stored at the index [signal_width],
    one past the end of a buffer of [tap->width] characters. *)

Lemma decode_bit_overflow k j st (w : world D) :
  decoding wordf rs W k j st ->
  signal_offset st + 1 = signal_width st ->
  signal_width st = W ->
  decode_bit hdevice tap st w = (inr Undefined, w).
Proof.
  intros H Hdone Hwide.
  destruct (decoding_bounds k j st H) as (s & Hj & Hw & Hn & Hk & Hle).
  pose proof (dec_offset _ _ _ _ _ _ H) as Ho.
  pose proof (dec_length _ _ _ _ _ _ H) as Hlen.
  pose proof W_u32.
  unfold decode_bit.
  rewrite (u32_small (signal_width st - signal_offset st - 1)) by lia.
  rewrite store_inside by lia.
  cbn [lift_ub]. unfold bind at 1. cbn [ret].
  rewrite (u32_small (signal_offset st + 1)) by lia.
  destruct (Z.eqb_spec (signal_offset st + 1) (signal_width st)); [|lia].
  rewrite store_outside by (rewrite length_insert; lia).
  reflexivity.
Qed.

Lemma decode_word_overflow fuel : ∀ k j st (w : world D),
  decoding wordf rs W k j st ->
  word st = wordf (Z.to_nat (k / 64)) ->
  64 - k mod 64 <= Z.of_nat fuel ->
  signal_width st = W ->
  (decode_word fuel hdevice tap st w = (inr Undefined, w) ∧
   S (Z.to_nat (k / 64)) = sample_words tap)
  ∨ (∃ st', decode_word fuel hdevice tap st w = (inl (tap, st'), w) ∧
            decoding wordf rs W (64 * (k / 64 + 1)) j st' ∧
            signal_width st' = W ∧ 64 * (k / 64 + 1) < W).
Proof.
  induction fuel as [|fuel IH]; intros k j st w H Hword Hfuel Hwide.
  { pose proof (Z.mod_pos_bound k 64 ltac:(lia)). lia. }
  destruct (decoding_bounds k j st H) as (s & Hj & Hw & Hn & Hk & Hle).
  pose proof (dec_offset _ _ _ _ _ _ H) as Ho.
  pose proof (dec_start _ _ _ _ _ _ H) as Hst.
  pose proof (Z.mod_pos_bound k 64 ltac:(lia)) as Hmod.
  pose proof (sum_widths_nonneg (take j rs) (Forall_take _ _ _ rs_pos)) as Hoff.
  cbn [decode_word].
  destruct (Z_lt_le_dec (signal_offset st + 1) (signal_width st)) as [Hin|Hout].
  - destruct (decode_bit_inside k j st w H Hword Hin) as (st' & E & Hd & Hwd).
    rewrite (bind_inl _ _ _ _ _ E).
    rewrite (dec_sample _ _ _ _ _ _ Hd).
    assert (signal_width st' = W) as Hwide'.
    { pose proof (dec_width _ _ _ _ _ _ Hd) as Hw'. rewrite Hj in Hw'.
      simpl in Hw'. injection Hw' as Hw'. lia. }
    destruct (Z.eqb_spec ((k + 1) mod 64) 0) as [Hz|Hnz].
    + right. exists st'.
      assert (k + 1 = 64 * (k / 64 + 1)) as <-
        by (Z.div_mod_to_equations; lia).
      split; [reflexivity|]. split; [exact Hd|]. split; [exact Hwide'|]. lia.
    + assert ((k + 1) / 64 = k / 64) as Hdiv
        by (Z.div_mod_to_equations; lia).
      assert ((k + 1) mod 64 = k mod 64 + 1) as Hmod1
        by (Z.div_mod_to_equations; lia).
      destruct (IH (k + 1) j st' w Hd) as [Hfin | Hbnd].
      * rewrite Hwd, Hword, Hdiv. reflexivity.
      * lia.
      * exact Hwide'.
      * left. rewrite Hdiv in Hfin. exact Hfin.
      * right. rewrite Hdiv in Hbnd. exact Hbnd.
  - left.
    rewrite (bind_inr _ _ _ _ _
               (decode_bit_overflow k j st w H ltac:(lia) Hwide)).
    split; [reflexivity|].
    unfold sample_words. fold W.
    replace (k / 64) with ((W + 63) / 64 - 1)
      by (Z.div_mod_to_equations; lia).
    assert (0 < (W + 63) / 64) by (Z.div_mod_to_equations; lia). lia.
Qed.

Lemma decode_sample_overflow fuel : ∀ k j st m lines,
  decoding wordf rs W k j st ->
  k = 64 * Z.of_nat m ->
  (sample_words tap - m <= fuel)%nat ->
  signal_width st = W ->
  decode_sample fuel hdevice tap st (after w0 (devf m) (events m) lines)
  = (inr Undefined,
     after w0 (devf (sample_words tap)) (events (sample_words tap)) lines).
Proof.
  induction fuel as [|fuel IH]; intros k j st m lines H Hk Hfuel Hwide;
    destruct (decoding_bounds k j st H) as (s & Hj & Hw & Hn & Hk0 & Hle);
    pose proof (dec_offset _ _ _ _ _ _ H) as Ho;
    assert (Z.of_nat m < Z.of_nat (sample_words tap)) as Hm
      by (unfold sample_words; fold W; rewrite Z2Nat.id;
          Z.div_mod_to_equations; lia).
  { lia. }
  cbn [decode_sample]. unfold events.
  rewrite (fetch_data_then cb hdevice (tap_id tap) w0 _ _ _ _ Hok Hcb).
  unfold devf. rewrite next_data_after. cbn [fst snd].
  rewrite <- data_events_S. fold wordf devf events.
  assert (k / 64 = Z.of_nat m) as Hdiv by (Z.div_mod_to_equations; lia).
  assert (k mod 64 = 0) as Hmod by (Z.div_mod_to_equations; lia).
  destruct (decode_word_overflow 64 k j _
              (after w0 (devf (S m)) (events (S m)) lines)
              (decoding_load k j st (wordf m) H))
    as [[E Hlast] | (st' & E & Hd & Hwide' & Hlt)].
  - cbn [word]. rewrite Hdiv, Nat2Z.id. reflexivity.
  - rewrite Hmod. lia.
  - exact Hwide.
  - rewrite (bind_inr _ _ _ _ _ E).
    rewrite Hdiv, Nat2Z.id in Hlast. rewrite Hlast. reflexivity.
  - rewrite (bind_inl _ _ _ _ _ E).
    rewrite (dec_sample _ _ _ _ _ _ Hd). fold W.
    destruct (Z.eqb_spec (64 * (k / 64 + 1)) W) as [|_]; [lia|].
    apply (IH (64 * (k / 64 + 1)) j st' (S m) lines Hd); [lia|lia|exact Hwide'].
Qed.
(** *** Two sub-signals or more *)

Hypothesis Htwo : (2 <= length (signals tap))%nat.

Lemma rs_narrow j s : rs !! j = Some s -> sig_width s < W.
Proof.
  intros Hj.
  - rewrite <- rs_sum. apply signal_narrower.
    + apply rs_pos.
    + unfold rs. rewrite length_rev. exact Htwo.
    + eapply list_elem_of_lookup_2; eassumption.
Qed.

(** The bit that completes a sub-signal: its line is written, and what
    follows depends on whether the sample is complete. *)
Lemma decode_bit_completes k j st d ev :
  decoding wordf rs W k j st ->
  word st = wordf (Z.to_nat (k / 64)) ->
  signal_offset st + 1 = signal_width st ->
  let buf := <[Z.to_nat (signal_width st) := Ascii.zero]>
               (<[Z.to_nat (signal_width st - signal_offset st - 1)
                  := sample_bit wordf k]> (signal_data st)) in
  let st1 := {| signal_offset := signal_width st; sample_offset := k + 1;
                word := word st; signal_data := buf;
                signal_it := j; signal_width := signal_width st |} in
  decode_bit hdevice tap st
    (after w0 d ev (sample_lines wordf 0 (take j rs)))
  = (if k + 1 =? W then
       let* (tap', st'') := end_of_sample hdevice tap st1 in
       ret (tap', st'', true)
     else
       let* next := deref tap (S j) in
       ret (tap,
            {| signal_offset := 0; sample_offset := k + 1;
               word := word st; signal_data := buf;
               signal_it := S j; signal_width := sig_width next |},
            false))
      (after w0 d ev (sample_lines wordf 0 (take (S j) rs))).
Proof.
  intros H Hword Hdone buf st1.
  destruct (decoding_bounds k j st H) as (s & Hj & Hw & Hn & Hk & Hle).
  pose proof (rs_narrow j s Hj) as Hnarrow. rewrite <- Hw in Hnarrow.
  destruct (buffer_step k j st H) as [Hlen Hbuf].
  pose proof (dec_offset _ _ _ _ _ _ H) as Ho.
  pose proof (dec_sample _ _ _ _ _ _ H) as Hs.
  pose proof (dec_it _ _ _ _ _ _ H) as Hit.
  pose proof W_u32.
  unfold decode_bit.
  rewrite (u32_small (signal_width st - signal_offset st - 1)) by lia.
  rewrite store_inside by (rewrite (dec_length _ _ _ _ _ _ H); lia).
  cbn [lift_ub]. unfold bind at 1. cbn [ret].
  rewrite (u32_small (signal_offset st + 1)) by lia.
  destruct (Z.eqb_spec (signal_offset st + 1) (signal_width st)); [|lia].
  rewrite Hs, (loaded_bit k st Hword).
  rewrite store_inside by lia.
  cbn [lift_ub]. unfold bind at 1. cbn [ret].
  rewrite (completed_text wordf _ (sum_widths (take j rs)) (signal_width st))
    by (try lia; intros i Hi; apply Hbuf; lia).
  cbn [lift_ub]. unfold bind at 1. cbn [ret].
  unfold deref at 1. fold rs. rewrite Hit, Hj.
  cbn [lift_ub]. unfold bind at 1. cbn [ret].
  unfold bind at 1. rewrite emit_after.
  rewrite (sample_lines_take_S wordf rs j s Hj), <- Hw.
  rewrite (u32_small (k + 1)) by lia.
  rewrite Hdone. fold W. reflexivity.
Qed.

Lemma end_of_sample_spec m st lines :
  ∃ st', end_of_sample hdevice tap st (after w0 (devf m) (events m) lines)
         = (inl (next_sample tap (wordf m), st'),
            after w0 (devf (if last_sample tap then m else S m))
              (events (if last_sample tap then m else S m)) lines) ∧
         sample_offset st' = sample_offset st.
Proof.
  unfold end_of_sample, next_sample, last_sample.
  destruct (u32 (cur_sample tap + 1) =? samples tap).
  - eexists. split; reflexivity.
  - eexists. split.
    + unfold events.
      rewrite (fetch_data_then cb hdevice (tap_id tap) w0 _ _ _ _ Hok Hcb).
      unfold devf. rewrite next_data_after. cbn [fst snd ret].
      rewrite data_events_S. reflexivity.
    + reflexivity.
Qed.

(** One round of the inner loop: the sample goes on, or it is complete. *)
Lemma decode_bit_step k j st m :
  decoding wordf rs W k j st ->
  word st = wordf (Z.to_nat (k / 64)) ->
  (∃ st' j',
      decode_bit hdevice tap st
        (after w0 (devf m) (events m) (sample_lines wordf 0 (take j rs)))
      = (inl (tap, st', false),
         after w0 (devf m) (events m) (sample_lines wordf 0 (take j' rs))) ∧
      decoding wordf rs W (k + 1) j' st' ∧ word st' = word st ∧ k + 1 < W)
  ∨ (∃ st',
      decode_bit hdevice tap st
        (after w0 (devf m) (events m) (sample_lines wordf 0 (take j rs)))
      = (inl (next_sample tap (wordf m), st', true),
         after w0 (devf (if last_sample tap then m else S m))
           (events (if last_sample tap then m else S m))
           (sample_lines wordf 0 rs)) ∧
      sample_offset st' = W ∧ k + 1 = W).
Proof.
  intros H Hword.
  destruct (decoding_bounds k j st H) as (s & Hj & Hw & Hn & Hk & Hle).
  pose proof (dec_offset _ _ _ _ _ _ H) as Ho.
  pose proof (dec_start _ _ _ _ _ _ H) as Hst.
  destruct (Z_lt_le_dec (signal_offset st + 1) (signal_width st)) as [Hin|Hout].
  - left.
    destruct (decode_bit_inside k j st
                (after w0 (devf m) (events m) (sample_lines wordf 0 (take j rs)))
                H Hword Hin) as (st' & E & Hd & Hwd).
    exists st', j. split; [exact E|]. split; [exact Hd|]. split; [exact Hwd|]. lia.
  - assert (signal_offset st + 1 = signal_width st) as Hdone by lia.
    pose proof (decode_bit_completes k j st (devf m) (events m) H Hword Hdone) as E.
    cbv zeta in E. rewrite E. clear E.
    destruct (Z.eqb_spec (k + 1) W) as [Hend|Hmore].
    + right.
      edestruct (end_of_sample_spec m) as (st' & E & Hso).
      exists st'. split; [|split; [|exact Hend]].
      * unfold bind at 1.
        rewrite (last_signal_take rs j s rs_pos Hj) by (rewrite rs_sum; lia).
        rewrite E. reflexivity.
      * rewrite Hso. cbn [sample_offset]. exact Hend.
    + left.
      destruct (next_signal_exists rs j s rs_pos Hj) as [next Hnext];
        [rewrite rs_sum; lia|].
      eexists. exists (S j). split; [|split; [|split]].
      * unfold deref. fold rs. rewrite Hnext. reflexivity.
      * pose proof (rs_positive _ _ Hnext).
        pose proof (sum_widths_take_S rs j s Hj).
        constructor;
          cbn [sample_offset signal_it signal_width signal_offset signal_data].
        -- reflexivity.
        -- reflexivity.
        -- rewrite Hnext. reflexivity.
        -- lia.
        -- lia.
        -- rewrite length_insert. apply (buffer_step k j st H).
        -- intros i Hi. lia.
      * reflexivity.
      * lia.
Qed.

(** The inner loop, entered with word [m - 1] loaded: it ends the sample,
    or it stops at the next multiple of 64 with the sample unfinished. *)
Lemma decode_word_spec fuel : ∀ k j st m,
  decoding wordf rs W k j st ->
  word st = wordf (Z.to_nat (k / 64)) ->
  m = S (Z.to_nat (k / 64)) ->
  64 - k mod 64 <= Z.of_nat fuel ->
  (∃ st',
      decode_word fuel hdevice tap st
        (after w0 (devf m) (events m) (sample_lines wordf 0 (take j rs)))
      = (inl (next_sample tap (wordf m), st'),
         after w0 (devf (if last_sample tap then m else S m))
           (events (if last_sample tap then m else S m))
           (sample_lines wordf 0 rs)) ∧
      sample_offset st' = W ∧ m = sample_words tap)
  ∨ (∃ st' j',
      decode_word fuel hdevice tap st
        (after w0 (devf m) (events m) (sample_lines wordf 0 (take j rs)))
      = (inl (tap, st'),
         after w0 (devf m) (events m) (sample_lines wordf 0 (take j' rs))) ∧
      decoding wordf rs W (64 * (k / 64 + 1)) j' st' ∧
      64 * (k / 64 + 1) < W).
Proof.
  induction fuel as [|fuel IH]; intros k j st m H Hword Hm Hfuel.
  { pose proof (Z.mod_pos_bound k 64 ltac:(lia)). lia. }
  destruct (decoding_bounds k j st H) as (s & Hj & Hw & Hn & Hk & Hle).
  pose proof (Z.mod_pos_bound k 64 ltac:(lia)) as Hmod.
  cbn [decode_word].
  destruct (decode_bit_step k j st m H Hword)
    as [(st' & j' & E & Hd & Hwd & Hlt) | (st' & E & Hso & Hend)].
  - rewrite (bind_inl _ _ _ _ _ E).
    rewrite (dec_sample _ _ _ _ _ _ Hd).
    destruct (Z.eqb_spec ((k + 1) mod 64) 0) as [Hz|Hnz].
    + right. exists st', j'.
      assert (k + 1 = 64 * (k / 64 + 1)) as <-
        by (Z.div_mod_to_equations; lia).
      split; [reflexivity|]. split; [exact Hd | exact Hlt].
    + assert ((k + 1) / 64 = k / 64) as Hdiv
        by (Z.div_mod_to_equations; lia).
      assert ((k + 1) mod 64 = k mod 64 + 1) as Hmod1
        by (Z.div_mod_to_equations; lia).
      destruct (IH (k + 1) j' st' m Hd) as [Hfin | Hbnd].
      * rewrite Hwd, Hword, Hdiv. reflexivity.
      * rewrite Hdiv. exact Hm.
      * lia.
      * left. exact Hfin.
      * right. rewrite Hdiv in Hbnd. exact Hbnd.
  - left. exists st'. rewrite (bind_inl _ _ _ _ _ E).
    split; [reflexivity|]. split; [exact Hso|].
    subst m. unfold sample_words. fold W.
    replace (k / 64) with ((W + 63) / 64 - 1)
      by (Z.div_mod_to_equations; lia).
    assert (0 < (W + 63) / 64) by (Z.div_mod_to_equations; lia). lia.
Qed.

(** The outer loop, entered at a multiple of 64 with [m] words read. *)
Lemma decode_sample_spec fuel : ∀ k j st m,
  decoding wordf rs W k j st ->
  k = 64 * Z.of_nat m ->
  (sample_words tap - m <= fuel)%nat ->
  decode_sample fuel hdevice tap st
    (after w0 (devf m) (events m) (sample_lines wordf 0 (take j rs)))
  = (inl (next_sample tap (wordf (sample_words tap))),
     after w0 (devf (requests tap)) (events (requests tap))
       (sample_lines wordf 0 rs)).
Proof.
  induction fuel as [|fuel IH]; intros k j st m H Hk Hfuel;
    destruct (decoding_bounds k j st H) as (s & Hj & Hw & Hn & Hk0 & Hle);
    pose proof (dec_offset _ _ _ _ _ _ H) as Ho;
    assert (Z.of_nat m < Z.of_nat (sample_words tap)) as Hm
      by (unfold sample_words; fold W; rewrite Z2Nat.id;
          Z.div_mod_to_equations; lia).
  { lia. }
  cbn [decode_sample]. unfold events.
  rewrite (fetch_data_then cb hdevice (tap_id tap) w0 _ _ _ _ Hok Hcb).
  unfold devf. rewrite next_data_after. cbn [fst snd].
  rewrite <- data_events_S. fold wordf devf events.
  assert (k / 64 = Z.of_nat m) as Hdiv by (Z.div_mod_to_equations; lia).
  assert (k mod 64 = 0) as Hmod by (Z.div_mod_to_equations; lia).
  destruct (decode_word_spec 64 k j _ (S m) (decoding_load k j st (wordf m) H))
    as [(st' & E & Hso & Hlast) | (st' & j' & E & Hd & Hlt)].
  - cbn [word]. rewrite Hdiv, Nat2Z.id. reflexivity.
  - rewrite Hdiv, Nat2Z.id. reflexivity.
  - rewrite Hmod. lia.
  - rewrite (bind_inl _ _ _ _ _ E). rewrite Hso.
    unfold next_sample at 1. cbn [tap_width set_progress]. fold W.
    rewrite Z.eqb_refl. unfold requests. rewrite <- Hlast. reflexivity.
  - rewrite (bind_inl _ _ _ _ _ E).
    rewrite (dec_sample _ _ _ _ _ _ Hd). fold W.
    destruct (Z.eqb_spec (64 * (k / 64 + 1)) W) as [|_]; [lia|].
    apply (IH (64 * (k / 64 + 1)) j' st' (S m) Hd); lia.
Qed.

End DecodeSample.

Lemma initial_decoding wordf (tap : tap_t) first :
  packed tap ->
  rev (signals tap) !! 0%nat = Some first ->
  decoding wordf (rev (signals tap)) (tap_width tap) 0 0
    {| signal_offset := 0; sample_offset := 0; word := 0;
       signal_data := new_buffer (tap_width tap);
       signal_it := 0; signal_width := sig_width first |}.
Proof.
  intros Hp Hfirst.
  assert (0 < sig_width first) as Hpos.
  { pose proof (packed_pos _ Hp) as HF.
    apply (proj1 (Forall_forall _ _) HF).
    apply list_elem_of_In, in_rev, list_elem_of_In.
    eapply list_elem_of_lookup_2; eassumption. }
  constructor; cbn [sample_offset signal_it signal_width signal_offset signal_data].
  - reflexivity.
  - reflexivity.
  - rewrite Hfirst. reflexivity.
  - lia.
  - reflexivity.
  - unfold new_buffer. rewrite length_replicate, Z2Nat.id; [reflexivity|].
    rewrite <- (packed_sum _ Hp). apply sum_widths_nonneg, (packed_pos _ Hp).
  - intros i Hi. lia.
Qed.

(** C1, with the order of the lines as the code writes them.  On a device
    whose transfers succeed, [dump_tap] asks for the words of one sample
    with [GET_DATA]; bit [k] of the sample is bit [k mod 64] of word
    [k / 64]; the sub-signals are served from the last one of the tap's list
    to the first, each taking the next bits of the sample, its first bit
    being the last character of its text; each is written as soon as it is
    complete, as the line [b<bits> <signal_id>]. *)
Theorem dump_tap_decodes {D} (cb : scope_callback_t D) (hdevice : vx_device_h)
    (tap : tap_t) (w : world D) (fuel : nat) :
  transfers_ok cb ->
  g_callback w = Some cb ->
  well_formed tap ->
  (sample_words tap <= fuel)%nat ->
  dump_tap fuel hdevice tap w
  = (inl (next_sample tap
            (data_word cb hdevice (tap_id tap) (dev w) (sample_words tap))),
     after w
       (dev_after cb hdevice (tap_id tap) (dev w) (requests tap))
       (data_events (tap_id tap)
          (data_word cb hdevice (tap_id tap) (dev w)) (requests tap))
       (sample_lines (data_word cb hdevice (tap_id tap) (dev w)) 0
          (rev (signals tap)))).
Proof.
  intros Hok Hcb [Hp Htwo] Hfuel.
  destruct (rev (signals tap) !! 0%nat) as [first|] eqn:Hfirst.
  2:{ apply lookup_ge_None in Hfirst. rewrite length_rev in Hfirst. lia. }
  unfold dump_tap, deref. rewrite Hfirst. cbn [lift_ub].
  unfold bind at 1. cbn [ret].
  rewrite <- (after_nil w) at 1.
  apply (decode_sample_spec cb hdevice tap w (dev w) Hok Hcb Hp Htwo fuel 0 0%nat _ 0%nat).
  - apply initial_decoding; assumption.
  - reflexivity.
  - lia.
Qed.

Lemma transfers_ok_scripted : transfers_ok scripted.
Proof. split; [intros h v d | intros h [|v d]]; reflexivity. Qed.

Lemma well_formed_tap13 : well_formed tap13.
Proof.
  repeat constructor; simpl; lia.
Qed.

Lemma dump_tap_decodes_witness :
  transfers_ok scripted /\
  g_callback (session [11; 7] true) = Some scripted /\
  well_formed tap13 /\ (sample_words tap13 <= 1)%nat /\
  dump_tap 1 handle tap13 (session [11; 7] true)
  = (inl (set_progress tap13 1 9),
     after (session [11; 7] true) []
       [IoWrite 3 0; IoRead 11 0; IoWrite 3 0; IoRead 7 0]
       [LValue "011" 2; LValue "1" 1]) /\
  decoded_text tap13 [11; 7] = ["b011 2"; "b1 1"]%string.
Proof.
  assert (sample_words tap13 <= 1)%nat as Hfuel by (vm_compute; lia).
  split; [exact transfers_ok_scripted|]. split; [reflexivity|].
  split; [exact well_formed_tap13|]. split; [exact Hfuel|].
  pose proof (dump_tap_decodes scripted handle tap13 (session [11; 7] true) 1
                transfers_ok_scripted eq_refl well_formed_tap13 Hfuel) as E.
  split.
  - rewrite E. reflexivity.
  - unfold decoded_text. rewrite E. reflexivity.
Defined.

(** C1 as stated: the word 1011 for sub-signals of widths 1 and 3 is
    written as [b011] and then [b1], not as [b1] and then [b011]; nor does
    the other order of the sub-signals, or the word read from its first bit
    on (1101), give these two lines in that order. *)
Lemma round_trip_order :
  decoded_text tap13 [11; 7] = ["b011 2"; "b1 1"]%string /\
  decoded_text tap13 [13; 7] = ["b101 2"; "b1 1"]%string /\
  decoded_text tap31 [11; 7] = ["b1 2"; "b101 1"]%string /\
  decoded_text tap31 [13; 7] = ["b1 2"; "b110 1"]%string /\
  (forall i j,
      decoded_text tap13 [11; 7] <> ["b1 " +:+ i; "b011 " +:+ j]%string /\
      decoded_text tap13 [13; 7] <> ["b1 " +:+ i; "b011 " +:+ j]%string /\
      decoded_text tap31 [11; 7] <> ["b1 " +:+ i; "b011 " +:+ j]%string /\
      decoded_text tap31 [13; 7] <> ["b1 " +:+ i; "b011 " +:+ j]%string).
Proof.
  repeat split; try reflexivity; vm_compute; intros E; discriminate E.
Qed.

(** C10 on the code: a tap with a single sub-signal, which then is as wide
    as the tap, makes [dump_tap] store the ending zero at the index
    [tap->width] of a buffer of [tap->width] characters.  The store is
    reached after the words of the sample are read and before any line is
    written. *)
Theorem single_signal_null_store {D} (cb : scope_callback_t D)
    (hdevice : vx_device_h) (tap : tap_t) (s : tap_signal_t) (w : world D)
    (fuel : nat) :
  transfers_ok cb ->
  g_callback w = Some cb ->
  packed tap ->
  signals tap = [s] ->
  (sample_words tap <= fuel)%nat ->
  dump_tap fuel hdevice tap w
  = (inr Undefined,
     after w (dev_after cb hdevice (tap_id tap) (dev w) (sample_words tap))
       (data_events (tap_id tap)
          (data_word cb hdevice (tap_id tap) (dev w)) (sample_words tap))
       []).
Proof.
  intros Hok Hcb Hp Hone Hfuel.
  assert (rev (signals tap) !! 0%nat = Some s) as Hfirst
    by (rewrite Hone; reflexivity).
  assert (sig_width s = tap_width tap) as Hwide.
  { rewrite <- (packed_sum _ Hp), Hone. simpl. lia. }
  unfold dump_tap, deref. rewrite Hfirst. cbn [lift_ub].
  unfold bind at 1. cbn [ret].
  rewrite <- (after_nil w) at 1.
  apply (decode_sample_overflow cb hdevice tap w (dev w) Hok Hcb Hp fuel 0 0%nat _ 0%nat).
  - apply initial_decoding; assumption.
  - reflexivity.
  - lia.
  - exact Hwide.
Qed.

Lemma packed_tap4 : packed tap4.
Proof. repeat constructor; simpl; lia. Qed.

Lemma single_signal_null_store_witness :
  transfers_ok scripted /\
  g_callback (session [11; 7] true) = Some scripted /\
  packed tap4 /\
  signals tap4 = [ {| sig_id := 1; sig_name := "a"; sig_width := 4 |} ] /\
  (sample_words tap4 <= 1)%nat /\
  dump_tap 1 handle tap4 (session [11; 7] true)
  = (inr Undefined,
     after (session [11; 7] true) [7] [IoWrite 3 0; IoRead 11 0] []).
Proof.
  assert (sample_words tap4 <= 1)%nat as Hfuel by (vm_compute; lia).
  split; [exact transfers_ok_scripted|]. split; [reflexivity|].
  split; [exact packed_tap4|]. split; [reflexivity|]. split; [exact Hfuel|].
  rewrite (single_signal_null_store scripted handle tap4 _ (session [11; 7] true) 1
             transfers_ok_scripted eq_refl packed_tap4 eq_refl Hfuel).
  reflexivity.
Defined.

(** ** Rules for [triple] *)

Lemma extends_refl {D} (w : world D) : extends w w [] [] [].
Proof. constructor; rewrite ?app_nil_r; reflexivity. Qed.

Lemma extends_trans {D} (w1 w2 w3 : world D) e1 l1 g1 e2 l2 g2 :
  extends w1 w2 e1 l1 g1 -> extends w2 w3 e2 l2 g2 ->
  extends w1 w3 (e1 ++ e2) (l1 ++ l2) (g1 ++ g2).
Proof.
  intros [] []. constructor; rewrite ?app_assoc; congruence.
Qed.

Lemma extends_after {D} (w : world D) d ev lines :
  extends w (after w d ev lines) ev lines [].
Proof. constructor; simpl; rewrite ?app_nil_r; reflexivity. Qed.

Section Triples.
Context {D : Type}.
Context (E : io_event → Prop) (L : vcd_line → Prop) (G : nat * Z → Prop).

Lemma triple_ret {A} (a : A) (P : A → Prop) :
  P a -> triple (D:=D) (ret a) E L G P.
Proof.
  intros HP w r w' Hrun. injection Hrun as <- <-. split.
  - exists [], [], []. split; [apply extends_refl|]. repeat split; constructor.
  - intros a' Ha. injection Ha as <-. exact HP.
Qed.

Lemma triple_stop {A} (h : halt) (P : A → Prop) :
  triple (D:=D) (stop_with h) E L G P.
Proof.
  intros w r w' Hrun. injection Hrun as <- <-. split.
  - exists [], [], []. split; [apply extends_refl|]. repeat split; constructor.
  - intros a Ha. discriminate Ha.
Qed.

Lemma triple_bind {A B} (m : M D A) (k : A → M D B) (P : A → Prop)
    (Q : B → Prop) :
  triple m E L G P ->
  (∀ a, P a → triple (D:=D) (k a) E L G Q) ->
  triple (D:=D) (bind m k) E L G Q.
Proof.
  intros Hm Hk w r w' Hrun. unfold bind in Hrun.
  destruct (m w) as [[a|h] w1] eqn:Em.
  - destruct (Hm w _ _ Em) as [(e1 & l1 & g1 & X1 & He1 & Hl1 & Hg1) HP].
    destruct (Hk a (HP a eq_refl) w1 _ _ Hrun)
      as [(e2 & l2 & g2 & X2 & He2 & Hl2 & Hg2) HQ].
    split; [|exact HQ].
    exists (e1 ++ e2), (l1 ++ l2), (g1 ++ g2).
    split; [eapply extends_trans; eassumption|].
    repeat split; apply Forall_app; split; assumption.
  - injection Hrun as <- <-.
    destruct (Hm w _ _ Em) as [X _]. split; [exact X|].
    intros a Ha. discriminate Ha.
Qed.

Lemma triple_post {A} (m : M D A) (P Q : A → Prop) :
  triple m E L G P -> (∀ a, P a → Q a) -> triple m E L G Q.
Proof.
  intros Hm HPQ w r w' Hrun.
  destruct (Hm w r w' Hrun) as [X HP]. split; [exact X|].
  intros a Ha. apply HPQ, HP, Ha.
Qed.

Lemma triple_lift_ub {A} (o : option A) (P : A → Prop) :
  (∀ a, o = Some a → P a) -> triple (D:=D) (lift_ub o) E L G P.
Proof.
  intros HP. destruct o as [a|]; simpl.
  - apply triple_ret, HP. reflexivity.
  - apply triple_stop.
Qed.

Lemma triple_reg_write (h : vx_device_h) (v : Z) :
  (∀ err, E (IoWrite v err)) ->
  triple (D:=D) (reg_write h v) E L G (fun _ => True).
Proof.
  intros HE w r w' Hrun. unfold reg_write in Hrun.
  destruct (g_callback w) as [cb|].
  2:{ injection Hrun as <- <-. split; [|intros a Ha; discriminate Ha].
      exists [], [], []. split; [apply extends_refl|]. repeat split; constructor. }
  destruct (registerWrite cb h v (dev w)) as [err d].
  split; [|intros; exact I].
  exists [IoWrite v err], [], [].
  split.
  - destruct (err =? 0); injection Hrun as <- <-;
      constructor; simpl; rewrite ?app_nil_r; reflexivity.
  - repeat split; repeat constructor. apply HE.
Qed.

Lemma triple_reg_read (h : vx_device_h) :
  (∀ v err, E (IoRead v err)) ->
  triple (D:=D) (reg_read h) E L G (fun v => 0 <= v < 2 ^ 64).
Proof.
  intros HE w r w' Hrun. unfold reg_read in Hrun.
  destruct (g_callback w) as [cb|].
  2:{ injection Hrun as <- <-. split; [|intros a Ha; discriminate Ha].
      exists [], [], []. split; [apply extends_refl|]. repeat split; constructor. }
  destruct (registerRead cb h (dev w)) as [[err v] d].
  split.
  - exists [IoRead (u64 v) err], [], [].
    split.
    + destruct (err =? 0); injection Hrun as <- <-;
        constructor; simpl; rewrite ?app_nil_r; reflexivity.
    + repeat split; repeat constructor. apply HE.
  - intros a Ha. destruct (err =? 0); injection Hrun as Hr _; subst r;
      [injection Ha as <-; apply u64_range | discriminate Ha].
Qed.

Lemma triple_emit (lines : list vcd_line) :
  Forall L lines -> triple (D:=D) (emit lines) E L G (fun _ => True).
Proof.
  intros HL w r w' Hrun. injection Hrun as <- <-.
  split; [|intros; exact I].
  exists [], lines, []. split.
  - constructor; simpl; rewrite ?app_nil_r; reflexivity.
  - repeat split; try constructor. exact HL.
Qed.

(** A loop over a list keeps what its body keeps. *)
Lemma triple_for_each {A} (body : A → M D unit) (l : list A) :
  (∀ a, a ∈ l → triple (D:=D) (body a) E L G (fun _ => True)) ->
  triple (D:=D) (for_each body l) E L G (fun _ => True).
Proof.
  induction l as [|a l IH]; intros Hbody; cbn [for_each].
  - apply triple_ret. exact I.
  - eapply triple_bind.
    + apply Hbody. left.
    + intros _ _. apply IH. intros a' Ha'. apply Hbody. right. exact Ha'.
Qed.
End Triples.

(** ** What [dump_tap] leaves behind, on any device *)

Section DumpTapKeeps.
Context {D : Type} (hdevice : vx_device_h).
Context (tap : tap_t) (G : nat * Z → Prop).

Lemma data_event_write err : data_event (tap_id tap) (IoWrite (cmd_data (tap_id tap)) err).
Proof. reflexivity. Qed.

Lemma data_event_read v err : data_event (tap_id tap) (IoRead v err).
Proof. exact I. Qed.

Lemma deref_triple it :
  triple (D:=D) (deref tap it) (data_event (tap_id tap)) (value_line tap) G
    (fun s => s ∈ signals tap).
Proof.
  apply triple_lift_ub. intros s Hs.
  apply list_elem_of_lookup_2 in Hs.
  apply list_elem_of_In, in_rev, list_elem_of_In in Hs. exact Hs.
Qed.

Lemma end_of_sample_triple st :
  triple (D:=D) (end_of_sample hdevice tap st) (data_event (tap_id tap))
    (value_line tap) G
    (fun r => progressed tap (fst r) ∧ sample_offset (snd r) = sample_offset st).
Proof.
  unfold end_of_sample.
  destruct (u32 (cur_sample tap + 1) =? samples tap).
  - apply triple_ret. split; [eexists; reflexivity | reflexivity].
  - eapply triple_bind; [apply triple_reg_write, data_event_write|].
    intros _ _.
    eapply triple_bind; [apply triple_reg_read, data_event_read|].
    intros w _. apply triple_ret. split; [eexists; reflexivity | reflexivity].
Qed.

Lemma decode_bit_triple st :
  triple (D:=D) (decode_bit hdevice tap st) (data_event (tap_id tap))
    (value_line tap) G
    (fun r => if snd r
              then progressed tap (fst (fst r)) ∧
                   sample_offset (snd (fst r)) = tap_width tap
              else fst (fst r) = tap).
Proof.
  unfold decode_bit.
  eapply triple_bind;
    [apply (triple_lift_ub _ _ _ _ (fun _ => True)); intros; exact I|].
  intros buf _.
  destruct (u32 (signal_offset st + 1) =? signal_width st).
  - eapply triple_bind;
      [apply (triple_lift_ub _ _ _ _ (fun _ => True)); intros; exact I|].
    intros buf2 _.
    eapply triple_bind;
      [apply (triple_lift_ub _ _ _ _ (fun _ => True)); intros; exact I|].
    intros text _.
    eapply triple_bind; [apply deref_triple|].
    intros signal Hsig.
    eapply triple_bind.
    { apply triple_emit. constructor; [|constructor]. simpl.
      apply list_elem_of_In, in_map, list_elem_of_In, Hsig. }
    intros _ _.
    destruct (u32 (sample_offset st + 1) =? tap_width tap) eqn:Hend.
    + eapply triple_bind; [apply end_of_sample_triple|].
      intros [tap' st''] [Hp Hso]. apply triple_ret. simpl in *.
      split; [exact Hp|]. rewrite Hso. apply Z.eqb_eq, Hend.
    + eapply triple_bind; [apply deref_triple|].
      intros next _. apply triple_ret. reflexivity.
  - apply triple_ret. reflexivity.
Qed.

Lemma decode_word_triple fuel : ∀ st,
  triple (D:=D) (decode_word fuel hdevice tap st) (data_event (tap_id tap))
    (value_line tap) G
    (fun r => fst r = tap ∨
              (progressed tap (fst r) ∧ sample_offset (snd r) = tap_width tap)).
Proof.
  induction fuel as [|fuel IH]; intros st; cbn [decode_word].
  - apply triple_stop.
  - eapply triple_bind; [apply decode_bit_triple|].
    intros [[tap' st'] [|]] HP; simpl in HP.
    + apply triple_ret. right. exact HP.
    + subst tap'.
      destruct (sample_offset st' mod 64 =? 0).
      * apply triple_ret. left. reflexivity.
      * apply IH.
Qed.

Lemma decode_sample_triple fuel : ∀ st,
  triple (D:=D) (decode_sample fuel hdevice tap st) (data_event (tap_id tap))
    (value_line tap) G (fun tap' => tap' = tap ∨ progressed tap tap').
Proof.
  induction fuel as [|fuel IH]; intros st; cbn [decode_sample].
  - apply triple_stop.
  - eapply triple_bind; [apply triple_reg_write, data_event_write|].
    intros _ _.
    eapply triple_bind; [apply triple_reg_read, data_event_read|].
    intros w _.
    eapply triple_bind; [apply decode_word_triple|].
    intros [tap' st'] [Heq | [Hp Hso]]; simpl in *.
    + subst tap'.
      destruct (sample_offset st' =? tap_width tap).
      * apply triple_ret. left. reflexivity.
      * apply IH.
    + assert (tap_width tap' = tap_width tap) as Hw
        by (destruct Hp as [t ->]; reflexivity).
      rewrite Hso, Hw, Z.eqb_refl.
      apply triple_ret. right. exact Hp.
Qed.

(** [dump_tap] talks to the device only with [GET_DATA] requests for its
    tap, writes only value lines of its tap, and hands back the tap as it
    was or one sample later. *)
Lemma dump_tap_triple fuel :
  triple (D:=D) (dump_tap fuel hdevice tap) (data_event (tap_id tap))
    (value_line tap) G (fun tap' => tap' = tap ∨ progressed tap tap').
Proof.
  unfold dump_tap.
  eapply triple_bind; [apply deref_triple|].
  intros first _. apply decode_sample_triple.
Qed.
End DumpTapKeeps.

(** ** The scheduler *)

Lemma has_data_spec tap :
  has_data tap = true <-> samples tap <> 0 /\ cur_sample tap <> samples tap.
Proof.
  unfold has_data. rewrite andb_true_iff, !negb_true_iff, !Z.eqb_neq. tauto.
Qed.

(** With [0 <= cur_sample <= samples], the taps the scan keeps are those
    with [samples > 0] and [cur_sample < samples]. *)
Lemma has_data_lt tap :
  0 <= cur_sample tap <= samples tap ->
  (has_data tap = true <-> 0 < samples tap /\ cur_sample tap < samples tap).
Proof. intros H. rewrite has_data_spec. lia. Qed.

Lemma find_earliest_from_skip i tap rest e :
  has_data tap = false ->
  find_earliest_from i (tap :: rest) e = find_earliest_from (S i) rest e.
Proof.
  intros H. cbn [find_earliest_from]. unfold has_data in H.
  destruct (samples tap =? 0); [reflexivity|].
  destruct (cur_sample tap =? samples tap); [reflexivity|]. discriminate H.
Qed.

Lemma find_earliest_from_take i tap rest e :
  has_data tap = true ->
  find_earliest_from i (tap :: rest) e
  = find_earliest_from (S i) rest
      (match e with
       | Some (_, te) =>
           if cycle_time tap <? cycle_time te then Some (i, tap) else e
       | None => Some (i, tap)
       end).
Proof.
  intros H. cbn [find_earliest_from]. unfold has_data in H.
  destruct (samples tap =? 0); [discriminate H|].
  destruct (cur_sample tap =? samples tap); [discriminate H|]. reflexivity.
Qed.

Lemma find_earliest_from_some taps : ∀ i e j t,
  find_earliest_from i taps e = Some (j, t) ->
  (e = Some (j, t) ∨
   (taps !! (j - i)%nat = Some t ∧ (i <= j)%nat ∧ has_data t = true)) ∧
  (∀ t', t' ∈ taps → has_data t' = true → cycle_time t <= cycle_time t') ∧
  (∀ k te, e = Some (k, te) → cycle_time t <= cycle_time te).
Proof.
  induction taps as [|tap rest IH]; intros i e j t Hfind.
  - simpl in Hfind. subst e. split; [left; reflexivity|]. split.
    + intros t' Ht'. inversion Ht'.
    + intros k te Hk. injection Hk as _ <-. lia.
  - destruct (has_data tap) eqn:Hd.
    + rewrite (find_earliest_from_take _ _ _ _ Hd) in Hfind.
      destruct (IH _ _ _ _ Hfind) as (Hwhere & Hmin & Hacc).
      assert (cycle_time t <= cycle_time tap ∧
              ∀ k te, e = Some (k, te) → cycle_time t <= cycle_time te)
        as [Htap He].
      { destruct e as [[k te]|].
        - destruct (Z.ltb_spec (cycle_time tap) (cycle_time te)).
          + pose proof (Hacc _ _ eq_refl). split; [lia|].
            intros k' te' Hk. injection Hk as _ <-. lia.
          + pose proof (Hacc _ _ eq_refl). split; [lia|].
            intros k' te' Hk. injection Hk as _ <-. lia.
        - split; [apply (Hacc _ _ eq_refl)|]. intros k te Hk. discriminate Hk. }
      split; [|split; [|exact He]].
      * destruct Hwhere as [Hacc' | (Hl & Hle & Hdt)].
        -- destruct e as [[k te]|].
           ++ destruct (cycle_time tap <? cycle_time te).
              ** injection Hacc' as <- <-. right.
                 rewrite Nat.sub_diag. repeat split; [lia | exact Hd].
              ** left. exact Hacc'.
           ++ injection Hacc' as <- <-. right.
              rewrite Nat.sub_diag. repeat split; [lia | exact Hd].
        -- right. replace (j - i)%nat with (S (j - S i)) by lia.
           repeat split; [exact Hl | lia | exact Hdt].
      * intros t' Ht' Hdt'. apply elem_of_cons in Ht' as [->|Ht'].
        -- exact Htap.
        -- apply Hmin; assumption.
    + rewrite (find_earliest_from_skip _ _ _ _ Hd) in Hfind.
      destruct (IH _ _ _ _ Hfind) as (Hwhere & Hmin & Hacc).
      split; [|split; [|exact Hacc]].
      * destruct Hwhere as [He | (Hl & Hle & Hdt)]; [left; exact He|].
        right. replace (j - i)%nat with (S (j - S i)) by lia.
        repeat split; [exact Hl | lia | exact Hdt].
      * intros t' Ht' Hdt'. apply elem_of_cons in Ht' as [->|Ht'].
        -- congruence.
        -- apply Hmin; assumption.
Qed.

Lemma find_earliest_from_none taps : ∀ i e,
  find_earliest_from i taps e = None ->
  e = None ∧ Forall (fun t => has_data t = false) taps.
Proof.
  induction taps as [|tap rest IH]; intros i e Hfind.
  - simpl in Hfind. split; [exact Hfind | constructor].
  - destruct (has_data tap) eqn:Hd.
    + rewrite (find_earliest_from_take _ _ _ _ Hd) in Hfind.
      destruct (IH _ _ Hfind) as [He _].
      destruct e as [[k te]|]; [|discriminate He].
      destruct (cycle_time tap <? cycle_time te); discriminate He.
    + rewrite (find_earliest_from_skip _ _ _ _ Hd) in Hfind.
      destruct (IH _ _ Hfind) as [He Hrest].
      split; [exact He|]. constructor; assumption.
Qed.

(** The tap the scheduler returns has data left and no tap with data left
    has a smaller [cycle_time]. *)
Lemma find_earliest_tap_some taps i :
  find_earliest_tap taps = Some i ->
  ∃ tap, taps !! i = Some tap ∧ has_data tap = true ∧
         ∀ t', t' ∈ taps → has_data t' = true → cycle_time tap <= cycle_time t'.
Proof.
  unfold find_earliest_tap. intros H.
  destruct (find_earliest_from 0 taps None) as [[j t]|] eqn:Hfind; [|discriminate H].
  simpl in H. injection H as <-.
  destruct (find_earliest_from_some _ _ _ _ _ Hfind) as ([He | (Hl & _ & Hd)] & Hmin & _);
    [discriminate He|].
  exists t. rewrite Nat.sub_0_r in Hl. split; [exact Hl|]. split; assumption.
Qed.

Lemma find_earliest_tap_none taps :
  find_earliest_tap taps = None -> Forall (fun t => has_data t = false) taps.
Proof.
  unfold find_earliest_tap. intros H.
  destruct (find_earliest_from 0 taps None) as [[j t]|] eqn:Hfind; [discriminate H|].
  apply (find_earliest_from_none _ _ _ Hfind).
Qed.

(** ** The times written by the clock *)

Lemma timestamps_app l1 l2 : timestamps (l1 ++ l2) = timestamps l1 ++ timestamps l2.
Proof.
  induction l1 as [|l l1 IH]; [reflexivity|].
  destruct l; simpl; rewrite IH; reflexivity.
Qed.

Lemma timestamps_values tap lines :
  Forall (value_line tap) lines -> timestamps lines = [].
Proof.
  induction 1 as [|l lines Hl _ IH]; [reflexivity|].
  destruct l; simpl in *; try contradiction. exact IH.
Qed.

Lemma half_periods_stamps v0 v1 a rest :
  0 <= a < 2 ^ 63 ->
  timestamps (half_periods v0 v1 a ++ rest)
  = 2 * a :: (2 * a + 1) :: timestamps rest.
Proof.
  intros H. unfold half_periods. cbn [app timestamps].
  rewrite !u64_small by word_lia.
  replace (a * 2 + 0) with (2 * a) by lia.
  replace (a * 2 + 1) with (2 * a + 1) by lia. reflexivity.
Qed.

Lemma StronglySorted_lt_app (l1 l2 : list Z) :
  StronglySorted Z.lt l1 -> StronglySorted Z.lt l2 ->
  (forall x y, x ∈ l1 -> y ∈ l2 -> x < y) ->
  StronglySorted Z.lt (l1 ++ l2).
Proof.
  induction 1 as [|a l1 Hs IH Ha]; intros H2 Hlt; simpl; [exact H2|].
  constructor.
  - apply IH; [exact H2|]. intros x y Hx Hy. apply Hlt; [right|]; assumption.
  - apply Forall_app. split; [exact Ha|].
    apply Forall_forall. intros y Hy. apply Hlt; [left | exact Hy].
Qed.

Lemma cycles_stamps n : forall a,
  0 <= a -> a + Z.of_nat n <= 2 ^ 63 ->
  StronglySorted Z.lt
    (timestamps (flat_map (half_periods Clk0 Clk1) (seqZ a (Z.of_nat n)))) /\
  Forall (fun ts => 2 * a <= ts < 2 * (a + Z.of_nat n))
    (timestamps (flat_map (half_periods Clk0 Clk1) (seqZ a (Z.of_nat n)))).
Proof.
  induction n as [|n IH]; intros a Ha Hn.
  - simpl. split; constructor.
  - rewrite seqZ_cons'. cbn [flat_map].
    rewrite half_periods_stamps by word_lia.
    destruct (IH (a + 1) ltac:(word_lia) ltac:(word_lia)) as [Hs Hb].
    split.
    + constructor; [constructor; [exact Hs|]|].
      * eapply Forall_impl; [exact Hb|]. simpl. intros; word_lia.
      * constructor; [word_lia|].
        eapply Forall_impl; [exact Hb|]. simpl. intros; word_lia.
    + constructor; [word_lia|]. constructor; [word_lia|].
      eapply Forall_impl; [exact Hb|]. simpl. intros; word_lia.
Qed.

(** Below 2^63 the times written by [advance_clock] increase, from twice
    the old time to below twice the new one. *)
Lemma advance_clock_stamps cur_time next_time :
  0 <= cur_time <= next_time -> next_time < 2 ^ 63 ->
  snd (advance_clock cur_time next_time) = next_time /\
  StronglySorted Z.lt (timestamps (fst (advance_clock cur_time next_time))) /\
  Forall (fun ts => 2 * cur_time <= ts < 2 * next_time)
    (timestamps (fst (advance_clock cur_time next_time))).
Proof.
  intros H0 H1.
  destruct (Z_le_gt_dec (next_time - cur_time) MAX_DELAY_CYCLES) as [Hs|Hl].
  - rewrite advance_clock_small by word_lia. cbn [fst snd].
    split; [reflexivity|].
    destruct (cycles_stamps (Z.to_nat (next_time - cur_time)) cur_time) as [Hs1 Hb1];
      [word_lia|word_lia|].
    rewrite Z2Nat.id in Hs1, Hb1 by word_lia.
    split; [exact Hs1|].
    eapply Forall_impl; [exact Hb1|]. simpl. intros; word_lia.
  - rewrite advance_clock_jump by word_lia.
    cbn [fst snd]. split; [reflexivity|].
    unfold MAX_DELAY_CYCLES in *.
    change ([LTime (u64 (2 * cur_time)); LClock ClkX;
             LTime (u64 (2 * cur_time + 1)); LClock ClkX]
              ++ flat_map (half_periods Clk0 Clk1) (seqZ (next_time - 10000) 10000))
      with (LTime (u64 (2 * cur_time)) :: LClock ClkX ::
            LTime (u64 (2 * cur_time + 1)) :: LClock ClkX ::
            flat_map (half_periods Clk0 Clk1) (seqZ (next_time - 10000) 10000)).
    cbn [timestamps]. rewrite !u64_small by word_lia.
    destruct (cycles_stamps (Z.to_nat 10000) (next_time - 10000)) as [Hs1 Hb1];
      [rewrite ?Z2Nat.id by lia; word_lia..|].
    rewrite Z2Nat.id in Hs1, Hb1 by lia.
    split.
    + constructor; [constructor; [exact Hs1|]|].
      * eapply Forall_impl; [exact Hb1|]. simpl. intros; word_lia.
      * constructor; [word_lia|].
        eapply Forall_impl; [exact Hb1|]. simpl. intros; word_lia.
    + constructor; [word_lia|]. constructor; [word_lia|].
      eapply Forall_impl; [exact Hb1|]. simpl. intros; word_lia.
Qed.

(** ** The merge loop *)

Lemma dump_taps_round {D} words fuel h i taps cur tap (w : world D) :
  taps !! i = Some tap ->
  dump_taps words (S fuel) h i taps cur w
  = match dump_tap words h tap
            (upd_vcd (scope_vcd w ++ fst (advance_clock cur (cycle_time tap)))
               (upd_dispatched i (cycle_time tap) w)) with
    | (inl tap', w3) =>
        match find_earliest_tap (<[i := tap']> taps) with
        | Some j =>
            dump_taps words fuel h j (<[i := tap']> taps)
              (snd (advance_clock cur (cycle_time tap))) w3
        | None =>
            (inl (<[i := tap']> taps, snd (advance_clock cur (cycle_time tap))), w3)
        end
    | (inr hh, w3) => (inr hh, w3)
    end.
Proof.
  intros Htap. cbn [dump_taps]. unfold bind at 1. rewrite Htap.
  cbn [lift_ub ret]. unfold bind at 1.
  destruct (advance_clock cur (cycle_time tap)) as [lines cur'].
  unfold bind at 1. unfold emit at 1. cbn [fst snd].
  unfold bind at 1.
  change (scope_vcd (upd_dispatched i (cycle_time tap) w)) with (scope_vcd w).
  destruct (dump_tap words h tap _) as [[tap'|hh] w3]; [|reflexivity].
  destruct (find_earliest_tap (<[i:=tap']> taps)); reflexivity.
Qed.

Lemma extends_dispatch {D} (w : world D) i t lines :
  extends w (upd_vcd (scope_vcd w ++ lines) (upd_dispatched i t w))
    [] lines [(i, t)].
Proof. constructor; simpl; rewrite ?app_nil_r; reflexivity. Qed.

Lemma Forall_False_nil {A} (l : list A) : Forall (fun _ => False) l -> l = [].
Proof. destruct 1; [reflexivity | contradiction]. Qed.

Lemma times_of_cons_eq i t log : times_of i ((i, t) :: log) = t :: times_of i log.
Proof. unfold times_of. simpl. rewrite Nat.eqb_refl. reflexivity. Qed.

Lemma times_of_cons_ne i j t log :
  j <> i -> times_of i ((j, t) :: log) = times_of i log.
Proof.
  intros H. unfold times_of. simpl.
  destruct (Nat.eqb_spec j i); [contradiction | reflexivity].
Qed.

Lemma times_of_elem i t log : (i, t) ∈ log -> t ∈ times_of i log.
Proof.
  intros H. unfold times_of.
  apply list_elem_of_In, in_map_iff. exists (i, t). split; [reflexivity|].
  apply filter_In. split; [apply list_elem_of_In, H|]. apply Nat.eqb_refl.
Qed.

Lemma each_tap_in_order_tail i t log :
  each_tap_in_order ((i, t) :: log) -> each_tap_in_order log.
Proof.
  intros H k. specialize (H k).
  destruct (Nat.eq_dec i k) as [->|Hne].
  - rewrite times_of_cons_eq in H. inversion H; assumption.
  - rewrite times_of_cons_ne in H by assumption. exact H.
Qed.

Lemma each_tap_in_order_head i t t' log :
  each_tap_in_order ((i, t) :: log) -> (i, t') ∈ log -> t <= t'.
Proof.
  intros H Hin. specialize (H i). rewrite times_of_cons_eq in H.
  inversion H as [|? ? _ Hall]; subst.
  apply (proj1 (Forall_forall _ _) Hall). apply times_of_elem, Hin.
Qed.

Section MergeOrder.
Context {D : Type} (hdevice : vx_device_h).

Lemma single_dispatch_stamps tap cur lines1 l2 :
  lines1 = fst (advance_clock cur (cycle_time tap)) ->
  Forall (value_line tap) l2 ->
  0 <= cur -> cur <= cycle_time tap -> cycle_time tap < 2 ^ 63 ->
  StronglySorted Z.lt (timestamps (lines1 ++ l2)) ∧
  Forall (fun ts => 2 * cur <= ts < 2 * cycle_time tap) (timestamps (lines1 ++ l2)).
Proof.
  intros -> Hl2 H0 H1 H2.
  rewrite timestamps_app, (timestamps_values _ _ Hl2), app_nil_r.
  destruct (advance_clock_stamps cur (cycle_time tap)) as (_ & Hs & Hb);
    [lia | assumption |].
  split; assumption.
Qed.

(** Every entry of the log is a tap that had data left when the loop was
    entered, dispatched no earlier than the [cycle_time] it had then; the
    log is in order if every tap on its own is; and the times written to
    the file then increase, as long as they stay below 2^63. *)
Lemma dump_taps_log words fuel : ∀ i taps cur (w : world D) r w',
  find_earliest_tap taps = Some i ->
  dump_taps words fuel hdevice i taps cur w = (r, w') ->
  ∃ ev lines log,
    extends w w' ev lines log ∧
    (∀ j t', (j, t') ∈ log →
       ∃ tap, taps !! j = Some tap ∧ has_data tap = true ∧
              (each_tap_in_order log → cycle_time tap <= t')) ∧
    (each_tap_in_order log → StronglySorted Z.le (map snd log)) ∧
    (StronglySorted Z.le (map snd log) →
     Forall (fun t => t < 2 ^ 63) (map snd log) →
     0 <= cur → (∀ t, head (map snd log) = Some t → cur <= t) →
     StronglySorted Z.lt (timestamps lines) ∧
     Forall (fun ts => 2 * cur <= ts) (timestamps lines)).
Proof.
  induction fuel as [|fuel IH]; intros i taps cur w r w' Hfind Hrun.
  { injection Hrun as <- <-. exists [], [], [].
    split; [apply extends_refl|]. split; [|split].
    - intros j t' Hin. inversion Hin.
    - intros _. constructor.
    - intros _ _ _ _. split; constructor. }
  destruct (find_earliest_tap_some taps i Hfind) as (tap & Htap & Hdata & Hmin).
  rewrite (dump_taps_round _ _ _ _ _ _ tap _ Htap) in Hrun.
  set (lines1 := fst (advance_clock cur (cycle_time tap))) in *.
  set (w2 := upd_vcd (scope_vcd w ++ lines1) (upd_dispatched i (cycle_time tap) w)) in *.
  pose proof (extends_dispatch w i (cycle_time tap) lines1) as X1. fold w2 in X1.
  destruct (dump_tap words hdevice tap w2) as [[tap'|hh] w3] eqn:Edump;
    destruct (dump_tap_triple hdevice tap (fun _ => False) words
                w2 _ _ Edump) as [(e2 & l2 & g2 & X2 & _ & Hl2 & Hg2) _];
    apply Forall_False_nil in Hg2; subst g2;
    pose proof (extends_trans _ _ _ _ _ _ _ _ _ X1 X2) as X12.
  2:{ injection Hrun as <- <-.
      exists ([] ++ e2), (lines1 ++ l2), ([(i, cycle_time tap)] ++ []).
      split; [exact X12|]. simpl. split; [|split].
      - intros j t' Hin. apply list_elem_of_singleton in Hin.
        injection Hin as -> ->. exists tap. repeat split; [assumption..|lia].
      - intros _. repeat constructor.
      - intros _ Hb H0 Hhead. inversion Hb; subst.
        destruct (single_dispatch_stamps tap cur lines1 l2 eq_refl Hl2 H0
                    (Hhead _ eq_refl) ltac:(assumption)) as [Hs Hbd].
        split; [exact Hs|]. eapply Forall_impl; [exact Hbd|]. simpl. intros; lia. }
  destruct (find_earliest_tap (<[i:=tap']> taps)) as [j|] eqn:Hnext.
  2:{ injection Hrun as <- <-.
      exists ([] ++ e2), (lines1 ++ l2), ([(i, cycle_time tap)] ++ []).
      split; [exact X12|]. simpl. split; [|split].
      - intros j t' Hin. apply list_elem_of_singleton in Hin.
        injection Hin as -> ->. exists tap. repeat split; [assumption..|lia].
      - intros _. repeat constructor.
      - intros _ Hb H0 Hhead. inversion Hb; subst.
        destruct (single_dispatch_stamps tap cur lines1 l2 eq_refl Hl2 H0
                    (Hhead _ eq_refl) ltac:(assumption)) as [Hs Hbd].
        split; [exact Hs|]. eapply Forall_impl; [exact Hbd|]. simpl. intros; lia. }
  destruct (IH _ _ _ _ _ _ Hnext Hrun)
    as (e3 & l3 & g3 & X3 & Hentries & Hsorted & Hstamps).
  exists (([] ++ e2) ++ e3), ((lines1 ++ l2) ++ l3),
    (([(i, cycle_time tap)] ++ []) ++ g3).
  split; [eapply extends_trans; eassumption|].
  change (([(i, cycle_time tap)] ++ []) ++ g3) with ((i, cycle_time tap) :: g3).
  assert (∀ j' t', (j', t') ∈ g3 →
            each_tap_in_order ((i, cycle_time tap) :: g3) →
            ∃ tap0, taps !! j' = Some tap0 ∧ has_data tap0 = true ∧
                    cycle_time tap0 <= t' ∧ cycle_time tap <= t') as Hlater.
  { intros j' t' Hin Hord.
    destruct (Nat.eq_dec j' i) as [->|Hne].
    - exists tap. pose proof (each_tap_in_order_head _ _ _ _ Hord Hin).
      repeat split; [assumption..|lia|lia].
    - destruct (Hentries _ _ Hin) as (tap0 & Hl0 & Hd0 & Ht0).
      rewrite list_lookup_insert_ne in Hl0 by congruence.
      specialize (Ht0 (each_tap_in_order_tail _ _ _ Hord)).
      exists tap0. repeat split; [assumption..|].
      pose proof (Hmin tap0 (list_elem_of_lookup_2 _ _ _ Hl0) Hd0). lia. }
  split; [|split].
  - intros j' t' Hin. apply elem_of_cons in Hin as [Heq|Hin].
    + injection Heq as -> ->. exists tap. repeat split; [assumption..|lia].
    + destruct (Nat.eq_dec j' i) as [->|Hne].
      * exists tap. repeat split; [assumption..|].
        intros Hord. apply (each_tap_in_order_head _ _ _ _ Hord Hin).
      * destruct (Hentries _ _ Hin) as (tap0 & Hl0 & Hd0 & Ht0).
        rewrite list_lookup_insert_ne in Hl0 by congruence.
        exists tap0. repeat split; [assumption..|].
        intros Hord. apply Ht0, (each_tap_in_order_tail _ _ _ Hord).
  - intros Hord. cbn [map snd]. constructor.
    + apply Hsorted, (each_tap_in_order_tail _ _ _ Hord).
    + apply Forall_forall. intros t' Ht'.
      apply list_elem_of_In, in_map_iff in Ht' as ([j' t''] & <- & Hin).
      apply list_elem_of_In in Hin.
      destruct (Hlater _ _ Hin Hord) as (_ & _ & _ & _ & Hle). exact Hle.
  - cbn [map snd]. intros Hs Hb H0 Hhead.
    inversion Hs as [|? ? Hs3 Hall]; subst. inversion Hb as [|? ? Hb1 Hb3]; subst.
    pose proof (Hhead _ eq_refl) as Hcur.
    destruct (single_dispatch_stamps tap cur lines1 l2 eq_refl Hl2 H0 Hcur Hb1)
      as [Hs12 Hbd12].
    destruct (advance_clock_stamps cur (cycle_time tap)) as (Hnew & _ & _);
      [lia | assumption |].
    destruct Hstamps as [Hs3' Hbd3]; [exact Hs3 | exact Hb3 | lia | |].
    { rewrite Hnew. intros t Ht.
      apply (proj1 (Forall_forall _ _) Hall).
      destruct (map snd g3); [discriminate Ht|]. injection Ht as ->. left. }
    rewrite Hnew in Hbd3.
    rewrite timestamps_app. split.
    + apply StronglySorted_lt_app; [exact Hs12 | exact Hs3' |].
      intros x y Hx Hy.
      pose proof (proj1 (Forall_forall _ _) Hbd12 x Hx).
      pose proof (proj1 (Forall_forall _ _) Hbd3 y Hy). simpl in *. lia.
    + apply Forall_app. split.
      * eapply Forall_impl; [exact Hbd12|]. simpl. intros; lia.
      * eapply Forall_impl; [exact Hbd3|]. simpl. intros; lia.
Qed.
End MergeOrder.

(** C2, with the proviso the 64-bit times need.  Every call of the
    scheduler returns a tap that has data left ([samples <> 0] and
    [cur_sample <> samples]) and whose [cycle_time] is the smallest among
    those.  Hence, in every run of the merge loop, whatever its outcome: if
    the cycle times of each single tap do not decrease from one of its
    dispatches to the next (its [cycle_time += 1 + delta] did not wrap
    around), the cycle times of all dispatches, across the taps, do not
    decrease; and if moreover they are below 2^63 and not before the clock,
    the times written to the file increase. *)
Theorem merge_in_time_order {D} (hdevice : vx_device_h) (words fuel : nat)
    (i : nat) (taps : list tap_t) (cur : Z) (w : world D) r w' :
  find_earliest_tap taps = Some i ->
  dump_taps words fuel hdevice i taps cur w = (r, w') ->
  (∀ taps0 i0, find_earliest_tap taps0 = Some i0 →
     ∃ tap, taps0 !! i0 = Some tap ∧ has_data tap = true ∧
       ∀ t', t' ∈ taps0 → has_data t' = true → cycle_time tap <= cycle_time t') ∧
  ∃ lines log,
    scope_vcd w' = scope_vcd w ++ lines ∧
    dispatched w' = dispatched w ++ log ∧
    (each_tap_in_order log → StronglySorted Z.le (map snd log)) ∧
    (each_tap_in_order log →
     Forall (fun t => t < 2 ^ 63) (map snd log) →
     0 <= cur → (∀ t, head (map snd log) = Some t → cur <= t) →
     StronglySorted Z.lt (timestamps lines)).
Proof.
  intros Hfind Hrun. split; [apply find_earliest_tap_some|].
  destruct (dump_taps_log hdevice words fuel _ _ _ _ _ _ Hfind Hrun)
    as (ev & lines & log & X & _ & Hsorted & Hstamps).
  exists lines, log.
  split; [apply (ext_vcd _ _ _ _ _ X)|]. split; [apply (ext_log _ _ _ _ _ X)|].
  split; [exact Hsorted|].
  intros Hord Hb H0 Hhead. apply Hstamps; auto.
Qed.

Lemma merge_in_time_order_witness :
  find_earliest_tap [tap13; tap11] = Some 0%nat /\
  dispatched (snd (dump_taps 3 3 handle 0 [tap13; tap11] 0
                     (session [11; 4; 2; 13] true)))
  = [(0%nat, 1); (1%nat, 3); (0%nat, 6)] /\
  each_tap_in_order [(0%nat, 1); (1%nat, 3); (0%nat, 6)] /\
  StronglySorted Z.le [1; 3; 6] /\
  StronglySorted Z.lt
    (timestamps (scope_vcd (snd (dump_taps 3 3 handle 0 [tap13; tap11] 0
                                   (session [11; 4; 2; 13] true))))).
Proof.
  assert (each_tap_in_order [(0%nat, 1); (1%nat, 3); (0%nat, 6)]) as Hord.
  { intros [|[|i]]; unfold times_of; simpl; repeat constructor; lia. }
  split; [reflexivity|]. split; [reflexivity|].
  split; [exact Hord|].
  destruct (merge_in_time_order handle 3 3 0 [tap13; tap11] 0
              (session [11; 4; 2; 13] true) _ _ eq_refl
              (surjective_pairing _)) as (_ & lines & log & Hl & Hg & Hs & Ht).
  assert (dispatched (snd (dump_taps 3 3 handle 0 [tap13; tap11] 0
                             (session [11; 4; 2; 13] true)))
          = [(0%nat, 1); (1%nat, 3); (0%nat, 6)]) as Hd by reflexivity.
  rewrite Hd in Hg. simpl in Hg. subst log.
  change (scope_vcd (session [11; 4; 2; 13] true) ++ lines) with lines in Hl.
  rewrite <- Hl in Ht.
  split; [exact (Hs Hord)|].
  apply Ht.
  - exact Hord.
  - simpl. repeat constructor; reflexivity.
  - lia.
  - simpl. intros t Ht1. injection Ht1 as <-. lia.
Defined.

(** C2 as stated, for every set of taps: with the answers of
    [wrapping_script] the stop succeeds and dispatches tap 1 at time 60,
    tap 0 at time 100 and tap 0 again at time 51. *)
Lemma merge_order_wraps :
  fst (vx_scope_stop elements 10 manifest2 handle (session wrapping_script true))
  = Status 0 /\
  dispatched (snd (vx_scope_stop elements 10 manifest2 handle
                     (session wrapping_script true)))
  = [(1%nat, 60); (0%nat, 100); (0%nat, 51)] /\
  ~ StronglySorted Z.le
      (map snd (dispatched (snd (vx_scope_stop elements 10 manifest2 handle
                                   (session wrapping_script true))))).
Proof.
  assert (dispatched (snd (vx_scope_stop elements 10 manifest2 handle
                             (session wrapping_script true)))
          = [(1%nat, 60); (0%nat, 100); (0%nat, 51)]) as E
    by (vm_compute; reflexivity).
  split; [vm_compute; reflexivity|]. split; [exact E|].
  rewrite E. simpl. intros H.
  inversion H as [|? ? H1 _]; subst.
  inversion H1 as [|? ? _ H2]; subst.
  inversion H2; subst. lia.
Qed.

(** ** Loading the trace information *)

Lemma load_trace_info_spec {D} (cb : scope_callback_t D) h tap (w : world D) :
  transfers_ok cb -> g_callback w = Some cb ->
  load_trace_info h tap w
  = if fst (count_of cb h tap (dev w)) =? 0
    then (inl tap,
          after w (snd (count_of cb h tap (dev w)))
            [IoWrite (cmd_count (tap_id tap)) 0;
             IoRead (fst (count_of cb h tap (dev w))) 0] [])
    else (inl (set_trace_info tap (u32 (fst (count_of cb h tap (dev w))))
                 (u64 (1 + fst (start_of cb h tap (dev w))
                       + fst (delta_of cb h tap (dev w))))),
          after w (snd (delta_of cb h tap (dev w)))
            [IoWrite (cmd_count (tap_id tap)) 0;
             IoRead (fst (count_of cb h tap (dev w))) 0;
             IoWrite (cmd_get_start (tap_id tap)) 0;
             IoRead (fst (start_of cb h tap (dev w))) 0;
             IoWrite (cmd_data (tap_id tap)) 0;
             IoRead (fst (delta_of cb h tap (dev w))) 0] []).
Proof.
  intros Hok Hcb. unfold load_trace_info.
  rewrite <- (after_nil w) at 1.
  rewrite (request_then cb h _ w _ _ _ _ Hok Hcb).
  fold (count_of cb h tap (dev w)).
  destruct (fst (count_of cb h tap (dev w)) =? 0); [reflexivity|].
  rewrite (request_then cb h _ w _ _ _ _ Hok Hcb).
  fold (start_of cb h tap (dev w)).
  rewrite (request_then cb h _ w _ _ _ _ Hok Hcb).
  fold (delta_of cb h tap (dev w)).
  reflexivity.
Qed.

Lemma load_trace_info_triple {D} h tap L G :
  triple (D:=D) (load_trace_info h tap) (info_event (tap_id tap)) L G
    (fun tap' => tap' = tap ∨
                 ∃ count time, tap' = set_trace_info tap count time).
Proof.
  unfold load_trace_info.
  eapply triple_bind; [apply triple_reg_write; intros; simpl; tauto|].
  intros _ _.
  eapply triple_bind; [apply triple_reg_read; intros; exact I|].
  intros count _.
  destruct (count =? 0); [apply triple_ret; left; reflexivity|].
  eapply triple_bind; [apply triple_reg_write; intros; simpl; tauto|].
  intros _ _.
  eapply triple_bind; [apply triple_reg_read; intros; exact I|].
  intros start _.
  eapply triple_bind; [apply triple_reg_write; intros; simpl; tauto|].
  intros _ _.
  eapply triple_bind; [apply triple_reg_read; intros; exact I|].
  intros delta _. apply triple_ret. right. eexists _, _. reflexivity.
Qed.

Lemma triple_events {D A} (m : M D A)
    (E E' : io_event → Prop) L G P :
  triple m E L G P -> (∀ e, E e → E' e) -> triple m E' L G P.
Proof.
  intros Hm HE w r w' Hrun.
  destruct (Hm w r w' Hrun) as [(ev & lines & log & X & He & Hl & Hg) HP].
  split; [|exact HP]. exists ev, lines, log.
  split; [exact X|]. split; [eapply Forall_impl; eassumption|].
  split; assumption.
Qed.

Lemma load_loop_triple {D} h (taps all : list tap_t) L G :
  (∀ t, t ∈ taps → t ∈ all) ->
  triple (D:=D) (for_each_tap (load_trace_info h) taps) (info_event_of all) L G
    (fun _ => True).
Proof.
  induction taps as [|tap rest IH]; intros Hsub; cbn [for_each_tap].
  - apply triple_ret. exact I.
  - eapply triple_bind.
    + eapply triple_events; [apply load_trace_info_triple|].
      intros e He. exists tap. split; [apply Hsub; left | exact He].
    + intros tap' _. eapply triple_bind.
      * apply IH. intros t Ht. apply Hsub. right. exact Ht.
      * intros rest' _. apply triple_ret. exact I.
Qed.

(** On a device whose transfers succeed the loop reaches every tap. *)
Lemma load_loop_total {D} (cb : scope_callback_t D) h (taps : list tap_t) :
  transfers_ok cb -> ∀ w : world D, g_callback w = Some cb ->
  ∃ taps' w', for_each_tap (load_trace_info h) taps w = (inl taps', w').
Proof.
  intros Hok. induction taps as [|tap rest IH]; intros w Hcb; cbn [for_each_tap].
  - eexists _, _. reflexivity.
  - unfold bind at 1. rewrite (load_trace_info_spec cb h tap w Hok Hcb).
    destruct (fst (count_of cb h tap (dev w)) =? 0).
    + destruct (IH (after w (snd (count_of cb h tap (dev w)))
                      [IoWrite (cmd_count (tap_id tap)) 0;
                       IoRead (fst (count_of cb h tap (dev w))) 0] []) Hcb)
        as (rest' & w' & E).
      unfold bind at 1. rewrite E. eexists _, _. reflexivity.
    + destruct (IH (after w (snd (delta_of cb h tap (dev w)))
                      [IoWrite (cmd_count (tap_id tap)) 0;
                       IoRead (fst (count_of cb h tap (dev w))) 0;
                       IoWrite (cmd_get_start (tap_id tap)) 0;
                       IoRead (fst (start_of cb h tap (dev w))) 0;
                       IoWrite (cmd_data (tap_id tap)) 0;
                       IoRead (fst (delta_of cb h tap (dev w))) 0] []) Hcb)
        as (rest' & w' & E).
      unfold bind at 1. rewrite E. eexists _, _. reflexivity.
Qed.

Lemma for_each_tap_middle {D} (f : tap_t → M D tap_t) before tap rest
    (w w1 w2 w3 : world D) before' tap' rest' :
  for_each_tap f before w = (inl before', w1) ->
  f tap w1 = (inl tap', w2) ->
  for_each_tap f rest w2 = (inl rest', w3) ->
  for_each_tap f (before ++ tap :: rest) w = (inl (before' ++ tap' :: rest'), w3).
Proof.
  revert w before'. induction before as [|b before IH]; intros w before' Hb Ht Hr.
  - injection Hb as <- <-. cbn [app for_each_tap]. unfold bind.
    rewrite Ht, Hr. reflexivity.
  - cbn [app for_each_tap] in *. unfold bind at 1 in Hb. unfold bind at 1.
    destruct (f b w) as [[b'|hh] wb]; [|discriminate Hb].
    unfold bind at 1 in Hb. unfold bind at 1.
    destruct (for_each_tap f before wb) as [[bs|hh] wbs] eqn:Ebs; [|discriminate Hb].
    injection Hb as <- <-.
    rewrite (IH wb bs Ebs Ht Hr). reflexivity.
Qed.

(** C6: during the loop of [vx_scope_stop] that loads the trace
    information, on a device whose transfers succeed, the taps before a tap
    are served and then, if the answer to its [GET_COUNT] is not zero,
    exactly one [GET_START] and one [GET_DATA] request and response follow;
    the tap gets [samples = count] (in 32 bits) and
    [cycle_time = 1 + start + delta] (in 64 bits), and the accesses after
    these six belong to the later taps. *)
Theorem trace_info_of_sampled_tap {D} (cb : scope_callback_t D)
    (h : vx_device_h) (before : list tap_t) (tap : tap_t) (rest : list tap_t)
    (w : world D) :
  transfers_ok cb -> g_callback w = Some cb ->
  ∃ before' w1,
    for_each_tap (load_trace_info h) before w = (inl before', w1) ∧
    (fst (count_of cb h tap (dev w1)) ≠ 0 →
     ∃ rest' w3 later,
       for_each_tap (load_trace_info h) (before ++ tap :: rest) w
       = (inl (before'
                 ++ set_trace_info tap (u32 (fst (count_of cb h tap (dev w1))))
                      (u64 (1 + fst (start_of cb h tap (dev w1))
                            + fst (delta_of cb h tap (dev w1))))
                 :: rest'), w3) ∧
       io w3 = io w1
               ++ [IoWrite (cmd_count (tap_id tap)) 0;
                   IoRead (fst (count_of cb h tap (dev w1))) 0;
                   IoWrite (cmd_get_start (tap_id tap)) 0;
                   IoRead (fst (start_of cb h tap (dev w1))) 0;
                   IoWrite (cmd_data (tap_id tap)) 0;
                   IoRead (fst (delta_of cb h tap (dev w1))) 0]
               ++ later ∧
       Forall (info_event_of rest) later).
Proof.
  intros Hok Hcb.
  destruct (load_loop_total cb h before Hok w Hcb) as (before' & w1 & Eb).
  exists before', w1. split; [exact Eb|]. intros Hcount.
  destruct (load_loop_triple h before before (fun _ => True) (fun _ => True)
              ltac:(auto) w _ _ Eb) as [(e1 & l1 & g1 & X1 & _) _].
  assert (g_callback w1 = Some cb) as Hcb1
    by (rewrite (ext_callback _ _ _ _ _ X1); exact Hcb).
  pose proof (load_trace_info_spec cb h tap w1 Hok Hcb1) as Et.
  destruct (Z.eqb_spec (fst (count_of cb h tap (dev w1))) 0) as [|_];
    [contradiction|].
  match type of Et with _ = (_, ?x) => set (w2 := x) in * end.
  assert (g_callback w2 = Some cb) as Hcb2 by exact Hcb1.
  destruct (load_loop_total cb h rest Hok w2 Hcb2) as (rest' & w3 & Er).
  destruct (load_loop_triple h rest rest (fun _ => True) (fun _ => True)
              ltac:(auto) w2 _ _ Er) as [(e3 & l3 & g3 & X3 & He3 & _) _].
  exists rest', w3, e3. split; [|split; [|exact He3]].
  - exact (for_each_tap_middle _ _ _ _ _ _ _ _ _ _ _ Eb Et Er).
  - rewrite (ext_io _ _ _ _ _ X3). unfold w2. simpl.
    rewrite <- !app_assoc. reflexivity.
Qed.

Lemma trace_info_of_sampled_tap_witness :
  transfers_ok scripted /\
  g_callback (session [0; 2; 5; 7] true) = Some scripted /\
  ∃ rest' w3 later,
    for_each_tap (load_trace_info handle) [tap11; tap13]
      (session [0; 2; 5; 7] true)
    = (inl (tap11 :: set_trace_info tap13 2 13 :: rest'), w3) ∧
    io w3 = [IoWrite 9 0; IoRead 0 0]
            ++ [IoWrite 1 0; IoRead 2 0; IoWrite 2 0; IoRead 5 0;
                IoWrite 3 0; IoRead 7 0] ++ later.
Proof.
  split; [exact transfers_ok_scripted|]. split; [reflexivity|].
  destruct (trace_info_of_sampled_tap scripted handle [tap11] tap13 []
              (session [0; 2; 5; 7] true) transfers_ok_scripted eq_refl)
    as (before' & w1 & Eb & Hnz).
  injection Eb as <- <-.
  destruct Hnz as (rest' & w3 & later & E & Hio & _).
  { vm_compute. discriminate. }
  exists rest', w3, later. split.
  - etransitivity; [exact E | reflexivity].
  - etransitivity; [exact Hio | reflexivity].
Defined.

(** ** Taps without samples in the merge loop *)

Lemma triple_weaken {D A} (m : M D A)
    (E E' : io_event → Prop) (L L' : vcd_line → Prop) (G G' : nat * Z → Prop)
    (P P' : A → Prop) :
  triple m E L G P ->
  (∀ e, E e → E' e) -> (∀ l, L l → L' l) -> (∀ g, G g → G' g) ->
  (∀ a, P a → P' a) ->
  triple m E' L' G' P'.
Proof.
  intros Hm HE HL HG HP w r w' Hrun.
  destruct (Hm w r w' Hrun) as [(ev & lines & log & X & He & Hl & Hg) Hp].
  split.
  - exists ev, lines, log. split; [exact X|].
    split; [eapply Forall_impl; eassumption|].
    split; eapply Forall_impl; eassumption.
  - intros a Ha. apply HP, Hp, Ha.
Qed.

Lemma triple_dispatch {D} E L (G : nat * Z → Prop) i t :
  G (i, t) ->
  triple (D:=D) (fun w : world D => (inl tt, upd_dispatched i t w)) E L G
    (fun _ => True).
Proof.
  intros HG w r w' Hrun. injection Hrun as <- <-.
  split; [|intros; exact I].
  exists [], [], [(i, t)]. split.
  - constructor; simpl; rewrite ?app_nil_r; reflexivity.
  - repeat split; repeat constructor. exact HG.
Qed.

Lemma clock_loop_lines taps n : ∀ cur next,
  Forall (body_line taps) (fst (clock_loop n cur next)).
Proof.
  induction n as [|n IH]; intros cur next; cbn [clock_loop]; [constructor|].
  destruct (cur <? next); [|constructor].
  specialize (IH (u64 (cur + 1)) next).
  destruct (clock_loop n (u64 (cur + 1)) next) as [out t]. cbn [fst] in *.
  repeat (constructor; [exact I|]). exact IH.
Qed.

Lemma advance_clock_lines taps cur next :
  Forall (body_line taps) (fst (advance_clock cur next)).
Proof.
  unfold advance_clock.
  assert (Forall (body_line taps) (fst (skip_gap cur next))) as H1.
  { unfold skip_gap. destruct (MAX_DELAY_CYCLES <? u64 (next - cur)); cbn [fst].
    - repeat (constructor; [exact I|]). constructor.
    - constructor. }
  destruct (skip_gap cur next) as [out1 t1]. cbn [fst] in H1.
  pose proof (clock_loop_lines taps (Z.to_nat (next - t1)) t1 next) as H2.
  destruct (clock_loop (Z.to_nat (next - t1)) t1 next) as [out2 t2].
  cbn [fst] in *. apply Forall_app. split; assumption.
Qed.

Lemma progressed_same tap tap' :
  tap' = tap ∨ progressed tap tap' ->
  tap_id tap' = tap_id tap ∧ samples tap' = samples tap ∧
  signals tap' = signals tap.
Proof. intros [->|[t ->]]; repeat split; reflexivity. Qed.

Lemma elem_of_insert_inv (taps : list tap_t) i tap' t :
  t ∈ <[i := tap']> taps -> t ∈ taps ∨ t = tap'.
Proof.
  intros Ht. apply list_elem_of_lookup in Ht as [j Hj].
  destruct (decide (i = j)) as [->|Hne].
  - destruct (decide (j < length taps)%nat).
    + rewrite list_lookup_insert_eq in Hj by assumption.
      right. congruence.
    + rewrite list_insert_ge in Hj by lia.
      left. eapply list_elem_of_lookup_2; eassumption.
  - rewrite list_lookup_insert_ne in Hj by assumption.
    left. eapply list_elem_of_lookup_2; eassumption.
Qed.

Section MergeSampled.
Context {D : Type} (hdevice : vx_device_h).

Lemma sampled_after_dump taps i tap tap' :
  taps !! i = Some tap ->
  tap' = tap ∨ progressed tap tap' ->
  (∀ e, sampled_event (<[i := tap']> taps) e → sampled_event taps e) ∧
  (∀ l, body_line (<[i := tap']> taps) l → body_line taps l) ∧
  (∀ g, sampled_dispatch (<[i := tap']> taps) g → sampled_dispatch taps g).
Proof.
  intros Htap Hp. destruct (progressed_same _ _ Hp) as (Hid & Hs & Hsig).
  pose proof (list_elem_of_lookup_2 _ _ _ Htap) as Hin.
  split; [|split].
  - intros e (t & Ht & Hn & He).
    apply elem_of_insert_inv in Ht as [Ht | ->].
    + exists t. auto.
    + exists tap. rewrite <- Hid, <- Hs. auto.
  - intros [] Hl; simpl in *; try exact Hl.
    destruct Hl as (t & Ht & Hn & Hi).
    apply elem_of_insert_inv in Ht as [Ht | ->].
    + exists t. auto.
    + exists tap. rewrite <- Hsig, <- Hs. auto.
  - intros [j t'] (t & Ht & Hn). simpl in *.
    destruct (decide (i = j)) as [->|Hne].
    + exists tap. split; [exact Htap|].
      rewrite list_lookup_insert_eq in Ht
        by (eapply lookup_lt_Some; eassumption).
      injection Ht as <-. congruence.
    + rewrite list_lookup_insert_ne in Ht by assumption.
      exists t. auto.
Qed.

(** The merge loop serves taps with samples only, and hands back the taps
    without samples as they were. *)
Lemma dump_taps_triple words fuel : ∀ i taps cur,
  find_earliest_tap taps = Some i ->
  triple (D:=D) (dump_taps words fuel hdevice i taps cur)
    (sampled_event taps) (body_line taps) (sampled_dispatch taps)
    (fun r => untouched taps (fst r)).
Proof.
  induction fuel as [|fuel IH]; intros i taps cur Hfind; cbn [dump_taps].
  { apply triple_stop. }
  destruct (find_earliest_tap_some taps i Hfind) as (tap & Htap & Hdata & _).
  apply has_data_spec in Hdata as [Hsamples _].
  pose proof (list_elem_of_lookup_2 _ _ _ Htap) as Hin.
  rewrite Htap. cbn [lift_ub].
  eapply triple_bind; [apply (triple_ret _ _ _ tap (fun t => t = tap)); reflexivity|].
  intros ? ->.
  eapply triple_bind.
  { apply triple_dispatch. exists tap. split; assumption. }
  intros _ _.
  pose proof (advance_clock_lines taps cur (cycle_time tap)) as Hclock.
  destruct (advance_clock cur (cycle_time tap)) as [lines cur']. cbn [fst] in Hclock.
  eapply triple_bind; [apply triple_emit; exact Hclock|].
  intros _ _.
  eapply triple_bind.
  { eapply (triple_weaken _ _ _ _ _ _ _ _ _
              (dump_tap_triple hdevice tap (fun _ => False) words)).
    - intros e He. exists tap. auto.
    - intros [] Hl; simpl in *; try contradiction. exists tap. auto.
    - intros g [].
    - intros a Ha. exact Ha. }
  intros tap' Hp.
  destruct (sampled_after_dump taps i tap tap' Htap Hp) as (HE & HL & HG).
  assert (untouched taps (<[i := tap']> taps)) as Hun.
  { intros j t Hj Hz. destruct (decide (i = j)) as [->|Hne].
    - congruence.
    - rewrite list_lookup_insert_ne by assumption. exact Hj. }
  destruct (find_earliest_tap (<[i:=tap']> taps)) as [j|] eqn:Hnext.
  - eapply triple_weaken; [apply (IH j _ cur' Hnext) | exact HE | exact HL | exact HG |].
    intros [taps'' c] Hun2. simpl in *.
    intros k t Hk Hz. apply Hun2; [apply Hun; assumption | exact Hz].
  - apply triple_ret. exact Hun.
Qed.
End MergeSampled.

(** ** The session across the statements of a stop *)

Lemma same_session_refl {D} (w : world D) : same_session w w.
Proof. repeat split. Qed.

Lemma same_session_trans {D} (w1 w2 w3 : world D) :
  same_session w1 w2 -> same_session w2 w3 -> same_session w1 w3.
Proof. intros (? & ? & ?) (? & ? & ?). repeat split; congruence. Qed.

Lemma keeps_ret {D A} (a : A) : keeps (D:=D) (ret a).
Proof. intros w r w' H. injection H as <- <-. apply same_session_refl. Qed.

Lemma keeps_stop_with {D A} (h : halt) : keeps (D:=D) (A:=A) (stop_with h).
Proof. intros w r w' H. injection H as <- <-. apply same_session_refl. Qed.

Lemma keeps_bind {D A B} (m : M D A) (k : A → M D B) :
  keeps m -> (∀ a, keeps (k a)) -> keeps (bind m k).
Proof.
  intros Hm Hk w r w' Hrun. unfold bind in Hrun.
  destruct (m w) as [[a|h] w1] eqn:Em.
  - eapply same_session_trans; [eapply Hm | eapply Hk]; eassumption.
  - injection Hrun as <- <-. eapply Hm; eassumption.
Qed.

Lemma keeps_of_triple {D A} (m : M D A) E L G P :
  triple m E L G P -> keeps m.
Proof.
  intros Hm w r w' Hrun.
  destruct (Hm w r w' Hrun) as [(ev & lines & log & X & _) _].
  destruct X. repeat split; assumption.
Qed.

Lemma keeps_truncate {D} : keeps (D:=D) (fun w => (inl tt, upd_vcd [] w)).
Proof. intros w r w' H. injection H as <- <-. repeat split. Qed.

Lemma keeps_stop_and_dump {D} iteration_order fuel env hdevice :
  keeps (D:=D) (stop_and_dump iteration_order fuel env hdevice).
Proof.
  unfold stop_and_dump.
  apply keeps_bind.
  { destruct (manifest_json env);
      [apply keeps_stop_with | apply keeps_stop_with | apply keeps_ret]. }
  intros taps. apply keeps_bind.
  { eapply keeps_of_triple.
    apply (triple_for_each (fun _ => True) (fun _ => True) (fun _ => True)).
    intros tap _. apply triple_reg_write. intros; exact I. }
  intros _. apply keeps_bind.
  { eapply keeps_of_triple.
    apply (load_loop_triple hdevice taps taps (fun _ => True) (fun _ => True)).
    auto. }
  intros taps'. apply keeps_bind; [apply keeps_truncate|].
  intros _. apply keeps_bind.
  { destruct (dump_header iteration_order fuel taps');
      [apply keeps_ret | apply keeps_stop_with]. }
  intros header. apply keeps_bind.
  { eapply keeps_of_triple.
    apply (triple_emit (fun _ => True) (fun _ => True) (fun _ => True)).
    apply Forall_forall. intros; exact I. }
  intros _.
  destruct (find_earliest_tap taps') as [i|] eqn:Hfind; [|apply keeps_ret].
  apply keeps_bind.
  { eapply keeps_of_triple. apply dump_taps_triple. exact Hfind. }
  intros [taps'' cur]. eapply keeps_of_triple.
  apply (triple_emit (fun _ => True) (fun _ => True) (fun _ => True)).
  apply Forall_forall. intros; exact I.
Qed.

(** A stop that returns leaves the session not running. *)
Lemma stop_clears_running {D} iteration_order fuel env h (w : world D) r w1 :
  vx_scope_stop iteration_order fuel env (Some h) w = (r, w1) ->
  g_running w1 = false.
Proof.
  unfold vx_scope_stop, call, vx_scope_stop_body.
  unfold bind at 1. cbn [fst snd].
  destruct (g_running w) eqn:Hrun; cbn [negb].
  - unfold bind at 1.
    destruct (stop_and_dump iteration_order fuel env (Some h) (upd_running false w))
      as [[[]|hh] w'] eqn:E; intros Hr; injection Hr as _ <-;
      destruct (keeps_stop_and_dump _ _ _ _ _ _ _ E) as (Hk & _); exact Hk.
  - intros Hr. injection Hr as _ <-. exact Hrun.
Qed.

Lemma stop_when_not_running {D} iteration_order fuel env h (w : world D) :
  g_running w = false ->
  vx_scope_stop iteration_order fuel env (Some h) w = (Status 0, w).
Proof.
  intros Hrun. unfold vx_scope_stop, call, vx_scope_stop_body.
  unfold bind at 1. rewrite Hrun. reflexivity.
Qed.

(** C3: after a call of Stop with a device handle has returned, a further
    call with a device handle returns 0 and leaves everything as it is: no
    register is written or read and the file is not touched. *)
Theorem stop_again_is_noop {D} iteration_order fuel env h (w : world D)
    status w1 iteration_order' fuel' env' h' :
  vx_scope_stop iteration_order fuel env (Some h) w = (Status status, w1) ->
  vx_scope_stop iteration_order' fuel' env' (Some h') w1 = (Status 0, w1).
Proof.
  intros Hfirst. apply stop_when_not_running.
  eapply stop_clears_running. exact Hfirst.
Qed.

Lemma stop_again_is_noop_witness :
  vx_scope_stop elements 10 manifest2 handle (session stop_script true)
  = (Status 0,
     snd (vx_scope_stop elements 10 manifest2 handle (session stop_script true)))
  /\
  vx_scope_stop elements 10 manifest2 handle
    (snd (vx_scope_stop elements 10 manifest2 handle (session stop_script true)))
  = (Status 0,
     snd (vx_scope_stop elements 10 manifest2 handle (session stop_script true))).
Proof.
  assert (vx_scope_stop elements 10 manifest2 handle (session stop_script true)
          = (Status 0,
             snd (vx_scope_stop elements 10 manifest2 handle
                    (session stop_script true)))) as Hfirst
    by (vm_compute; reflexivity).
  split; [exact Hfirst|].
  exact (stop_again_is_noop elements 10 manifest2 1%N (session stop_script true)
           0 _ elements 10 manifest2 1%N Hfirst).
Defined.

(** ** Input errors *)

(** C8, as the code has it.  Start returns -1 at once, and leaves
    everything as it is, when the device handle or the callback is nil, when
    the manifest cannot be opened, or when it is read as null.  Stop returns
    -1 at once, and leaves everything as it is, when the device handle is
    nil; when the manifest is read as null, a running session's Stop
    returns 0 after it has cleared the running flag, without any register
    access and without touching the file. *)
Theorem input_errors {D} iteration_order fuel env
    (callback : option (scope_callback_t D)) (hdevice : vx_device_h)
    (start_time stop_time : Z) (w : world D) :
  (hdevice = None ∨ callback = None ∨ manifest_opens env = false ∨
   manifest_json env = ParseNull →
   vx_scope_start env callback hdevice start_time stop_time w = (Status (-1), w)) ∧
  vx_scope_stop iteration_order fuel env None w = (Status (-1), w) ∧
  (hdevice ≠ None → g_running w = true → manifest_json env = ParseNull →
   vx_scope_stop iteration_order fuel env hdevice w
   = (Status 0, upd_running false w) ∧
   untouched_device w (upd_running false w)).
Proof.
  split; [|split].
  - intros H. unfold vx_scope_start, call, vx_scope_start_body.
    destruct hdevice as [h|]; [|reflexivity].
    destruct callback as [cb|]; [|reflexivity].
    destruct (manifest_opens env); [|reflexivity]. cbn [negb].
    destruct H as [H | [H | [H | H]]]; try discriminate H.
    rewrite H. reflexivity.
  - reflexivity.
  - intros Hh Hrun Hnull.
    destruct hdevice as [h|]; [|contradiction].
    split; [|repeat split].
    unfold vx_scope_stop, call, vx_scope_stop_body.
    unfold bind at 1. rewrite Hrun. cbn [negb].
    unfold bind at 1. unfold stop_and_dump. rewrite Hnull. reflexivity.
Qed.

Lemma input_errors_witness :
  vx_scope_start null_manifest (Some scripted) handle 0 0 (session [] false)
  = (Status (-1), session [] false) /\
  vx_scope_stop elements 1 null_manifest None (session [] true)
  = (Status (-1), session [] true) /\
  vx_scope_stop elements 1 null_manifest handle (session [] true)
  = (Status 0, session [] false).
Proof.
  destruct (input_errors elements 1 null_manifest (Some scripted) handle 0 0
              (session [] false)) as (Hstart & _ & _).
  destruct (input_errors elements 1 null_manifest (Some scripted) handle 0 0
              (session [] true)) as (_ & Hnil & Hnull).
  split; [apply Hstart; right; right; right; reflexivity|].
  split; [exact Hnil|].
  apply Hnull; [discriminate | reflexivity | reflexivity].
Defined.

(** C8 as stated, for Stop: with a manifest read as null the status is 0. *)
Lemma stop_null_manifest_succeeds :
  fst (vx_scope_stop elements 1 null_manifest handle (session [] true))
  = Status 0 /\
  fst (vx_scope_stop elements 1 null_manifest handle (session [] true))
  <> Status (-1) /\
  (forall status, status <> 0 ->
     fst (vx_scope_stop elements 1 null_manifest handle (session [] true))
     <> Status status).
Proof.
  split; [reflexivity|]. split; [discriminate|].
  intros status Hne E. injection E as E. congruence.
Qed.

(** ** A stop that finds no samples *)

Lemma reg_write_ok {D} (cb : scope_callback_t D) h v (w : world D) d ev :
  transfers_ok cb -> g_callback w = Some cb ->
  ∃ d', reg_write h v (after w d ev []) = (inl tt, after w d' (ev ++ [IoWrite v 0]) []).
Proof.
  intros [Hw _] Hcb. unfold reg_write.
  change (g_callback (after w d ev [])) with (g_callback w). rewrite Hcb.
  change (dev (after w d ev [])) with d.
  specialize (Hw h v d). destruct (registerWrite cb h v d) as [e d'].
  simpl in Hw. subst e. exists d'. cbn [Z.eqb]. rewrite upd_dev_after. reflexivity.
Qed.

Lemma set_stop_total {D} (cb : scope_callback_t D) h (taps : list tap_t)
    (w : world D) :
  transfers_ok cb -> g_callback w = Some cb -> ∀ d ev,
  ∃ d', for_each (fun tap => reg_write h (cmd_stop_now (tap_id tap))) taps
          (after w d ev [])
        = (inl tt, after w d' (ev ++ stop_events taps) []).
Proof.
  intros Hok Hcb. induction taps as [|tap rest IH]; intros d ev; cbn [for_each].
  - exists d. unfold stop_events. simpl. rewrite app_nil_r. reflexivity.
  - destruct (reg_write_ok cb h (cmd_stop_now (tap_id tap)) w d ev Hok Hcb)
      as [d1 E1].
    destruct (IH d1 (ev ++ [IoWrite (cmd_stop_now (tap_id tap)) 0])) as [d' E].
    exists d'. unfold bind. rewrite E1, E. unfold stop_events. simpl.
    rewrite <- app_assoc. reflexivity.
Qed.

Lemma load_loop_zero {D} (cb : scope_callback_t D) h (taps : list tap_t)
    (w : world D) :
  transfers_ok cb -> reads_zero cb -> g_callback w = Some cb -> ∀ d ev,
  ∃ d', for_each_tap (load_trace_info h) taps (after w d ev [])
        = (inl taps, after w d' (ev ++ count_events taps) []).
Proof.
  intros Hok Hzero Hcb. induction taps as [|tap rest IH]; intros d ev;
    cbn [for_each_tap].
  - exists d. unfold count_events. simpl. rewrite app_nil_r. reflexivity.
  - unfold bind at 1.
    rewrite (load_trace_info_spec cb h tap (after w d ev []) Hok Hcb).
    change (dev (after w d ev [])) with d.
    assert (fst (count_of cb h tap d) = 0) as Hc by apply Hzero.
    rewrite Hc. cbn [Z.eqb]. rewrite after_after.
    destruct (IH (snd (count_of cb h tap d))
                (ev ++ [IoWrite (cmd_count (tap_id tap)) 0; IoRead 0 0]))
      as [d' E].
    exists d'. unfold bind at 1. cbn [app]. rewrite E. unfold count_events.
    simpl. rewrite <- app_assoc. reflexivity.
Qed.

Lemma read_signals_next l : ∀ s, ∃ sigs next, read_signals s l = (sigs, next).
Proof. intros s. destruct (read_signals s l). eauto. Qed.

Lemma read_taps_samples l : ∀ s, Forall (fun t => samples t = 0) (read_taps s l).
Proof.
  induction l as [|tap rest IH]; intros s; cbn [read_taps]; [constructor|].
  destruct (read_signals s (json_signals tap)) as [sigs next].
  constructor; [reflexivity | apply IH].
Qed.

Lemma find_earliest_from_empty taps : ∀ i e,
  Forall (fun t => samples t = 0) taps -> find_earliest_from i taps e = e.
Proof.
  induction taps as [|tap rest IH]; intros i e H; [reflexivity|].
  inversion H as [|? ? Hz Hrest]; subst.
  cbn [find_earliest_from]. rewrite Hz. cbn [Z.eqb]. apply IH, Hrest.
Qed.

Lemma find_earliest_tap_empty taps :
  Forall (fun t => samples t = 0) taps -> find_earliest_tap taps = None.
Proof.
  intros H. unfold find_earliest_tap.
  rewrite find_earliest_from_empty by assumption. reflexivity.
Qed.

Lemma stop_without_samples {D} (cb : scope_callback_t D) iteration_order fuel
    env a l (w : world D) header :
  transfers_ok cb -> reads_zero cb ->
  g_callback w = Some cb -> g_running w = true ->
  manifest_json env = ParseTaps l ->
  dump_header iteration_order fuel (read_taps 1 l) = inl header ->
  ∃ w', vx_scope_stop iteration_order fuel env (Some a) w = (Status 0, w') ∧
        scope_vcd w' = header ∧
        io w' = io w ++ stop_events (read_taps 1 l)
                  ++ count_events (read_taps 1 l) ∧
        dispatched w' = dispatched w.
Proof.
  intros Hok Hzero Hcb Hrun Hjson Hheader.
  unfold vx_scope_stop, call, vx_scope_stop_body.
  unfold bind at 1. rewrite Hrun. cbn [negb fst snd].
  unfold bind at 1. unfold stop_and_dump. rewrite Hjson.
  unfold bind at 1. cbn [ret].
  set (wr := upd_running false w).
  assert (g_callback wr = Some cb) as Hcbr by exact Hcb.
  rewrite <- (after_nil wr).
  destruct (set_stop_total cb (Some a) (read_taps 1 l) wr Hok Hcbr (dev wr) [])
    as [d1 E1].
  unfold bind at 1. rewrite E1.
  destruct (load_loop_zero cb (Some a) (read_taps 1 l) wr Hok Hzero Hcbr d1
              ([] ++ stop_events (read_taps 1 l))) as [d2 E2].
  unfold bind at 1. rewrite E2.
  unfold bind at 1. rewrite Hheader. unfold bind at 1. cbn [ret].
  unfold bind at 1. unfold emit.
  rewrite (find_earliest_tap_empty _ (read_taps_samples l 1)).
  eexists. split; [reflexivity|]. cbn.
  split; [reflexivity|]. split; reflexivity.
Qed.

(** ** Signal identifiers *)

Lemma read_signals_ids l : ∀ s,
  0 <= s -> s + Z.of_nat (length l) < 2 ^ 32 ->
  map sig_id (fst (read_signals s l)) = seqZ s (Z.of_nat (length l)) ∧
  snd (read_signals s l) = s + Z.of_nat (length l).
Proof.
  induction l as [|[name width] rest IH]; intros s H0 Hn.
  - simpl. split; [reflexivity | lia].
  - cbn [read_signals]. cbn [length] in *.
    rewrite (u32_small (s + 1)) by lia.
    destruct (IH (s + 1) ltac:(lia) ltac:(lia)) as [Hids Hnext].
    destruct (read_signals (s + 1) rest) as [sigs next].
    cbn [fst snd map sig_id] in *. rewrite seqZ_cons'.
    split; [rewrite Hids; reflexivity | lia].
Qed.

(** The identifiers given by [vx_scope_stop] are 1, 2, 3, ... in the order
    of the manifest. *)
Lemma read_taps_ids l : ∀ s,
  0 <= s -> s + signal_count l < 2 ^ 32 ->
  all_ids (read_taps s l) = seqZ s (signal_count l).
Proof.
  unfold all_ids, signal_count.
  induction l as [|tap rest IH]; intros s H0 Hn.
  - reflexivity.
  - cbn [read_taps map concat] in *. rewrite length_app, Nat2Z.inj_add in *.
    assert (0 <= Z.of_nat (length (concat (map json_signals rest)))) by lia.
    destruct (read_signals_ids (json_signals tap) s H0 ltac:(lia)) as [Hids Hnext].
    destruct (read_signals s (json_signals tap)) as [sigs next].
    cbn [fst snd] in *. subst next.
    cbn [map concat signals]. rewrite Hids, IH by lia.
    rewrite seqZ_app by lia. reflexivity.
Qed.

Lemma read_taps_ids_distinct l :
  1 + signal_count l < 2 ^ 32 -> NoDup (all_ids (read_taps 1 l)).
Proof. intros H. rewrite read_taps_ids by lia. apply NoDup_seqZ. Qed.

Lemma all_ids_split (taps : list tap_t) j tap :
  taps !! j = Some tap ->
  all_ids taps
  = all_ids (take j taps) ++ map sig_id (signals tap) ++ all_ids (drop (S j) taps).
Proof.
  intros Hj. rewrite <- (take_drop_middle taps j tap Hj) at 1.
  unfold all_ids. rewrite map_app, concat_app. reflexivity.
Qed.

Lemma all_ids_elem (taps : list tap_t) t i :
  t ∈ taps -> i ∈ map sig_id (signals t) -> i ∈ all_ids taps.
Proof.
  intros Ht Hi. unfold all_ids. apply list_elem_of_In, in_concat.
  exists (map sig_id (signals t)). split; [|apply list_elem_of_In, Hi].
  apply in_map_iff. exists t. split; [reflexivity | apply list_elem_of_In, Ht].
Qed.

(** With distinct identifiers, no line of the body is a value line of a tap
    without samples. *)
Lemma no_line_of_empty_tap (taps : list tap_t) j tap lines :
  NoDup (all_ids taps) ->
  taps !! j = Some tap -> samples tap = 0 ->
  Forall (body_line taps) lines ->
  Forall (fun l => ¬ value_line tap l) lines.
Proof.
  intros Hnd Hj Hz Hlines. eapply Forall_impl; [exact Hlines|].
  intros [] Hl Hv; simpl in *; try contradiction.
  destruct Hl as (t & Ht & Hn & Hi).
  rewrite (all_ids_split taps j tap Hj) in Hnd.
  apply NoDup_app in Hnd as (_ & Hbefore & Hnd).
  apply NoDup_app in Hnd as (_ & Hafter & _).
  rewrite <- (take_drop_middle taps j tap Hj) in Ht.
  apply elem_of_app in Ht as [Ht | Ht].
  - apply (Hbefore id (all_ids_elem _ _ _ Ht Hi)).
    apply elem_of_app. left. exact Hv.
  - apply elem_of_cons in Ht as [-> | Ht]; [contradiction|].
    apply (Hafter id Hv). exact (all_ids_elem _ _ _ Ht Hi).
Qed.

(** C7.  On a device whose transfers succeed: (1) a tap whose [GET_COUNT]
    is answered by 0 is left as it is, with [samples = 0], after this one
    request and response, with no [GET_START] and no [GET_DATA]; (2) the
    scheduler never returns a tap with [samples = 0]; (3) in every run of
    the merge loop every dispatch, every register access and every value
    line is of a tap with samples, a tap without samples is handed back
    unchanged, and, the identifiers being distinct as [vx_scope_stop] gives
    them, none of its sub-signals has a line in the body; (4) when no tap
    has a sample, Stop returns 0 and the file holds the header only. *)
Theorem empty_tap_excluded {D} (cb : scope_callback_t D) (a : N) :
  transfers_ok cb ->
  (∀ tap (w : world D),
     g_callback w = Some cb → fst (count_of cb (Some a) tap (dev w)) = 0 →
     load_trace_info (Some a) tap w
     = (inl tap,
        after w (snd (count_of cb (Some a) tap (dev w)))
          [IoWrite (cmd_count (tap_id tap)) 0; IoRead 0 0] [])) ∧
  (∀ taps i tap,
     find_earliest_tap taps = Some i → taps !! i = Some tap → samples tap ≠ 0) ∧
  (∀ words fuel i taps cur (w : world D) r w',
     find_earliest_tap taps = Some i →
     dump_taps words fuel (Some a) i taps cur w = (r, w') →
     ∃ ev lines log,
       extends w w' ev lines log ∧
       Forall (sampled_event taps) ev ∧ Forall (body_line taps) lines ∧
       Forall (sampled_dispatch taps) log ∧
       (∀ taps' c, r = inl (taps', c) → untouched taps taps') ∧
       (NoDup (all_ids taps) →
        ∀ j tap, taps !! j = Some tap → samples tap = 0 →
          Forall (fun l => ¬ value_line tap l) lines)) ∧
  (∀ l, 1 + signal_count l < 2 ^ 32 → NoDup (all_ids (read_taps 1 l))) ∧
  (∀ iteration_order fuel env l (w : world D) header,
     reads_zero cb → g_callback w = Some cb → g_running w = true →
     manifest_json env = ParseTaps l →
     dump_header iteration_order fuel (read_taps 1 l) = inl header →
     ∃ w', vx_scope_stop iteration_order fuel env (Some a) w = (Status 0, w') ∧
           scope_vcd w' = header ∧
           io w' = io w ++ stop_events (read_taps 1 l)
                     ++ count_events (read_taps 1 l) ∧
           dispatched w' = dispatched w).
Proof.
  intros Hok. split; [|split; [|split; [|split]]].
  - intros tap w Hcb Hzero.
    rewrite (load_trace_info_spec cb (Some a) tap w Hok Hcb), Hzero.
    reflexivity.
  - intros taps i tap Hfind Htap.
    destruct (find_earliest_tap_some taps i Hfind) as (tap0 & Htap0 & Hdata & _).
    assert (tap0 = tap) as -> by congruence.
    apply has_data_spec in Hdata. tauto.
  - intros words fuel i taps cur w r w' Hfind Hrun.
    destruct (dump_taps_triple (Some a) words fuel i taps cur Hfind w r w' Hrun)
      as [(ev & lines & log & X & He & Hl & Hg) HP].
    exists ev, lines, log.
    split; [exact X|]. split; [exact He|]. split; [exact Hl|].
    split; [exact Hg|]. split.
    + intros taps' c Hr. apply (HP _ Hr).
    + intros Hnd j tap Hj Hz.
      eapply no_line_of_empty_tap; eassumption.
  - apply read_taps_ids_distinct.
  - intros iteration_order fuel env l w header Hzero Hcb Hrun Hjson Hheader.
    eapply stop_without_samples; eassumption.
Qed.

Lemma transfers_ok_idle : transfers_ok idle.
Proof. split; intros; reflexivity. Qed.

Lemma empty_tap_excluded_witness :
  transfers_ok scripted /\ transfers_ok idle /\
  load_trace_info handle tap11 (session [0; 2] true)
  = (inl tap11, after (session [0; 2] true) [2] [IoWrite 9 0; IoRead 0 0] []) /\
  (∃ w', vx_scope_stop elements 3 manifest2 handle idle_session = (Status 0, w') ∧
         io w' = [IoWrite 5 0; IoWrite 13 0;
                  IoWrite 1 0; IoRead 0 0; IoWrite 9 0; IoRead 0 0] ∧
         map render (scope_vcd w') = header_text (read_taps 1
           [ {| json_id := 0; json_width := 4; json_path := "top.tap";
                json_signals := [("a"%string, 1); ("b"%string, 3)] |};
             {| json_id := 1; json_width := 2; json_path := "top.tap2";
                json_signals := [("c"%string, 1); ("d"%string, 1)] |} ]) ∧
         dispatched w' = []) /\
  fst (vx_scope_stop elements 10 manifest2 handle (session empty_tap_script true))
  = Status 0 /\
  dispatched (snd (vx_scope_stop elements 10 manifest2 handle
                     (session empty_tap_script true)))
  = [(0%nat, 6); (0%nat, 11)] /\
  io (snd (vx_scope_stop elements 10 manifest2 handle
             (session empty_tap_script true)))
  = [IoWrite 5 0; IoWrite 13 0;
     IoWrite 1 0; IoRead 2 0; IoWrite 2 0; IoRead 5 0; IoWrite 3 0; IoRead 0 0;
     IoWrite 9 0; IoRead 0 0;
     IoWrite 3 0; IoRead 11 0; IoWrite 3 0; IoRead 4 0; IoWrite 3 0; IoRead 13 0] /\
  List.filter (fun l => match l with LValue _ _ => true | _ => false end)
    (scope_vcd (snd (vx_scope_stop elements 10 manifest2 handle
                       (session empty_tap_script true))))
  = [LValue "011" 2; LValue "1" 1; LValue "101" 2; LValue "1" 1].
Proof.
  split; [exact transfers_ok_scripted|]. split; [exact transfers_ok_idle|].
  split.
  { apply (proj1 (empty_tap_excluded scripted 1%N transfers_ok_scripted));
      reflexivity. }
  split.
  { destruct (empty_tap_excluded idle 1%N transfers_ok_idle)
      as (_ & _ & _ & _ & Hstop).
    destruct (dump_header elements 3
                (read_taps 1
                   [ {| json_id := 0; json_width := 4; json_path := "top.tap";
                        json_signals := [("a"%string, 1); ("b"%string, 3)] |};
                     {| json_id := 1; json_width := 2; json_path := "top.tap2";
                        json_signals := [("c"%string, 1); ("d"%string, 1)] |} ]))
      as [header|hh] eqn:Hheader; [|vm_compute in Hheader; discriminate Hheader].
    destruct (Hstop elements 3%nat manifest2 _ idle_session header
                ltac:(intros h d; reflexivity) eq_refl eq_refl eq_refl Hheader)
      as (w' & E & Hvcd & Hio & Hlog).
    exists w'. split; [exact E|]. split; [exact Hio|].
    split; [|exact Hlog].
    unfold header_text. rewrite Hheader, Hvcd. reflexivity. }
  repeat split; vm_compute; reflexivity.
Defined.

(** ** The hierarchy of the header *)

Lemma iteration_singleton (iteration_order : gset string → list string) (x : string) :
  (∀ s, iteration_order s ≡ₚ elements s) ->
  iteration_order {[ x ]} = [x].
Proof.
  intros H. apply Permutation_singleton_r.
  rewrite (H {[ x ]}), elements_singleton. reflexivity.
Qed.

Lemma iteration_pair (iteration_order : gset string → list string) (x y : string) :
  (∀ s, iteration_order s ≡ₚ elements s) -> x ≠ y ->
  iteration_order ({[ x ]} ∪ {[ y ]}) = [x; y] ∨
  iteration_order ({[ x ]} ∪ {[ y ]}) = [y; x].
Proof.
  intros H Hne.
  assert (iteration_order ({[ x ]} ∪ {[ y ]}) ≡ₚ [x; y]) as Hp.
  { rewrite (H ({[ x ]} ∪ {[ y ]})).
    rewrite elements_disj_union by set_solver.
    rewrite !elements_singleton. reflexivity. }
  symmetry in Hp. apply Permutation_length_2_inv in Hp as [E | E]; auto.
Qed.

Lemma dump_module_leaf iteration_order fuel name
    (hierarchy : gmap string (gset string)) (tails : gmap string tap_t) n tap :
  tails !! name = Some tap -> hierarchy !! name = None ->
  dump_module iteration_order (S fuel) name hierarchy tails n
  = Some (leaf_scope n name tap).
Proof.
  intros Ht Hh. cbn [dump_module]. rewrite Ht, Hh. reflexivity.
Qed.

Lemma dump_module_node iteration_order fuel name
    (hierarchy : gmap string (gset string)) (tails : gmap string tap_t) n set
    children :
  tails !! name = None -> hierarchy !! name = Some set ->
  mapM (fun child => dump_module iteration_order fuel child hierarchy tails (S n))
       (iteration_order set) = Some children ->
  dump_module iteration_order (S fuel) name hierarchy tails n
  = Some ([LScope n name] ++ concat children ++ [LUpscope n]).
Proof.
  intros Ht Hh Hc. cbn [dump_module]. rewrite Ht, Hh, Hc. reflexivity.
Qed.

Lemma hierarchy_of_two_taps (t1 t2 : tap_t) taps :
  path t1 = "cpu.core.reg"%string -> path t2 = "cpu.core.alu"%string ->
  taps = [t1; t2] ∨ taps = [t2; t1] ->
  build_hierarchy taps (∅, ∅, ∅)
  = Some (<[ "core"%string := {[ "reg"%string ]} ∪ {[ "alu"%string ]} ]>
            (<[ "cpu"%string := {[ "core"%string ]} ]> ∅),
          {[ "cpu"%string ]},
          <[ "alu"%string := t2 ]> (<[ "reg"%string := t1 ]> ∅)).
Proof.
  intros Hp1 Hp2 [-> | ->]; cbn [build_hierarchy]; rewrite Hp1, Hp2;
    vm_compute; reflexivity.
Qed.

(** C9: for the two taps with the paths [cpu.core.reg] and [cpu.core.alu],
    in either order and whatever order the unordered containers iterate in,
    the header declares under [TOP] the single scope [cpu], in it the single
    scope [core], and in it the two scopes [reg] and [alu] (in one order or
    the other), each holding the [$var wire] lines of the sub-signals of its
    tap. *)
Theorem header_of_two_taps (iteration_order : gset string → list string)
    (t1 t2 : tap_t) (taps : list tap_t) (fuel : nat) :
  (∀ s, iteration_order s ≡ₚ elements s) ->
  path t1 = "cpu.core.reg"%string -> path t2 = "cpu.core.alu"%string ->
  taps = [t1; t2] ∨ taps = [t2; t1] ->
  (3 <= fuel)%nat ->
  ∃ leaves,
    (leaves = leaf_scope 3 "reg" t1 ++ leaf_scope 3 "alu" t2 ∨
     leaves = leaf_scope 3 "alu" t2 ++ leaf_scope 3 "reg" t1) ∧
    dump_header iteration_order fuel taps
    = inl (header_preamble
             ++ ([LScope 1 "cpu"]
                   ++ ([LScope 2 "core"] ++ leaves ++ [LUpscope 2])
                   ++ [LUpscope 1])
             ++ header_end).
Proof.
  intros Hperm Hp1 Hp2 Htaps Hfuel.
  destruct fuel as [|[|[|fuel]]]; try lia.
  set (hierarchy := <[ "core"%string := {[ "reg"%string ]} ∪ {[ "alu"%string ]} ]>
                      (<[ "cpu"%string := {[ "core"%string ]} ]> ∅)
                    : gmap string (gset string)).
  set (tails := <[ "alu"%string := t2 ]> (<[ "reg"%string := t1 ]> ∅)
                : gmap string tap_t).
  assert (dump_module iteration_order (S fuel) "reg" hierarchy tails 3
          = Some (leaf_scope 3 "reg" t1)) as Hreg.
  { apply dump_module_leaf; vm_compute; reflexivity. }
  assert (dump_module iteration_order (S fuel) "alu" hierarchy tails 3
          = Some (leaf_scope 3 "alu" t2)) as Halu.
  { apply dump_module_leaf; vm_compute; reflexivity. }
  assert (∃ leaves children,
            (leaves = leaf_scope 3 "reg" t1 ++ leaf_scope 3 "alu" t2 ∨
             leaves = leaf_scope 3 "alu" t2 ++ leaf_scope 3 "reg" t1) ∧
            concat children = leaves ∧
            mapM (fun child =>
                    dump_module iteration_order (S fuel) child hierarchy tails 3)
                 (iteration_order ({[ "reg"%string ]} ∪ {[ "alu"%string ]}))
            = Some children) as (leaves & children & Hleaves & Hconcat & Hmap).
  { destruct (iteration_pair iteration_order "reg" "alu" Hperm ltac:(discriminate))
      as [E | E]; rewrite E; cbn [mapM]; rewrite Hreg, Halu.
    - eexists _, _. split; [left; reflexivity|]. split; [|reflexivity].
      simpl. rewrite app_nil_r. reflexivity.
    - eexists _, _. split; [right; reflexivity|]. split; [|reflexivity].
      simpl. rewrite app_nil_r. reflexivity. }
  assert (dump_module iteration_order (S (S fuel)) "core" hierarchy tails 2
          = Some ([LScope 2 "core"] ++ leaves ++ [LUpscope 2])) as Hcore.
  { rewrite <- Hconcat.
    apply (dump_module_node _ _ _ _ _ _
             ({[ "reg"%string ]} ∪ {[ "alu"%string ]}));
      [vm_compute; reflexivity | vm_compute; reflexivity | exact Hmap]. }
  assert (dump_module iteration_order (S (S (S fuel))) "cpu" hierarchy tails 1
          = Some ([LScope 1 "cpu"]
                    ++ ([LScope 2 "core"] ++ leaves ++ [LUpscope 2])
                    ++ [LUpscope 1])) as Hcpu.
  { replace ([LScope 2 "core"] ++ leaves ++ [LUpscope 2])
      with (concat [[LScope 2 "core"] ++ leaves ++ [LUpscope 2]])
      by (simpl; rewrite app_nil_r; reflexivity).
    apply (dump_module_node _ _ _ _ _ _ {[ "core"%string ]});
      [vm_compute; reflexivity | vm_compute; reflexivity |].
    rewrite (iteration_singleton _ _ Hperm). cbn [mapM]. rewrite Hcore.
    reflexivity. }
  exists leaves. split; [exact Hleaves|].
  unfold dump_header.
  rewrite (hierarchy_of_two_taps t1 t2 taps Hp1 Hp2 Htaps).
  rewrite (iteration_singleton _ _ Hperm). cbn [mapM].
  fold hierarchy tails. rewrite Hcpu. simpl. rewrite app_nil_r. reflexivity.
Qed.

Lemma header_of_two_taps_witness :
  (∀ s : gset string, elements s ≡ₚ elements s) /\
  path tap_reg = "cpu.core.reg"%string /\ path tap_alu = "cpu.core.alu"%string /\
  (3 <= 3)%nat /\
  (∃ leaves,
     (leaves = leaf_scope 3 "reg" tap_reg ++ leaf_scope 3 "alu" tap_alu ∨
      leaves = leaf_scope 3 "alu" tap_alu ++ leaf_scope 3 "reg" tap_reg) ∧
     dump_header elements 3 [tap_reg; tap_alu]
     = inl (header_preamble
              ++ ([LScope 1 "cpu"]
                    ++ ([LScope 2 "core"] ++ leaves ++ [LUpscope 2])
                    ++ [LUpscope 1])
              ++ header_end)) /\
  header_text [tap_reg; tap_alu]
  = ["$version Generated by Vortex Scope Analyzer $end";
     "$timescale 1 ns $end";
     "$scope module TOP $end";
     " $var wire 1 0 clk $end";
     " $scope module cpu $end";
     "  $scope module core $end";
     "   $scope module alu $end";
     "    $var wire 1 3 c $end";
     "    $var wire 1 4 d $end";
     "   $upscope $end";
     "   $scope module reg $end";
     "    $var wire 1 1 a $end";
     "    $var wire 3 2 b $end";
     "   $upscope $end";
     "  $upscope $end";
     " $upscope $end";
     "$upscope $end";
     "enddefinitions $end"]%string.
Proof.
  assert (∀ s : gset string, elements s ≡ₚ elements s) as Hperm by reflexivity.
  split; [exact Hperm|]. split; [reflexivity|]. split; [reflexivity|].
  split; [lia|]. split.
  - exact (header_of_two_taps elements tap_reg tap_alu [tap_reg; tap_alu] 3
             Hperm eq_refl eq_refl (or_introl eq_refl) (le_n 3)).
  - vm_compute. reflexivity.
Defined.

(** * Further properties *)

(** ** [split] *)

Lemma append_cons (x : ascii) (a b : string) :
  String x a +:+ b = String x (a +:+ b).
Proof. reflexivity. Qed.

Lemma append_nil_l (b : string) : EmptyString +:+ b = b.
Proof. reflexivity. Qed.

Lemma append_assoc (a b c : string) : (a +:+ b) +:+ c = a +:+ (b +:+ c).
Proof.
  induction a as [|x a IH]; [reflexivity|].
  rewrite !append_cons, IH. reflexivity.
Qed.

Lemma append_nil_r (a : string) : a +:+ EmptyString = a.
Proof.
  induction a as [|x a IH]; [reflexivity|].
  rewrite append_cons, IH. reflexivity.
Qed.

Lemma split_from_nil token fresh s d :
  split_from token fresh s d = [] <-> fresh = true /\ s = EmptyString.
Proof.
  revert token fresh. induction s as [|c s IH]; intros token fresh; simpl.
  - destruct fresh; split; try tauto; try discriminate.
    intros [H _]. discriminate H.
  - destruct (Ascii.eqb c d).
    + split; [discriminate | intros [_ H]; discriminate H].
    + rewrite IH. split; [intros [H _]; discriminate H | intros [_ H]; discriminate H].
Qed.

Lemma split_nil s d : split s d = [] <-> s = EmptyString.
Proof. unfold split. rewrite split_from_nil. tauto. Qed.

Lemma ends_with_cons a s c :
  s <> EmptyString -> ends_with (String a s) c = ends_with s c.
Proof. destruct s; [congruence | reflexivity]. Qed.

Lemma split_from_join d s :
  (forall token,
     join d (split_from token false s d)
       +:+ (if ends_with s d then String d EmptyString else EmptyString)
     = token +:+ s) /\
  join d (split_from EmptyString true s d)
    +:+ (if ends_with s d then String d EmptyString else EmptyString)
  = s.
Proof.
  induction s as [|c s [IHf IHt]].
  - split; [intros token|]; simpl; rewrite ?append_nil_r; reflexivity.
  - assert (forall token fresh,
              Ascii.eqb c d = true ->
              join d (split_from token fresh (String c s) d)
                +:+ (if ends_with (String c s) d then String d EmptyString
                     else EmptyString)
              = token +:+ String c s) as Hdelim.
    { intros token fresh Hc. cbn [split_from]. rewrite Hc.
      apply Ascii.eqb_eq in Hc. subst c.
      destruct s as [|c' s'].
      - simpl. rewrite Ascii.eqb_refl. reflexivity.
      - rewrite ends_with_cons by discriminate.
        destruct (split_from EmptyString true (String c' s') d) as [|t ts] eqn:E.
        + apply split_from_nil in E as [_ E]. discriminate E.
        + cbn [join]. rewrite <- IHt at 2.
          rewrite append_assoc, append_cons. reflexivity. }
    split.
    + intros token. destruct (Ascii.eqb c d) eqn:Hc; [apply Hdelim; reflexivity|].
      cbn [split_from]. rewrite Hc.
      replace (ends_with (String c s) d) with (ends_with s d)
        by (destruct s; simpl; [rewrite Hc|]; reflexivity).
      rewrite IHf, append_assoc. reflexivity.
    + destruct (Ascii.eqb c d) eqn:Hc; [apply (Hdelim EmptyString true); reflexivity|].
      cbn [split_from]. rewrite Hc.
      replace (ends_with (String c s) d) with (ends_with s d)
        by (destruct s; simpl; [rewrite Hc|]; reflexivity).
      rewrite IHf. reflexivity.
Qed.

(** X1: [split] loses nothing but one delimiter at the end: the tokens joined
    by the delimiter, followed by the delimiter when the string ends with
    it, are the string. *)
Theorem split_join (s : string) (delimiter : ascii) :
  join delimiter (split s delimiter)
    +:+ (if ends_with s delimiter then String delimiter EmptyString
         else EmptyString)
  = s.
Proof. apply split_from_join. Qed.

Lemma occurs_append c a b : occurs c (a +:+ b) = occurs c a || occurs c b.
Proof.
  induction a as [|x a IH]; [reflexivity|].
  rewrite append_cons. cbn [occurs]. rewrite IH. apply orb_assoc.
Qed.

Lemma split_from_tokens d s : forall token fresh,
  occurs d token = false ->
  Forall (fun t => occurs d t = false) (split_from token fresh s d).
Proof.
  induction s as [|c s IH]; intros token fresh Htoken; simpl.
  - destruct fresh; repeat constructor; assumption.
  - destruct (Ascii.eqb c d) eqn:Hc.
    + constructor; [exact Htoken|]. apply IH. reflexivity.
    + apply IH. rewrite occurs_append, Htoken. simpl. rewrite Hc. reflexivity.
Qed.

(** X2: no token holds the delimiter, and only the empty string has no token
    at all. *)
Theorem split_tokens (s : string) (delimiter : ascii) :
  Forall (fun t => occurs delimiter t = false) (split s delimiter) /\
  (split s delimiter = [] <-> s = EmptyString).
Proof.
  split; [apply split_from_tokens; reflexivity | apply split_nil].
Qed.

(** ** The header *)

Lemma build_hierarchy_none taps : ∀ acc,
  build_hierarchy taps acc = None <-> Exists (fun t => path t = EmptyString) taps.
Proof.
  induction taps as [|tap rest IH]; intros [[hierarchy heads] tails];
    cbn [build_hierarchy].
  - split; [discriminate | intros H; inversion H].
  - rewrite Exists_cons.
    destruct (split (path tap) ".") as [|t ts] eqn:E.
    + apply split_nil in E. simpl. tauto.
    + assert (path tap <> EmptyString) as Hne.
      { intros Hp. apply (split_nil _ ".") in Hp. congruence. }
      destruct (last (t :: ts)) as [l|] eqn:El.
      * cbn [head mbind option_bind]. rewrite IH. tauto.
      * apply last_None in El. discriminate El.
Qed.

(** X3: [dump_header] reads [tokens[0]] of an empty vector exactly when a tap
    has the empty path. *)
Theorem dump_header_empty_path (iteration_order : gset string → list string)
    (fuel : nat) (taps : list tap_t) :
  dump_header iteration_order fuel taps = inr Undefined
  <-> ∃ tap, tap ∈ taps ∧ path tap = EmptyString.
Proof.
  rewrite <- Exists_exists, <- (build_hierarchy_none taps (∅, ∅, ∅)).
  unfold dump_header.
  destruct (build_hierarchy taps (∅, ∅, ∅)) as [[[hierarchy heads] tails]|].
  - destruct (mapM _ _); split; discriminate.
  - tauto.
Qed.

Lemma edge_insert hierarchy parent child a b :
  edge hierarchy a b ->
  edge (<[parent := {[child]} ∪ default ∅ (hierarchy !! parent)]> hierarchy) a b.
Proof.
  intros (set & Hset & Hb). destruct (decide (parent = a)) as [->|Hne].
  - eexists. rewrite lookup_insert_eq. split; [reflexivity|].
    rewrite Hset. simpl. set_solver.
  - exists set. rewrite lookup_insert_ne by assumption. auto.
Qed.

Lemma edge_insert_new hierarchy parent child :
  edge (<[parent := {[child]} ∪ default ∅ (hierarchy !! parent)]> hierarchy)
    parent child.
Proof.
  eexists. rewrite lookup_insert_eq. split; [reflexivity | set_solver].
Qed.

Lemma add_edges_cons parent child rest hierarchy :
  add_edges (parent :: child :: rest) hierarchy
  = add_edges (child :: rest)
      (<[parent := {[child]} ∪ default ∅ (hierarchy !! parent)]> hierarchy).
Proof. reflexivity. Qed.

Lemma add_edges_mono tokens : ∀ hierarchy a b,
  edge hierarchy a b -> edge (add_edges tokens hierarchy) a b.
Proof.
  induction tokens as [|parent [|child rest] IH]; intros hierarchy a b H;
    [exact H | exact H |].
  rewrite add_edges_cons. apply IH, edge_insert, H.
Qed.

Lemma add_edges_adjacent tokens : ∀ hierarchy a b,
  adjacent a b tokens -> edge (add_edges tokens hierarchy) a b.
Proof.
  induction tokens as [|parent [|child rest] IH]; intros hierarchy a b
    (before & after & E).
  - destruct before; discriminate E.
  - destruct before as [|? [|? ?]]; discriminate E.
  - rewrite add_edges_cons. destruct before as [|x before].
    + injection E as -> -> _. apply add_edges_mono, edge_insert_new.
    + injection E as _ E. apply IH. exists before, after. exact E.
Qed.

Lemma build_hierarchy_mono taps : ∀ hierarchy heads tails hierarchy' heads' tails',
  build_hierarchy taps (hierarchy, heads, tails) = Some (hierarchy', heads', tails') ->
  (∀ a b, edge hierarchy a b → edge hierarchy' a b) ∧
  (∀ x, x ∈ heads → x ∈ heads').
Proof.
  induction taps as [|tap rest IH]; intros hierarchy heads tails hierarchy' heads'
    tails' H; cbn [build_hierarchy] in H.
  - injection H as <- <- <-. auto.
  - destruct (head (split (path tap) ".")) as [h|]; [|discriminate H].
    destruct (last (split (path tap) ".")) as [t|]; [|discriminate H].
    cbn [mbind option_bind] in H.
    destruct (IH _ _ _ _ _ _ H) as [He Hh]. split.
    + intros a b Hab. apply He, add_edges_mono, Hab.
    + intros x Hx. apply Hh, elem_of_union. right. exact Hx.
Qed.

Lemma build_hierarchy_tap taps : ∀ tap hierarchy heads tails hierarchy' heads' tails',
  tap ∈ taps ->
  build_hierarchy taps (hierarchy, heads, tails) = Some (hierarchy', heads', tails') ->
  (∀ a b, adjacent a b (split (path tap) ".") → edge hierarchy' a b) ∧
  (∀ x, head (split (path tap) ".") = Some x → x ∈ heads').
Proof.
  induction taps as [|tap0 rest IH]; intros tap hierarchy heads tails hierarchy'
    heads' tails' Hin H; [inversion Hin|].
  cbn [build_hierarchy] in H.
  destruct (head (split (path tap0) ".")) as [h|] eqn:Eh; [|discriminate H].
  destruct (last (split (path tap0) ".")) as [t|]; [|discriminate H].
  cbn [mbind option_bind] in H.
  apply elem_of_cons in Hin as [->|Hin].
  - apply build_hierarchy_mono in H as [He Hh]. split.
    + intros a b Hab. apply He, add_edges_adjacent, Hab.
    + intros x Hx. apply Hh. rewrite Eh in Hx. injection Hx as ->.
      apply elem_of_union. left. apply elem_of_singleton. reflexivity.
  - eapply IH; eassumption.
Qed.

(** A set of modules each of which has a child in the set: the recursion
    of [dump_module] never comes back from any of them. *)
Lemma dump_module_trapped (iteration_order : gset string → list string)
    (hierarchy : gmap string (gset string)) (tails : gmap string tap_t)
    (trap : string → Prop) :
  (∀ s, iteration_order s ≡ₚ elements s) ->
  (∀ x, trap x → ∃ y, trap y ∧ edge hierarchy x y) ->
  ∀ fuel x n, trap x → dump_module iteration_order fuel x hierarchy tails n = None.
Proof.
  intros Hperm Htrap. induction fuel as [|fuel IH]; intros x n Hx; [reflexivity|].
  cbn [dump_module].
  destruct (Htrap x Hx) as (y & Hy & set & Hset & Hin).
  rewrite Hset.
  assert (mapM (fun child =>
                  dump_module iteration_order fuel child hierarchy tails (S n))
               (iteration_order set) = None) as ->; [|reflexivity].
  apply mapM_None_2, Exists_exists. exists y. split; [|apply IH, Hy].
  rewrite (Hperm set). apply elem_of_elements, Hin.
Qed.

Lemma repeated_element (l : list string) :
  ¬ NoDup l -> ∃ l1 x l2 l3, l = l1 ++ x :: l2 ++ x :: l3.
Proof.
  induction l as [|a l IH]; intros H; [destruct H; constructor|].
  destruct (decide (a ∈ l)) as [Hin|Hnin].
  - apply list_elem_of_split in Hin as (l2 & l3 & ->).
    exists [], a, l2, l3. reflexivity.
  - assert (¬ NoDup l) as Hl
      by (intros Hnd; apply H; constructor; assumption).
    destruct (IH Hl) as (l1 & x & l2 & l3 & ->).
    exists (a :: l1), x, l2, l3. reflexivity.
Qed.

Lemma successor_in_loop (l1 l2 l3 : list string) (x y : string) :
  y ∈ l1 ++ x :: l2 ->
  ∃ z, z ∈ l1 ++ x :: l2 ∧ adjacent y z (l1 ++ x :: l2 ++ x :: l3).
Proof.
  intros Hy. apply list_elem_of_split in Hy as (p & q & E).
  replace (l1 ++ x :: l2 ++ x :: l3) with ((l1 ++ x :: l2) ++ x :: l3)
    by (rewrite <- app_assoc; reflexivity).
  rewrite E. destruct q as [|z q].
  - exists x. split; [rewrite <- E; set_solver|].
    exists p, l3. rewrite <- app_assoc. reflexivity.
  - exists z. split; [set_solver|].
    exists p, (q ++ x :: l3). rewrite <- app_assoc. reflexivity.
Qed.

(** X4: a path that names a module twice makes the hierarchy cyclic below its
    first module: the recursion of [dump_module] has no end, whatever
    depth it is allowed. *)
Theorem dump_header_cycle (iteration_order : gset string → list string)
    (fuel : nat) (taps : list tap_t) (tap : tap_t) :
  (∀ s, iteration_order s ≡ₚ elements s) ->
  Forall (fun t => path t <> EmptyString) taps ->
  tap ∈ taps ->
  ¬ NoDup (split (path tap) ".") ->
  dump_header iteration_order fuel taps = inr OutOfFuel.
Proof.
  intros Hperm Hpaths Hin Hdup. unfold dump_header.
  destruct (build_hierarchy taps (∅, ∅, ∅)) as [[[hierarchy heads] tails]|] eqn:Hb.
  2:{ apply build_hierarchy_none, Exists_exists in Hb as (t & Ht & Hp).
      rewrite Forall_forall in Hpaths. destruct (Hpaths t Ht Hp). }
  destruct (build_hierarchy_tap _ _ _ _ _ _ _ _ Hin Hb) as [Hedges Hhead].
  destruct (repeated_element _ Hdup) as (l1 & x & l2 & l3 & E).
  rewrite E in Hedges, Hhead.
  assert (∃ h, head (l1 ++ x :: l2 ++ x :: l3) = Some h ∧ h ∈ l1 ++ x :: l2)
    as (h & Hh & Hhl).
  { destruct l1 as [|a l1]; eexists; (split; [reflexivity | set_solver]). }
  assert (mapM (fun head => dump_module iteration_order fuel head hierarchy tails 1)
               (iteration_order heads) = None) as ->; [|reflexivity].
  apply mapM_None_2, Exists_exists. exists h. split.
  - rewrite (Hperm heads). apply elem_of_elements, Hhead, Hh.
  - apply (dump_module_trapped iteration_order hierarchy tails
             (fun y => y ∈ l1 ++ x :: l2) Hperm); [|exact Hhl].
    intros y Hy. destruct (successor_in_loop l1 l2 l3 x y Hy) as (z & Hz & Hadj).
    exists z. split; [exact Hz | apply Hedges, Hadj].
Qed.

Lemma dump_header_cycle_witness :
  (∀ s, elements s ≡ₚ elements (C:=gset string) s) /\
  Forall (fun t => path t <> EmptyString) [tap_reg; tap_loop] /\
  tap_loop ∈ [tap_reg; tap_loop] /\
  ¬ NoDup (split (path tap_loop) ".") /\
  dump_header elements 1000 [tap_reg; tap_loop] = inr OutOfFuel.
Proof.
  assert (∀ s, elements s ≡ₚ elements (C:=gset string) s) as H1
    by (intros s; reflexivity).
  assert (Forall (fun t => path t <> EmptyString) [tap_reg; tap_loop]) as H2
    by (repeat constructor; discriminate).
  assert (tap_loop ∈ [tap_reg; tap_loop]) as H3 by set_solver.
  assert (¬ NoDup (split (path tap_loop) ".")) as H4.
  { intros H. vm_compute in H. apply NoDup_cons in H as [H _]. apply H. left. }
  split; [exact H1|]. split; [exact H2|]. split; [exact H3|]. split; [exact H4|].
  exact (dump_header_cycle elements 1000 [tap_reg; tap_loop] tap_loop H1 H2 H3 H4).
Defined.

Lemma nesting_vars n tap rest :
  nesting (S n) (var_lines (S n) tap ++ rest) = nesting (S n) rest.
Proof.
  unfold var_lines. induction (signals tap) as [|s l IH]; [reflexivity|].
  cbn [map app nesting]. rewrite Nat.eqb_refl. exact IH.
Qed.

Lemma nesting_children (f : string → option (list vcd_line)) depth names :
  ∀ children rest,
  (∀ x lines rest', f x = Some lines →
     nesting depth (lines ++ rest') = nesting depth rest') ->
  mapM f names = Some children ->
  nesting depth (concat children ++ rest) = nesting depth rest.
Proof.
  intros children rest Hf H. apply mapM_Some_1 in H.
  induction H as [|x lines names children Hx _ IH]; [reflexivity|].
  cbn [concat]. rewrite <- app_assoc, (Hf _ _ _ Hx). exact IH.
Qed.

Lemma dump_module_nesting (iteration_order : gset string → list string)
    (hierarchy : gmap string (gset string)) (tails : gmap string tap_t) :
  ∀ fuel name n lines rest,
  dump_module iteration_order fuel name hierarchy tails (S n) = Some lines ->
  nesting n (lines ++ rest) = nesting n rest.
Proof.
  induction fuel as [|fuel IH]; intros name n lines rest H; [discriminate H|].
  cbn [dump_module] in H.
  destruct (match hierarchy !! name with
            | Some set =>
                mapM (fun child =>
                        dump_module iteration_order fuel child hierarchy tails
                          (S (S n)))
                     (iteration_order set)
            | None => Some []
            end) as [children|] eqn:Hc; [|discriminate H].
  cbn [mbind option_bind] in H. injection H as <-.
  cbn [app nesting]. rewrite Nat.eqb_refl.
  assert (nesting (S n) (concat children ++ [LUpscope (S n)] ++ rest)
          = nesting n rest) as Hbody.
  { destruct (hierarchy !! name) as [set|].
    - rewrite (nesting_children _ (S n) _ _ _ (fun x l r => IH x (S n) l r) Hc).
      cbn [app nesting]. rewrite Nat.eqb_refl. reflexivity.
    - injection Hc as <-. cbn [concat app nesting]. rewrite Nat.eqb_refl.
      reflexivity. }
  rewrite <- !app_assoc.
  destruct (tails !! name) as [tap|].
  - rewrite nesting_vars. exact Hbody.
  - exact Hbody.
Qed.

(** X5: in a header that [dump_header] writes, every module scope that is
    opened is closed again, the scopes are nested, each is indented by its
    depth, and every [$var] line of a tap stands in a scope, indented as
    that scope. *)
Theorem header_scopes_nested (iteration_order : gset string → list string)
    (fuel : nat) (taps : list tap_t) (lines : list vcd_line) :
  dump_header iteration_order fuel taps = inl lines ->
  nesting 0 lines = Some 0%nat.
Proof.
  unfold dump_header.
  destruct (build_hierarchy taps (∅, ∅, ∅)) as [[[hierarchy heads] tails]|];
    [|discriminate].
  destruct (mapM _ _) as [modules|] eqn:Hm; [|discriminate].
  intros H. injection H as <-.
  unfold header_preamble. cbn [app nesting].
  rewrite (nesting_children _ 0 _ _ _
             (fun x l r => dump_module_nesting iteration_order hierarchy tails
                             fuel x 0 l r) Hm).
  reflexivity.
Qed.

Lemma header_scopes_nested_witness :
  dump_header elements 3 [tap_reg; tap_alu]
  = inl (match dump_header elements 3 [tap_reg; tap_alu] with
         | inl lines => lines
         | inr _ => []
         end) /\
  nesting 0 (match dump_header elements 3 [tap_reg; tap_alu] with
             | inl lines => lines
             | inr _ => []
             end) = Some 0%nat.
Proof.
  assert (dump_header elements 3 [tap_reg; tap_alu]
          = inl (match dump_header elements 3 [tap_reg; tap_alu] with
                 | inl lines => lines
                 | inr _ => []
                 end)) as H by (vm_compute; reflexivity).
  split; [exact H|].
  exact (header_scopes_nested elements 3 [tap_reg; tap_alu] _ H).
Defined.

(** ** The scheduler, again *)

Lemma find_earliest_from_first taps : ∀ i e j t,
  find_earliest_from i taps e = Some (j, t) ->
  (∀ k te, e = Some (k, te) → (k < i)%nat) ->
  (∀ k te, e = Some (k, te) → (k, te) = (j, t) ∨ cycle_time t < cycle_time te) ∧
  (∀ m t', (i + m < j)%nat → taps !! m = Some t' → has_data t' = true →
     cycle_time t < cycle_time t').
Proof.
  induction taps as [|tap rest IH]; intros i e j t Hfind Hacc.
  - simpl in Hfind. subst e. split.
    + intros k te Hk. left. congruence.
    + intros m t' _ Hm. discriminate Hm.
  - destruct (has_data tap) eqn:Hd.
    + rewrite (find_earliest_from_take _ _ _ _ Hd) in Hfind.
      destruct e as [[k te]|].
      * pose proof (Hacc k te eq_refl) as Hk.
        destruct (Z.ltb_spec (cycle_time tap) (cycle_time te)) as [Hlt|Hge].
        -- destruct (IH _ _ _ _ Hfind) as [He Hrest].
           { intros k' te' Hk'. injection Hk' as <- <-. lia. }
           destruct (He _ _ eq_refl) as [Heq | Hless].
           ++ injection Heq as <- <-. split.
              ** intros k' te' Hk'. injection Hk' as <- <-. right. exact Hlt.
              ** intros m t' Hm. lia.
           ++ split.
              ** intros k' te' Hk'. injection Hk' as <- <-. right. lia.
              ** intros [|m] t' Hm Hl Hdt.
                 --- injection Hl as <-. exact Hless.
                 --- apply (Hrest m t'); [lia | exact Hl | exact Hdt].
        -- destruct (IH _ _ _ _ Hfind) as [He Hrest].
           { intros k' te' Hk'. injection Hk' as <- <-. lia. }
           destruct (He _ _ eq_refl) as [Heq | Hless].
           ++ injection Heq as <- <-. split.
              ** intros k' te' Hk'. left. congruence.
              ** intros m t' Hm. lia.
           ++ split.
              ** intros k' te' Hk'. injection Hk' as <- <-. right. exact Hless.
              ** intros [|m] t' Hm Hl Hdt.
                 --- injection Hl as <-. lia.
                 --- apply (Hrest m t'); [lia | exact Hl | exact Hdt].
      * destruct (IH _ _ _ _ Hfind) as [He Hrest].
        { intros k' te' Hk'. injection Hk' as <- <-. lia. }
        split; [intros k te Hk; discriminate Hk|].
        destruct (He _ _ eq_refl) as [Heq | Hless].
        -- injection Heq as <- <-. intros m t' Hm. lia.
        -- intros [|m] t' Hm Hl Hdt.
           ++ injection Hl as <-. exact Hless.
           ++ apply (Hrest m t'); [lia | exact Hl | exact Hdt].
    + rewrite (find_earliest_from_skip _ _ _ _ Hd) in Hfind.
      destruct (IH _ _ _ _ Hfind) as [He Hrest].
      { intros k te Hk. specialize (Hacc k te Hk). lia. }
      split; [exact He|].
      intros [|m] t' Hm Hl Hdt.
      * injection Hl as <-. congruence.
      * apply (Hrest m t'); [lia | exact Hl | exact Hdt].
Qed.

(** X8: among taps with the same earliest time the scheduler returns the first
    of the vector: every tap before the returned one that has data left is
    strictly later. *)
Theorem find_earliest_tap_first (taps : list tap_t) (i : nat) (tap : tap_t) :
  find_earliest_tap taps = Some i ->
  taps !! i = Some tap ->
  ∀ j t, (j < i)%nat → taps !! j = Some t → has_data t = true →
    cycle_time tap < cycle_time t.
Proof.
  unfold find_earliest_tap. intros H Htap j t Hj Ht Hd.
  destruct (find_earliest_from 0 taps None) as [[i' tap']|] eqn:Hfind;
    [|discriminate H].
  simpl in H. injection H as ->.
  destruct (find_earliest_from_some _ _ _ _ _ Hfind) as ([He | (Hl & _ & _)] & _ & _);
    [discriminate He|].
  rewrite Nat.sub_0_r in Hl. assert (tap' = tap) as -> by congruence.
  destruct (find_earliest_from_first _ _ _ _ _ Hfind) as [_ Hrest].
  { intros k te Hk. discriminate Hk. }
  apply (Hrest j t); [lia | exact Ht | exact Hd].
Qed.

Lemma find_earliest_tap_first_witness :
  find_earliest_tap [tap11; tap13; tap31] = Some 1%nat /\
  [tap11; tap13; tap31] !! 1%nat = Some tap13 /\
  cycle_time tap13 < cycle_time tap11.
Proof.
  assert (find_earliest_tap [tap11; tap13; tap31] = Some 1%nat) as H1
    by reflexivity.
  assert ([tap11; tap13; tap31] !! 1%nat = Some tap13) as H2 by reflexivity.
  split; [exact H1|]. split; [exact H2|].
  apply (find_earliest_tap_first [tap11; tap13; tap31] 1 tap13 H1 H2 0%nat tap11);
    [lia | reflexivity | reflexivity].
Defined.

Lemma find_earliest_from_idle taps : ∀ i e,
  Forall (fun t => has_data t = false) taps -> find_earliest_from i taps e = e.
Proof.
  induction taps as [|tap rest IH]; intros i e H; [reflexivity|].
  inversion H as [|? ? Hd Hrest]; subst.
  rewrite (find_earliest_from_skip _ _ _ _ Hd). apply IH, Hrest.
Qed.

(** X9: the scheduler returns no tap exactly when every tap is empty or
    finished: the merge loop cannot end while a sample is left. *)
Theorem find_earliest_tap_none_iff (taps : list tap_t) :
  find_earliest_tap taps = None
  <-> Forall (fun t => samples t = 0 ∨ cur_sample t = samples t) taps.
Proof.
  assert (∀ t, has_data t = false <-> samples t = 0 ∨ cur_sample t = samples t)
    as Hiff.
  { intros t. pose proof (has_data_spec t) as Hs.
    destruct (has_data t); split; intros H; try reflexivity; try discriminate H.
    - destruct Hs as [Hs _]. specialize (Hs eq_refl). lia.
    - destruct (Z.eq_dec (samples t) 0); [left; assumption|].
      destruct (Z.eq_dec (cur_sample t) (samples t)); [right; assumption|].
      destruct Hs as [_ Hs]. discriminate Hs. split; assumption. }
  split.
  - intros H. apply find_earliest_tap_none in H.
    eapply Forall_impl; [exact H|]. intros t. apply Hiff.
  - intros H. unfold find_earliest_tap.
    rewrite find_earliest_from_idle; [reflexivity|].
    eapply Forall_impl; [exact H|]. intros t. apply Hiff.
Qed.

(** ** The clock, again *)

Lemma u64_negative z : - 2 ^ 64 <= z < 0 -> u64 z = z + 2 ^ 64.
Proof.
  intros H. unfold u64. rewrite <- (Z_mod_plus_full z 1 (2 ^ 64)).
  apply Z.mod_small. lia.
Qed.

Lemma clock_loop_length n : ∀ cur_time next_time,
  (length (fst (clock_loop n cur_time next_time)) <= 4 * n)%nat.
Proof.
  induction n as [|n IH]; intros cur_time next_time; cbn [clock_loop].
  - simpl. lia.
  - destruct (cur_time <? next_time); [|simpl; lia].
    specialize (IH (u64 (cur_time + 1)) next_time).
    destruct (clock_loop n (u64 (cur_time + 1)) next_time) as [out t].
    cbn [fst] in *. rewrite length_app. simpl. lia.
Qed.

(** X10: whatever the two times, one call of [advance_clock] writes at most the
    two [x] half-periods and [MAX_DELAY_CYCLES] cycles, two lines per
    half-period: 40004 lines. *)
Theorem advance_clock_bounded (cur_time next_time : Z) :
  0 <= cur_time < 2 ^ 64 -> 0 <= next_time < 2 ^ 64 ->
  Z.of_nat (length (fst (advance_clock cur_time next_time)))
  <= 4 * MAX_DELAY_CYCLES + 4.
Proof.
  intros Hc Hn. unfold advance_clock, skip_gap, MAX_DELAY_CYCLES.
  pose proof (u64_range (next_time - cur_time)) as Hd.
  destruct (Z.ltb_spec 10000 (u64 (next_time - cur_time))) as [Hgap|Hgap].
  - pose proof (clock_loop_length (Z.to_nat (next_time - u64 (next_time - 10000)))
                  (u64 (next_time - 10000)) next_time) as Hlen.
    destruct (clock_loop _ _ _) as [out t]. cbn [fst] in *.
    rewrite length_app. cbn [half_periods length].
    assert (next_time - u64 (next_time - 10000) <= 10000).
    { destruct (Z.le_gt_cases 10000 next_time).
      - rewrite u64_small by lia. lia.
      - rewrite u64_negative by word_lia. word_lia. }
    lia.
  - pose proof (clock_loop_length (Z.to_nat (next_time - cur_time))
                  cur_time next_time) as Hlen.
    destruct (clock_loop _ _ _) as [out t]. cbn [fst app] in *.
    assert (next_time - cur_time <= 10000).
    { destruct (Z.le_gt_cases cur_time next_time).
      - rewrite u64_small in Hgap by lia. lia.
      - lia. }
    lia.
Qed.

Lemma advance_clock_bounded_witness :
  0 <= 3 < 2 ^ 64 /\ 0 <= 30000 < 2 ^ 64 /\
  Z.of_nat (length (fst (advance_clock 3 30000))) <= 4 * MAX_DELAY_CYCLES + 4.
Proof.
  assert (0 <= 3 < 2 ^ 64) as H1 by lia.
  assert (0 <= 30000 < 2 ^ 64) as H2 by lia.
  split; [exact H1|]. split; [exact H2|].
  exact (advance_clock_bounded 3 30000 H1 H2).
Defined.

(** X11: two calls in a row write what one call over both gaps writes, when the
    whole gap is at most [MAX_DELAY_CYCLES]. *)
Theorem advance_clock_compose (a b c : Z) :
  0 <= a <= b -> b <= c < 2 ^ 64 -> c - a <= MAX_DELAY_CYCLES ->
  snd (advance_clock a b) = b /\
  advance_clock a c
  = (fst (advance_clock a b) ++ fst (advance_clock b c), snd (advance_clock b c)).
Proof.
  intros Hab Hbc Hgap.
  rewrite (advance_clock_small a b), (advance_clock_small b c),
    (advance_clock_small a c) by lia.
  cbn [fst snd]. split; [reflexivity|].
  rewrite <- flat_map_app. f_equal. f_equal.
  replace (c - a) with ((b - a) + (c - b)) by lia.
  rewrite seqZ_app by lia. f_equal. f_equal. lia.
Qed.

Lemma advance_clock_compose_witness :
  0 <= 2 <= 5 /\ 5 <= 9 < 2 ^ 64 /\ 9 - 2 <= MAX_DELAY_CYCLES /\
  snd (advance_clock 2 5) = 5 /\
  advance_clock 2 9
  = (fst (advance_clock 2 5) ++ fst (advance_clock 5 9), snd (advance_clock 5 9)).
Proof.
  assert (0 <= 2 <= 5) as H1 by lia.
  assert (5 <= 9 < 2 ^ 64) as H2 by lia.
  assert (9 - 2 <= MAX_DELAY_CYCLES) as H3 by (unfold MAX_DELAY_CYCLES; lia).
  split; [exact H1|]. split; [exact H2|]. split; [exact H3|].
  exact (advance_clock_compose 2 5 9 H1 H2 H3).
Defined.



(** ** The decoder on a sub-signal without bits *)

Lemma rev_first_last {A} (l : list A) (x : A) :
  last l = Some x -> rev l !! 0%nat = Some x.
Proof.
  intros H. apply last_Some in H as [l' ->].
  rewrite rev_app_distr. reflexivity.
Qed.

(** X13: a last sub-signal of width 0 makes [dump_tap] store its first bit at
    the index [0 - 0 - 1], which is [2^32 - 1] in 32 bits and outside the
    buffer: undefined behaviour right after the first word is read, before
    any line is written. *)
Theorem dump_tap_zero_width {D} (cb : scope_callback_t D) (hdevice : vx_device_h)
    (tap : tap_t) (s : tap_signal_t) (w : world D) (fuel : nat) :
  transfers_ok cb ->
  g_callback w = Some cb ->
  last (signals tap) = Some s ->
  sig_width s = 0 ->
  0 <= tap_width tap < 2 ^ 32 ->
  (0 < fuel)%nat ->
  dump_tap fuel hdevice tap w
  = (inr Undefined,
     after w (snd (next_data cb hdevice (tap_id tap) (dev w)))
       [IoWrite (cmd_data (tap_id tap)) 0;
        IoRead (fst (next_data cb hdevice (tap_id tap) (dev w))) 0] []).
Proof.
  intros Hok Hcb Hlast Hzero Hwidth Hfuel.
  unfold dump_tap, deref. rewrite (rev_first_last _ _ Hlast). cbn [lift_ub].
  unfold bind at 1. cbn [ret].
  destruct fuel as [|fuel]; [lia|]. cbn [decode_sample].
  rewrite <- (after_nil w) at 1.
  rewrite (fetch_data_then cb hdevice (tap_id tap) w _ _ _ _ Hok Hcb).
  cbn [decode_word]. unfold decode_bit.
  cbn [signal_data signal_width signal_offset sample_offset word].
  rewrite Hzero, store_outside.
  - reflexivity.
  - unfold new_buffer. rewrite length_replicate, Z2Nat.id by lia.
    change (u32 (0 - 0 - 1)) with (2 ^ 32 - 1). lia.
Qed.

Lemma dump_tap_zero_width_witness :
  transfers_ok scripted /\
  last (signals tap30) = Some {| sig_id := 2; sig_name := "a"; sig_width := 0 |} /\
  dump_tap 1 handle tap30 (session [5] true)
  = (inr Undefined,
     after (session [5] true) [] [IoWrite (cmd_data 0) 0; IoRead 5 0] []).
Proof.
  split; [exact transfers_ok_scripted|]. split; [reflexivity|].
  exact (dump_tap_zero_width scripted handle tap30 _ (session [5] true) 1
           transfers_ok_scripted eq_refl eq_refl eq_refl
           ltac:(simpl; lia) ltac:(lia)).
Defined.

(** ** The merge loop to its end *)

(** [dump_tap] on a well-formed tap, for the loop around it. *)
Lemma dump_tap_run {D} (cb : scope_callback_t D) (hdevice : vx_device_h)
    (tap : tap_t) (w : world D) (fuel : nat) :
  transfers_ok cb ->
  g_callback w = Some cb ->
  well_formed tap ->
  (sample_words tap <= fuel)%nat ->
  dump_tap fuel hdevice tap w
  = (inl (next_sample tap
            (data_word cb hdevice (tap_id tap) (dev w) (sample_words tap))),
     after w
       (dev_after cb hdevice (tap_id tap) (dev w) (requests tap))
       (data_events (tap_id tap)
          (data_word cb hdevice (tap_id tap) (dev w)) (requests tap))
       (sample_lines (data_word cb hdevice (tap_id tap) (dev w)) 0
          (rev (signals tap)))).
Proof.
  intros Hok Hcb [Hp Htwo] Hfuel.
  destruct (rev (signals tap) !! 0%nat) as [first|] eqn:Hfirst.
  2:{ apply lookup_ge_None in Hfirst. rewrite length_rev in Hfirst. lia. }
  unfold dump_tap, deref. rewrite Hfirst. cbn [lift_ub].
  unfold bind at 1. cbn [ret].
  rewrite <- (after_nil w) at 1.
  apply (decode_sample_spec cb hdevice tap w (dev w) Hok Hcb Hp Htwo fuel 0 0%nat _ 0%nat).
  - apply initial_decoding; assumption.
  - reflexivity.
  - lia.
Qed.

Lemma remaining_le_total (taps : list tap_t) i tap :
  taps !! i = Some tap -> (remaining tap <= total_remaining taps)%nat.
Proof.
  unfold total_remaining. revert i.
  induction taps as [|t rest IH]; intros [|i] H; try discriminate H;
    cbn [foldr].
  - injection H as ->. lia.
  - specialize (IH i H). lia.
Qed.

Lemma total_remaining_insert (taps : list tap_t) i tap tap' :
  taps !! i = Some tap -> S (remaining tap') = remaining tap ->
  S (total_remaining (<[i := tap']> taps)) = total_remaining taps.
Proof.
  unfold total_remaining. revert i.
  induction taps as [|t rest IH]; intros [|i] H Hr; try discriminate H; simpl.
  - injection H as ->. lia.
  - specialize (IH i H Hr). simpl in IH. lia.
Qed.

Lemma has_data_remaining tap :
  in_range tap -> (has_data tap = true <-> (0 < remaining tap)%nat).
Proof.
  intros [H1 H2]. rewrite has_data_spec. unfold remaining. lia.
Qed.

Lemma idle_finished tap :
  in_range tap -> has_data tap = false -> finished_from tap tap ∧ remaining tap = 0%nat.
Proof.
  intros Hr Hd. pose proof (has_data_remaining tap Hr) as Hiff.
  assert (remaining tap = 0%nat) as H0.
  { destruct (remaining tap); [reflexivity|].
    destruct Hiff as [_ Hiff]. rewrite Hiff in Hd by lia. discriminate Hd. }
  split; [|exact H0]. destruct Hr as [H1 H2]. unfold remaining in H0.
  repeat split. lia.
Qed.

Lemma next_sample_step tap delta :
  in_range tap -> has_data tap = true ->
  in_range (next_sample tap delta) ∧
  S (remaining (next_sample tap delta)) = remaining tap ∧
  cur_sample (next_sample tap delta) = cur_sample tap + 1.
Proof.
  intros [H1 H2] Hd. apply has_data_spec in Hd.
  unfold next_sample, in_range, remaining.
  cbn [cur_sample samples set_progress].
  rewrite u32_small by lia. lia.
Qed.

Lemma next_sample_well_formed tap delta :
  well_formed tap -> well_formed (next_sample tap delta).
Proof.
  intros [[Hpos Hsum Hu] Htwo]. split; [split|]; assumption.
Qed.

Section MergeTotal.
Context {D : Type} (cb : scope_callback_t D) (hdevice : vx_device_h).
Hypothesis Hok : transfers_ok cb.

Lemma dump_taps_finishes words fuel : ∀ i taps cur (w : world D),
  g_callback w = Some cb ->
  Forall well_formed taps -> Forall in_range taps ->
  Forall (fun t => (sample_words t <= words)%nat) taps ->
  find_earliest_tap taps = Some i ->
  (total_remaining taps <= fuel)%nat ->
  ∃ taps' cur' w' log,
    dump_taps words fuel hdevice i taps cur w = (inl (taps', cur'), w') ∧
    dispatched w' = dispatched w ++ log ∧
    Forall2 finished_from taps taps' ∧
    ∀ j t, taps !! j = Some t → length (times_of j log) = remaining t.
Proof.
  induction fuel as [|fuel IH]; intros i taps cur w Hcb Hwf Hrange Hwords Hfind Hfuel;
    destruct (find_earliest_tap_some taps i Hfind) as (tap & Htap & Hdata & _);
    pose proof (proj1 (Forall_lookup _ _) Hrange i tap Htap) as Hr;
    pose proof (proj1 (Forall_lookup _ _) Hwf i tap Htap) as Hw;
    pose proof (proj1 (Forall_lookup _ _) Hwords i tap Htap) as Hsw;
    pose proof (remaining_le_total taps i tap Htap) as Hle;
    pose proof (proj1 (has_data_remaining tap Hr) Hdata) as Hpos.
  { lia. }
  rewrite (dump_taps_round words fuel hdevice i taps cur tap w Htap).
  set (w2 := upd_vcd (scope_vcd w ++ fst (advance_clock cur (cycle_time tap)))
               (upd_dispatched i (cycle_time tap) w)).
  assert (g_callback w2 = Some cb) as Hcb2 by exact Hcb.
  rewrite (dump_tap_run cb hdevice tap w2 words Hok Hcb2 Hw Hsw).
  set (tap' := next_sample tap _).
  set (w3 := after w2 _ _ _).
  destruct (next_sample_step tap
              (data_word cb hdevice (tap_id tap) (dev w2) (sample_words tap))
              Hr Hdata) as (Hr' & Hrem & Hcur).
  fold tap' in Hr', Hrem, Hcur.
  assert (Forall well_formed (<[i := tap']> taps)) as Hwf'.
  { apply Forall_insert; [exact Hwf | apply next_sample_well_formed, Hw]. }
  assert (Forall in_range (<[i := tap']> taps)) as Hrange'.
  { apply Forall_insert; assumption. }
  assert (Forall (fun t => (sample_words t <= words)%nat) (<[i := tap']> taps))
    as Hwords'.
  { apply Forall_insert; [exact Hwords | exact Hsw]. }
  pose proof (total_remaining_insert taps i tap tap' Htap Hrem) as Htot.
  assert (i < length taps)%nat as Hi by (eapply lookup_lt_Some; eassumption).
  destruct (find_earliest_tap (<[i := tap']> taps)) as [j|] eqn:Hnext.
  - destruct (IH j (<[i := tap']> taps) (snd (advance_clock cur (cycle_time tap)))
                w3 Hcb Hwf' Hrange' Hwords' Hnext ltac:(lia))
      as (taps'' & cur'' & w' & log & E & Hlog & Hfin & Hcount).
    exists taps'', cur'', w', ((i, cycle_time tap) :: log).
    split; [exact E|]. split; [|split].
    + rewrite Hlog. unfold w3, w2. simpl. rewrite <- app_assoc. reflexivity.
    + apply Forall2_same_length_lookup.
      apply Forall2_same_length_lookup in Hfin as [Hlen Hall].
      rewrite length_insert in Hlen. split; [exact Hlen|].
      intros k x y Hx Hy. destruct (decide (i = k)) as [->|Hne].
      * assert (x = tap) as -> by congruence.
        apply (Hall k tap' y); [|exact Hy].
        apply list_lookup_insert_eq. exact Hi.
      * apply (Hall k x y); [|exact Hy].
        rewrite list_lookup_insert_ne by assumption. exact Hx.
    + intros k t Hk. destruct (decide (i = k)) as [->|Hne].
      * assert (t = tap) as -> by congruence.
        rewrite times_of_cons_eq. cbn [length].
        rewrite (Hcount k tap'); [exact Hrem|].
        apply list_lookup_insert_eq. exact Hi.
      * rewrite times_of_cons_ne by congruence.
        apply Hcount. rewrite list_lookup_insert_ne by assumption. exact Hk.
  - apply find_earliest_tap_none in Hnext.
    exists (<[i := tap']> taps), (snd (advance_clock cur (cycle_time tap))), w3,
      [(i, cycle_time tap)].
    split; [reflexivity|]. split; [reflexivity|].
    assert (has_data tap' = false) as Hd'.
    { apply (proj1 (Forall_lookup _ _) Hnext i tap').
      apply list_lookup_insert_eq. exact Hi. }
    destruct (idle_finished tap' Hr' Hd') as [Hf' H0'].
    split.
    + apply Forall2_same_length_lookup. rewrite length_insert.
      split; [reflexivity|].
      intros k x y Hx Hy. destruct (decide (i = k)) as [->|Hne].
      * rewrite list_lookup_insert_eq in Hy by exact Hi. injection Hy as <-.
        assert (x = tap) as -> by congruence. exact Hf'.
      * rewrite list_lookup_insert_ne in Hy by assumption.
        assert (x = y) as <- by congruence.
        apply idle_finished.
        -- apply (proj1 (Forall_lookup _ _) Hrange k x Hx).
        -- apply (proj1 (Forall_lookup _ _) Hnext k x).
           rewrite list_lookup_insert_ne by assumption. exact Hx.
    + intros k t Hk. destruct (decide (i = k)) as [->|Hne].
      * assert (t = tap) as -> by congruence.
        rewrite times_of_cons_eq. simpl. lia.
      * rewrite times_of_cons_ne by congruence. simpl. symmetry.
        apply idle_finished.
        -- apply (proj1 (Forall_lookup _ _) Hrange k t Hk).
        -- apply (proj1 (Forall_lookup _ _) Hnext k t).
           rewrite list_lookup_insert_ne by assumption. exact Hk.
Qed.
End MergeTotal.

(** X14: on a device whose transfers succeed, with taps of two or more
    sub-signals whose widths add up, the merge loop comes to its end
    without an error: every tap is handed back finished
    ([cur_sample = samples]), otherwise as it was, and each tap was
    dispatched once for every sample it had left. *)
Theorem dump_taps_total {D} (cb : scope_callback_t D) (hdevice : vx_device_h)
    (words fuel : nat) (i : nat) (taps : list tap_t) (cur : Z) (w : world D) :
  transfers_ok cb ->
  g_callback w = Some cb ->
  Forall well_formed taps -> Forall in_range taps ->
  Forall (fun t => (sample_words t <= words)%nat) taps ->
  find_earliest_tap taps = Some i ->
  (total_remaining taps <= fuel)%nat ->
  ∃ taps' cur' w' log,
    dump_taps words fuel hdevice i taps cur w = (inl (taps', cur'), w') ∧
    dispatched w' = dispatched w ++ log ∧
    Forall2 finished_from taps taps' ∧
    ∀ j t, taps !! j = Some t → length (times_of j log) = remaining t.
Proof. intros Hok. apply dump_taps_finishes. exact Hok. Qed.

(** ** A start on a device whose transfers succeed *)

Section StartLoops.
Context {D : Type} (cb : scope_callback_t D) (h : vx_device_h) (w : world D).
Hypothesis Hok : transfers_ok cb.
Hypothesis Hcb : g_callback w = Some cb.

Lemma write_loop (f : json_tap → Z) (taps : list json_tap) : ∀ d ev,
  ∃ d', for_each (fun tap => reg_write h (f tap)) taps (after w d ev [])
        = (inl tt, after w d' (ev ++ map (fun tap => IoWrite (f tap) 0) taps) []).
Proof.
  induction taps as [|tap rest IH]; intros d ev; cbn [for_each].
  - exists d. simpl. rewrite app_nil_r. reflexivity.
  - destruct (reg_write_ok cb h (f tap) w d ev Hok Hcb) as [d1 E1].
    destruct (IH d1 (ev ++ [IoWrite (f tap) 0])) as [d' E].
    exists d'. unfold bind. rewrite E1, E. simpl.
    rewrite <- app_assoc. reflexivity.
Qed.

Lemma validation_passes (taps : list json_tap) :
  (∀ tap, tap ∈ taps →
     reports_width cb h (u32 (json_id tap)) (u32 (json_width tap))) ->
  ∀ d ev,
  ∃ d', for_each (fun tap =>
            reg_write h (cmd_width (u32 (json_id tap)));;
            let* dev_width := reg_read h in
            if negb (u32 (json_width tap) =? dev_width) then return_ 1
            else ret tt) taps
          (after w d ev [])
        = (inl tt, after w d' (ev ++ width_events taps) []).
Proof.
  induction taps as [|tap rest IH]; intros Hw d ev; cbn [for_each].
  - exists d. unfold width_events. simpl. rewrite app_nil_r. reflexivity.
  - unfold bind at 1. cbv zeta.
    rewrite (request_then cb h _ w d ev [] _ Hok Hcb).
    rewrite (Hw tap ltac:(left) d), Z.eqb_refl. cbn [negb ret].
    destruct (IH (fun t Ht => Hw t ltac:(right; exact Ht))
                (snd (request cb h (cmd_width (u32 (json_id tap))) d))
                (ev ++ [IoWrite (cmd_width (u32 (json_id tap))) 0;
                        IoRead (u32 (json_width tap)) 0])) as [d' E].
    exists d'. etransitivity; [exact E|]. unfold width_events. simpl.
    rewrite <- app_assoc. reflexivity.
Qed.

Lemma validation_fails (before : list json_tap) (tap : json_tap)
    (rest : list json_tap) (answer : Z) :
  (∀ t, t ∈ before →
     reports_width cb h (u32 (json_id t)) (u32 (json_width t))) ->
  reports_width cb h (u32 (json_id tap)) answer ->
  answer <> u32 (json_width tap) ->
  ∀ d ev,
  ∃ d', for_each (fun tap =>
            reg_write h (cmd_width (u32 (json_id tap)));;
            let* dev_width := reg_read h in
            if negb (u32 (json_width tap) =? dev_width) then return_ 1
            else ret tt)
          (before ++ tap :: rest) (after w d ev [])
        = (inr (Status 1),
           after w d' (ev ++ width_events before
                          ++ [IoWrite (cmd_width (u32 (json_id tap))) 0;
                              IoRead answer 0]) []).
Proof.
  induction before as [|t before IH]; intros Hw Ht Hne d ev;
    cbn [app for_each]; unfold bind at 1; cbv zeta;
    rewrite (request_then cb h _ w d ev [] _ Hok Hcb).
  - rewrite (Ht d).
    destruct (Z.eqb_spec (u32 (json_width tap)) answer) as [|_]; [congruence|].
    cbn [negb]. eexists. reflexivity.
  - rewrite (Hw t ltac:(left) d), Z.eqb_refl. cbn [negb ret].
    destruct (IH (fun t' Ht' => Hw t' ltac:(right; exact Ht')) Ht Hne
                (snd (request cb h (cmd_width (u32 (json_id t))) d))
                (ev ++ [IoWrite (cmd_width (u32 (json_id t))) 0;
                        IoRead (u32 (json_width t)) 0])) as [d' E].
    exists d'. etransitivity; [exact E|]. unfold width_events. simpl.
    rewrite <- !app_assoc. reflexivity.
Qed.
End StartLoops.

Lemma start_run {D} (cb : scope_callback_t D) (a : N) (env : environment)
    (taps : list json_tap) (start_time stop_time : Z) (w : world D) :
  transfers_ok cb ->
  manifest_opens env = true ->
  manifest_json env = ParseTaps taps ->
  (∀ tap, tap ∈ taps →
     reports_width cb (Some a) (u32 (json_id tap)) (u32 (json_width tap))) ->
  ∃ d',
    vx_scope_start env (Some cb) (Some a) start_time stop_time w
    = (Status 0,
       {| dev := d';
          io := io w ++ width_events taps
                  ++ map (fun cmd => IoWrite cmd 0)
                       (setup_commands env taps start_time stop_time);
          scope_vcd := scope_vcd w;
          g_running := true;
          g_callback := Some cb;
          auto_stop := auto_stop w ++ [default TIMEOUT_TIME (SCOPE_TIMEOUT env)];
          dispatched := dispatched w |}).
Proof.
  intros Hok Hopen Hjson Hwidths.
  unfold vx_scope_start, call, vx_scope_start_body.
  rewrite Hopen, Hjson. cbn [negb].
  unfold bind at 1. cbn [ret]. unfold bind at 1.
  set (w1 := upd_callback cb w).
  assert (g_callback w1 = Some cb) as Hcb by reflexivity.
  rewrite <- (after_nil w1).
  destruct (validation_passes cb (Some a) w1 Hok Hcb taps Hwidths (dev w1) [])
    as [d1 E1].
  unfold bind at 1. rewrite E1. clear E1.
  assert (∃ d2,
    (match SCOPE_DEPTH env with
     | Some capture_size =>
         for_each (fun tap =>
             reg_write (Some a) (cmd_depth (u32 capture_size) (u32 (json_id tap))))
           taps
     | None => ret tt
     end) (after w1 d1 ([] ++ width_events taps) [])
    = (inl tt,
       after w1 d2
         (([] ++ width_events taps)
            ++ map (fun cmd => IoWrite cmd 0)
                 (match SCOPE_DEPTH env with
                  | Some capture_size =>
                      map (fun tap => cmd_depth (u32 capture_size)
                                        (u32 (json_id tap))) taps
                  | None => []
                  end)) [])) as [d2 E2].
  { destruct (SCOPE_DEPTH env) as [c|].
    - destruct (write_loop cb (Some a) w1 Hok Hcb
                  (fun tap => cmd_depth (u32 c) (u32 (json_id tap))) taps d1
                  ([] ++ width_events taps)) as [d2 E].
      exists d2. rewrite E, map_map. reflexivity.
    - exists d1. simpl. rewrite app_nil_r. reflexivity. }
  unfold bind at 1. rewrite E2. clear E2.
  match goal with
  | |- context [after w1 d2 ?ev []] => set (ev2 := ev)
  end.
  assert (∃ d3,
    (if negb (stop_time =? u64 (-1)) then
       for_each (fun tap =>
           reg_write (Some a) (cmd_stop stop_time (u32 (json_id tap)))) taps
     else ret tt) (after w1 d2 ev2 [])
    = (inl tt,
       after w1 d3
         (ev2 ++ map (fun cmd => IoWrite cmd 0)
                   (if stop_time =? u64 (-1) then []
                    else map (fun tap => cmd_stop stop_time (u32 (json_id tap)))
                           taps)) [])) as [d3 E3].
  { destruct (stop_time =? u64 (-1)); cbn [negb].
    - exists d2. simpl. rewrite app_nil_r. reflexivity.
    - destruct (write_loop cb (Some a) w1 Hok Hcb
                  (fun tap => cmd_stop stop_time (u32 (json_id tap))) taps d2 ev2)
        as [d3 E].
      exists d3. rewrite E, map_map. reflexivity. }
  unfold bind at 1. rewrite E3. clear E3.
  match goal with
  | |- context [after w1 d3 ?ev []] => set (ev3 := ev)
  end.
  assert (∃ d4,
    (if negb (start_time =? u64 (-1)) then
       for_each (fun tap =>
           reg_write (Some a) (cmd_set_start start_time (u32 (json_id tap)))) taps
     else ret tt) (after w1 d3 ev3 [])
    = (inl tt,
       after w1 d4
         (ev3 ++ map (fun cmd => IoWrite cmd 0)
                   (if start_time =? u64 (-1) then []
                    else map (fun tap => cmd_set_start start_time
                                           (u32 (json_id tap))) taps)) []))
    as [d4 E4].
  { destruct (start_time =? u64 (-1)); cbn [negb].
    - exists d3. simpl. rewrite app_nil_r. reflexivity.
    - destruct (write_loop cb (Some a) w1 Hok Hcb
                  (fun tap => cmd_set_start start_time (u32 (json_id tap))) taps
                  d3 ev3) as [d4 E].
      exists d4. rewrite E, map_map. reflexivity. }
  unfold bind at 1. rewrite E4. clear E4.
  exists d4. unfold bind. cbn [fst snd].
  unfold upd_auto_stop, upd_running, after, w1, upd_callback.
  cbn [dev io scope_vcd g_running g_callback auto_stop dispatched].
  unfold ev3, ev2, setup_commands.
  rewrite !map_app, !app_nil_r, <- !app_assoc. reflexivity.
Qed.

(** X19: on a device whose transfers succeed and which reports, for every tap
    of the manifest, the width the manifest gives, Start returns 0 after
    exactly these accesses, in this order: a [GET_WIDTH] request and its
    response for every tap; a [SET_DEPTH] word for every tap if
    [SCOPE_DEPTH] is set; a [SET_STOP] word for every tap unless the stop
    time is [-1]; a [SET_START] word for every tap unless the start time is
    [-1].  The callbacks are installed, the session is running, and one
    watcher is created, with the timeout of [SCOPE_TIMEOUT] or 3600
    seconds.  Whether a session was already running is not looked at. *)
Theorem start_succeeds {D} (cb : scope_callback_t D) (a : N) (env : environment)
    (taps : list json_tap) (start_time stop_time : Z) (w : world D) :
  transfers_ok cb ->
  manifest_opens env = true ->
  manifest_json env = ParseTaps taps ->
  (∀ tap, tap ∈ taps →
     reports_width cb (Some a) (u32 (json_id tap)) (u32 (json_width tap))) ->
  ∃ d',
    vx_scope_start env (Some cb) (Some a) start_time stop_time w
    = (Status 0,
       {| dev := d';
          io := io w ++ width_events taps
                  ++ map (fun cmd => IoWrite cmd 0)
                       (setup_commands env taps start_time stop_time);
          scope_vcd := scope_vcd w;
          g_running := true;
          g_callback := Some cb;
          auto_stop := auto_stop w ++ [default TIMEOUT_TIME (SCOPE_TIMEOUT env)];
          dispatched := dispatched w |}).
Proof.
  intros Hok Hopen Hjson Hwidths.
  destruct (start_run cb a env taps start_time stop_time w Hok Hopen Hjson Hwidths)
    as [d' E].
  exists d'. exact E.
Qed.

Lemma transfers_ok_four_wide : transfers_ok four_wide.
Proof. split; intros; reflexivity. Qed.

Lemma start_succeeds_witness :
  transfers_ok four_wide /\
  (∀ tap, tap ∈ [ {| json_id := 0; json_width := 4; json_path := "top.tap";
                     json_signals := [("a"%string, 1); ("b"%string, 3)] |} ] →
     reports_width four_wide handle (u32 (json_id tap)) (u32 (json_width tap))) /\
  vx_scope_start manifest1 (Some four_wide) handle 5 (u64 (-1)) (fresh tt)
  = (Status 0,
     {| dev := tt;
        io := [IoWrite 0 0; IoRead 4 0; IoWrite 524294 0; IoWrite 10244 0];
        scope_vcd := []; g_running := true; g_callback := Some four_wide;
        auto_stop := [30]; dispatched := [] |}).
Proof.
  assert (∀ tap,
            tap ∈ [ {| json_id := 0; json_width := 4; json_path := "top.tap";
                       json_signals := [("a"%string, 1); ("b"%string, 3)] |} ] →
            reports_width four_wide handle (u32 (json_id tap))
              (u32 (json_width tap))) as Hw.
  { intros tap Ht d. apply list_elem_of_singleton in Ht. subst tap. reflexivity. }
  split; [exact transfers_ok_four_wide|]. split; [exact Hw|].
  destruct (start_succeeds four_wide 1%N manifest1 _ 5 (u64 (-1)) (fresh tt)
              transfers_ok_four_wide eq_refl eq_refl Hw) as [[] E].
  etransitivity; [exact E|]. vm_compute. reflexivity.
Defined.

(** X20: when the device reports for a tap another width than the manifest
    gives, Start returns 1 right after this response: the taps after it
    are not asked, nothing is set up, the session is not marked running
    and no watcher is created; the callbacks, installed before the
    validation, stay installed. *)
Theorem start_width_mismatch {D} (cb : scope_callback_t D) (a : N)
    (env : environment) (before : list json_tap) (tap : json_tap)
    (rest : list json_tap) (answer : Z) (start_time stop_time : Z) (w : world D) :
  transfers_ok cb ->
  manifest_opens env = true ->
  manifest_json env = ParseTaps (before ++ tap :: rest) ->
  (∀ t, t ∈ before →
     reports_width cb (Some a) (u32 (json_id t)) (u32 (json_width t))) ->
  reports_width cb (Some a) (u32 (json_id tap)) answer ->
  answer <> u32 (json_width tap) ->
  ∃ d',
    vx_scope_start env (Some cb) (Some a) start_time stop_time w
    = (Status 1,
       {| dev := d';
          io := io w ++ width_events before
                  ++ [IoWrite (cmd_width (u32 (json_id tap))) 0; IoRead answer 0];
          scope_vcd := scope_vcd w;
          g_running := g_running w;
          g_callback := Some cb;
          auto_stop := auto_stop w;
          dispatched := dispatched w |}).
Proof.
  intros Hok Hopen Hjson Hwidths Hanswer Hne.
  unfold vx_scope_start, call, vx_scope_start_body.
  rewrite Hopen, Hjson. cbn [negb].
  unfold bind at 1. cbn [ret]. unfold bind at 1.
  set (w1 := upd_callback cb w).
  assert (g_callback w1 = Some cb) as Hcb by reflexivity.
  rewrite <- (after_nil w1).
  destruct (validation_fails cb (Some a) w1 Hok Hcb before tap rest answer
              Hwidths Hanswer Hne (dev w1) []) as [d1 E1].
  unfold bind at 1. rewrite E1. exists d1.
  unfold after, w1, upd_callback.
  cbn [dev io scope_vcd g_running g_callback auto_stop dispatched app].
  rewrite app_nil_r. reflexivity.
Qed.

Lemma start_width_mismatch_witness :
  transfers_ok four_wide /\
  manifest_json manifest2
  = ParseTaps
      ([ {| json_id := 0; json_width := 4; json_path := "top.tap";
            json_signals := [("a"%string, 1); ("b"%string, 3)] |} ]
         ++ {| json_id := 1; json_width := 2; json_path := "top.tap2";
               json_signals := [("c"%string, 1); ("d"%string, 1)] |} :: []) /\
  reports_width four_wide handle 1 4 /\
  vx_scope_start manifest2 (Some four_wide) handle 5 9 (fresh tt)
  = (Status 1,
     {| dev := tt;
        io := [IoWrite 0 0; IoRead 4 0; IoWrite 8 0; IoRead 4 0];
        scope_vcd := []; g_running := false; g_callback := Some four_wide;
        auto_stop := []; dispatched := [] |}).
Proof.
  assert (∀ t,
            t ∈ [ {| json_id := 0; json_width := 4; json_path := "top.tap";
                     json_signals := [("a"%string, 1); ("b"%string, 3)] |} ] →
            reports_width four_wide handle (u32 (json_id t))
              (u32 (json_width t))) as Hw.
  { intros t Ht d. apply list_elem_of_singleton in Ht. subst t. reflexivity. }
  assert (reports_width four_wide handle 1 4) as H4 by (intros d; reflexivity).
  split; [exact transfers_ok_four_wide|]. split; [reflexivity|].
  split; [exact H4|].
  destruct (start_width_mismatch four_wide 1%N manifest2
              [ {| json_id := 0; json_width := 4; json_path := "top.tap";
                   json_signals := [("a"%string, 1); ("b"%string, 3)] |} ]
              {| json_id := 1; json_width := 2; json_path := "top.tap2";
                 json_signals := [("c"%string, 1); ("d"%string, 1)] |}
              [] 4 5 9 (fresh tt)
              transfers_ok_four_wide eq_refl eq_refl Hw H4 ltac:(discriminate))
    as [[] E].
  etransitivity; [exact E|]. vm_compute. reflexivity.
Defined.

Lemma well_formed_tap11 : well_formed tap11.
Proof.
  repeat constructor; simpl; lia.
Qed.

Lemma dump_taps_total_witness :
  transfers_ok scripted /\
  Forall well_formed [tap13; tap11] /\ Forall in_range [tap13; tap11] /\
  find_earliest_tap [tap13; tap11] = Some 0%nat /\
  (total_remaining [tap13; tap11] <= 3)%nat /\
  ∃ taps' cur' w' log,
    dump_taps 1 3 handle 0 [tap13; tap11] 0 (session [11; 4; 2; 13] true)
    = (inl (taps', cur'), w') ∧
    dispatched w' = [] ++ log ∧
    Forall2 finished_from [tap13; tap11] taps' ∧
    ∀ j t, [tap13; tap11] !! j = Some t → length (times_of j log) = remaining t.
Proof.
  assert (Forall well_formed [tap13; tap11]) as H1
    by (constructor; [apply well_formed_tap13|];
        constructor; [apply well_formed_tap11 | constructor]).
  assert (Forall in_range [tap13; tap11]) as H2
    by (constructor; [split; simpl; lia|];
        constructor; [split; simpl; lia | constructor]).
  assert (Forall (fun t => (sample_words t <= 1)%nat) [tap13; tap11]) as H3
    by (constructor; [vm_compute; lia|];
        constructor; [vm_compute; lia | constructor]).
  assert (find_earliest_tap [tap13; tap11] = Some 0%nat) as H4 by reflexivity.
  assert (total_remaining [tap13; tap11] <= 3)%nat as H5 by (vm_compute; lia).
  split; [exact transfers_ok_scripted|]. split; [exact H1|]. split; [exact H2|].
  split; [exact H4|]. split; [exact H5|].
  exact (dump_taps_total scripted handle 1 3 0 [tap13; tap11] 0
           (session [11; 4; 2; 13] true) transfers_ok_scripted eq_refl
           H1 H2 H3 H4 H5).
Defined.

(** ** [CHECK_ERR]: a failed transfer ends the call *)

Section Checked.
Context {D : Type}.

Lemma checked_quiet {A} (m : M D A) :
  (∀ w, io (snd (m w)) = io w) -> checked m.
Proof.
  intros H w r w' Hrun. exists []. split.
  - specialize (H w). rewrite Hrun in H. simpl in H. rewrite app_nil_r. exact H.
  - left. constructor.
Qed.

Lemma checked_ret {A} (a : A) : checked (D:=D) (ret a).
Proof. apply checked_quiet. reflexivity. Qed.

Lemma checked_stop_with {A} (h : halt) : checked (D:=D) (A:=A) (stop_with h).
Proof. apply checked_quiet. reflexivity. Qed.

Lemma checked_return {A} (status : Z) : checked (D:=D) (A:=A) (return_ status).
Proof. apply checked_quiet. reflexivity. Qed.

Lemma checked_emit lines : checked (D:=D) (emit lines).
Proof. apply checked_quiet. reflexivity. Qed.

Lemma checked_lift_ub {A} (o : option A) : checked (D:=D) (lift_ub o).
Proof. destruct o; [apply checked_ret | apply checked_stop_with]. Qed.

Lemma checked_update (f : world D → world D) :
  (∀ w, io (f w) = io w) -> checked (fun w => (inl tt, f w)).
Proof. intros H. apply checked_quiet. exact H. Qed.

Lemma checked_bind {A B} (m : M D A) (k : A → M D B) :
  checked m -> (∀ a, checked (k a)) -> checked (bind m k).
Proof.
  intros Hm Hk w r w' Hrun. unfold bind in Hrun.
  destruct (m w) as [[a|h] w1] eqn:Em.
  - destruct (Hm w _ _ Em) as (e1 & Hio1 & [Hc1 | (e0 & e & _ & _ & _ & Hr)]);
      [|discriminate Hr].
    destruct (Hk a w1 _ _ Hrun) as (e2 & Hio2 & Hout).
    exists (e1 ++ e2). split; [rewrite Hio2, Hio1, app_assoc; reflexivity|].
    destruct Hout as [Hc2 | (e0 & e & -> & Hc0 & Hne & Hr)].
    + left. apply Forall_app; split; assumption.
    + right. exists (e1 ++ e0), e. rewrite app_assoc.
      split; [reflexivity|]. split; [apply Forall_app; split; assumption|].
      split; assumption.
  - injection Hrun as <- <-.
    destruct (Hm w _ _ Em) as (e1 & Hio1 & [Hc1 | (e0 & e & -> & Hc0 & Hne & Hr)]);
      exists e1 + exists (e0 ++ [e]); (split; [exact Hio1|]).
    + left. exact Hc1.
    + injection Hr as ->. right. exists e0, e. repeat split; assumption.
Qed.

Lemma checked_reg_write h v : checked (D:=D) (reg_write h v).
Proof.
  intros w r w' Hrun. unfold reg_write in Hrun.
  destruct (g_callback w) as [cb|].
  2:{ injection Hrun as <- <-. exists []. rewrite app_nil_r.
      split; [reflexivity | left; constructor]. }
  destruct (registerWrite cb h v (dev w)) as [err d].
  exists [IoWrite v err].
  destruct (Z.eqb_spec err 0) as [->|Hne]; injection Hrun as <- <-;
    (split; [reflexivity|]).
  - left. repeat constructor.
  - right. exists [], (IoWrite v err). repeat split; [constructor | exact Hne].
Qed.

Lemma checked_reg_read h : checked (D:=D) (reg_read h).
Proof.
  intros w r w' Hrun. unfold reg_read in Hrun.
  destruct (g_callback w) as [cb|].
  2:{ injection Hrun as <- <-. exists []. rewrite app_nil_r.
      split; [reflexivity | left; constructor]. }
  destruct (registerRead cb h (dev w)) as [[err v] d].
  exists [IoRead (u64 v) err].
  destruct (Z.eqb_spec err 0) as [->|Hne]; injection Hrun as <- <-;
    (split; [reflexivity|]).
  - left. repeat constructor.
  - right. exists [], (IoRead (u64 v) err).
    repeat split; [constructor | exact Hne].
Qed.

Lemma checked_for_each {A} (body : A → M D unit) (l : list A) :
  (∀ a, checked (body a)) -> checked (for_each body l).
Proof.
  intros Hbody. induction l as [|a l IH]; cbn [for_each].
  - apply checked_ret.
  - apply checked_bind; [apply Hbody | intros _; exact IH].
Qed.

Lemma checked_for_each_tap (body : tap_t → M D tap_t) (taps : list tap_t) :
  (∀ tap, checked (body tap)) -> checked (for_each_tap body taps).
Proof.
  intros Hbody. induction taps as [|tap rest IH]; cbn [for_each_tap].
  - apply checked_ret.
  - apply checked_bind; [apply Hbody|]. intros tap'.
    apply checked_bind; [exact IH|]. intros rest'. apply checked_ret.
Qed.
End Checked.

(** The rules above, applied as far as they go. *)
Ltac checked_step :=
  first
    [ apply checked_ret | apply checked_stop_with | apply checked_return
    | apply checked_emit | apply checked_lift_ub
    | apply checked_reg_write | apply checked_reg_read
    | apply checked_update; reflexivity
    | apply checked_quiet; reflexivity
    | apply checked_bind; [|intros]
    | apply checked_for_each; intros
    | apply checked_for_each_tap; intros
    | assumption
    | match goal with
      | |- checked (if ?b then _ else _) => destruct b
      | |- checked (match ?x with _ => _ end) => destruct x
      end ].

Section CheckedCalls.
Context {D : Type}.

Lemma checked_end_of_sample h tap st : checked (D:=D) (end_of_sample h tap st).
Proof. unfold end_of_sample. repeat checked_step. Qed.

Lemma checked_decode_bit h tap st : checked (D:=D) (decode_bit h tap st).
Proof.
  unfold decode_bit, deref.
  repeat first [apply checked_end_of_sample | checked_step].
Qed.

Lemma checked_decode_word fuel : ∀ h tap st,
  checked (D:=D) (decode_word fuel h tap st).
Proof.
  induction fuel as [|fuel IH]; intros h tap st; cbn [decode_word].
  - apply checked_stop_with.
  - apply checked_bind; [apply checked_decode_bit|].
    intros [[tap' st'] break]. destruct break; [apply checked_ret|].
    destruct (sample_offset st' mod 64 =? 0); [apply checked_ret | apply IH].
Qed.

Lemma checked_decode_sample fuel : ∀ h tap st,
  checked (D:=D) (decode_sample fuel h tap st).
Proof.
  induction fuel as [|fuel IH]; intros h tap st; cbn [decode_sample].
  - apply checked_stop_with.
  - apply checked_bind; [apply checked_reg_write|]. intros _.
    apply checked_bind; [apply checked_reg_read|]. intros w.
    apply checked_bind; [apply checked_decode_word|]. intros [tap' st'].
    destruct (sample_offset st' =? tap_width tap'); [apply checked_ret | apply IH].
Qed.

Lemma checked_dump_tap fuel h tap : checked (D:=D) (dump_tap fuel h tap).
Proof.
  unfold dump_tap, deref.
  apply checked_bind; [apply checked_lift_ub|]. intros first.
  apply checked_decode_sample.
Qed.

Lemma checked_load_trace_info h tap : checked (D:=D) (load_trace_info h tap).
Proof. unfold load_trace_info. repeat checked_step. Qed.

Lemma checked_dump_taps words fuel : ∀ h i taps cur,
  checked (D:=D) (dump_taps words fuel h i taps cur).
Proof.
  induction fuel as [|fuel IH]; intros h i taps cur; cbn [dump_taps].
  - apply checked_stop_with.
  - apply checked_bind; [apply checked_lift_ub|]. intros tap.
    apply checked_bind; [apply checked_update; reflexivity|]. intros _.
    destruct (advance_clock cur (cycle_time tap)) as [lines cur'].
    apply checked_bind; [apply checked_emit|]. intros _.
    apply checked_bind; [apply checked_dump_tap|]. intros tap'.
    destruct (find_earliest_tap (<[i:=tap']> taps)); [apply IH | apply checked_ret].
Qed.

Lemma checked_stop_and_dump iteration_order fuel env h :
  checked (D:=D) (stop_and_dump iteration_order fuel env h).
Proof.
  unfold stop_and_dump.
  repeat first [apply checked_load_trace_info | apply checked_dump_taps
               | checked_step].
Qed.

Lemma checked_stop_body iteration_order fuel env h :
  checked (D:=D) (vx_scope_stop_body iteration_order fuel env h).
Proof.
  unfold vx_scope_stop_body.
  repeat first [apply checked_stop_and_dump | checked_step].
Qed.

Lemma checked_start_body env callback h start_time stop_time :
  checked (D:=D) (vx_scope_start_body env callback h start_time stop_time).
Proof. unfold vx_scope_start_body. repeat checked_step. Qed.

Lemma checked_call (body : M D unit) (w : world D) :
  checked body ->
  ∃ ev, io (snd (call body w)) = io w ++ ev ∧
        checked_outcome (fun h => h) ev (fst (call body w)).
Proof.
  intros Hb. unfold call.
  destruct (body w) as [[[]|h] w'] eqn:E;
    destruct (Hb w _ _ E) as (ev & Hio & Hout); exists ev;
    (split; [exact Hio|]);
    (destruct Hout as [Hc | (e0 & e & -> & Hc & Hne & Hr)];
     [left; exact Hc|]).
  - discriminate Hr.
  - injection Hr as ->. right. exists e0, e. repeat split; assumption.
Qed.
End CheckedCalls.

(** X18: in every call of Start and of Stop, on any device: a register access
    that returns a status other than 0 is the last access of the call, and
    the call returns this status. *)
Theorem failed_transfer_ends_call {D} iteration_order fuel env
    (callback : option (scope_callback_t D)) (hdevice : vx_device_h)
    (start_time stop_time : Z) (w : world D) :
  (∃ ev,
     io (snd (vx_scope_start env callback hdevice start_time stop_time w))
     = io w ++ ev ∧
     checked_outcome (fun h => h) ev
       (fst (vx_scope_start env callback hdevice start_time stop_time w))) ∧
  (∃ ev,
     io (snd (vx_scope_stop iteration_order fuel env hdevice w)) = io w ++ ev ∧
     checked_outcome (fun h => h) ev
       (fst (vx_scope_stop iteration_order fuel env hdevice w))).
Proof.
  split.
  - apply checked_call, checked_start_body.
  - apply checked_call, checked_stop_body.
Qed.

(** ** A stop whose first write is refused *)

(** X17: when the device refuses the [SET_STOP] word of the first tap, Stop
    returns the status of this write right away: the running flag is
    already cleared, no other access is made, and the file is neither
    created nor changed. *)
Theorem stop_write_refused {D} (cb : scope_callback_t D) (a : N) iteration_order
    (fuel : nat) (env : environment) (tap : json_tap) (rest : list json_tap)
    (err : Z) (d' : D) (w : world D) :
  g_running w = true ->
  g_callback w = Some cb ->
  manifest_json env = ParseTaps (tap :: rest) ->
  registerWrite cb (Some a) (cmd_stop_now (u32 (json_id tap))) (dev w) = (err, d') ->
  err <> 0 ->
  vx_scope_stop iteration_order fuel env (Some a) w
  = (Status err,
     {| dev := d';
        io := io w ++ [IoWrite (cmd_stop_now (u32 (json_id tap))) err];
        scope_vcd := scope_vcd w;
        g_running := false;
        g_callback := g_callback w;
        auto_stop := auto_stop w;
        dispatched := dispatched w |}).
Proof.
  intros Hrun Hcb Hjson Hwrite Hne.
  unfold vx_scope_stop, call, vx_scope_stop_body.
  unfold bind at 1. rewrite Hrun. cbn [negb fst snd].
  unfold bind at 1. unfold stop_and_dump. rewrite Hjson.
  unfold bind at 1. cbn [ret read_taps].
  destruct (read_signals 1 (json_signals tap)) as [sigs next].
  cbn [for_each]. unfold bind at 1. unfold bind at 1. unfold reg_write.
  cbn [g_callback dev upd_running tap_id]. rewrite Hcb, Hwrite.
  destruct (Z.eqb_spec err 0) as [|_]; [contradiction|].
  unfold upd_dev, upd_running.
  cbn [dev io scope_vcd g_running g_callback auto_stop dispatched].
  rewrite Hcb. reflexivity.
Qed.

Lemma stop_write_refused_witness :
  g_running refusing_session = true /\
  vx_scope_stop elements 10 manifest2 handle refusing_session
  = (Status 5,
     {| dev := tt; io := [IoWrite 5 5]; scope_vcd := [LText "kept"];
        g_running := false; g_callback := Some refusing;
        auto_stop := [3600]; dispatched := [] |}).
Proof.
  split; [reflexivity|].
  exact (stop_write_refused refusing 1%N elements 10 manifest2 _ _ 5 tt
           refusing_session eq_refl eq_refl eq_refl eq_refl ltac:(discriminate)).
Defined.

(** ** The words of a stop *)

Section Talks.
Context {D : Type} (E : io_event → Prop).

Lemma talks_of_triple {A} (m : M D A) L G (P : A → Prop) :
  triple m E L G P -> talks E P m.
Proof.
  intros Hm w r w' Hrun.
  destruct (Hm w r w' Hrun) as [(ev & lines & log & X & He & _) HP].
  destruct X. split; [exists ev; split; assumption|].
  split; [assumption|]. split; assumption.
Qed.

Lemma talks_bind {A B} (m : M D A) (k : A → M D B) (P : A → Prop)
    (Q : B → Prop) :
  talks E P m -> (∀ a, P a → talks E Q (k a)) -> talks E Q (bind m k).
Proof.
  intros Hm Hk w r w' Hrun. unfold bind in Hrun.
  destruct (m w) as [[a|h] w1] eqn:Em.
  - destruct (Hm w _ _ Em) as ((e1 & Hio1 & He1) & Hc1 & Ha1 & HP).
    destruct (Hk a (HP a eq_refl) w1 _ _ Hrun)
      as ((e2 & Hio2 & He2) & Hc2 & Ha2 & HQ).
    split; [|repeat split; try congruence; exact HQ].
    exists (e1 ++ e2).
    split; [rewrite Hio2, Hio1, app_assoc; reflexivity|].
    apply Forall_app; split; assumption.
  - injection Hrun as <- <-.
    destruct (Hm w _ _ Em) as (Hev & Hc1 & Ha1 & _).
    split; [exact Hev|]. repeat split; try assumption.
    intros a Ha. discriminate Ha.
Qed.

Lemma talks_quiet {A} (m : M D A) (P : A → Prop) :
  (∀ w, io (snd (m w)) = io w ∧ g_callback (snd (m w)) = g_callback w ∧
        auto_stop (snd (m w)) = auto_stop w ∧
        ∀ a, fst (m w) = inl a → P a) ->
  talks E P m.
Proof.
  intros H w r w' Hrun. specialize (H w). rewrite Hrun in H. simpl in H.
  destruct H as (Hio & Hc & Ha & HP).
  split; [exists []; rewrite app_nil_r; split; [exact Hio | constructor]|].
  repeat split; assumption.
Qed.
End Talks.

Lemma read_taps_tap_ids l : ∀ s,
  map tap_id (read_taps s l) = map (fun tap => u32 (json_id tap)) l.
Proof.
  induction l as [|tap rest IH]; intros s; cbn [read_taps]; [reflexivity|].
  destruct (read_signals s (json_signals tap)) as [sigs next].
  cbn [map tap_id]. rewrite IH. reflexivity.
Qed.

Lemma load_loop_ids {D} h (taps all : list tap_t) L G :
  (∀ t, t ∈ taps → t ∈ all) ->
  triple (D:=D) (for_each_tap (load_trace_info h) taps) (info_event_of all) L G
    (fun taps' => map tap_id taps' = map tap_id taps).
Proof.
  induction taps as [|tap rest IH]; intros Hsub; cbn [for_each_tap].
  - apply triple_ret. reflexivity.
  - eapply triple_bind.
    + eapply triple_events; [apply load_trace_info_triple|].
      intros e He. exists tap. split; [apply Hsub; left | exact He].
    + intros tap' Htap'. eapply triple_bind.
      * apply IH. intros t Ht. apply Hsub. right. exact Ht.
      * intros rest' Hrest'. apply triple_ret. cbn [map]. rewrite Hrest'.
        f_equal. destruct Htap' as [->|(count & time & ->)]; reflexivity.
Qed.

Lemma stop_event_of_tap (taps : list tap_t) ids t v err :
  map tap_id taps = ids -> t ∈ taps ->
  v = cmd_stop_now (tap_id t) ∨ v = cmd_count (tap_id t) ∨
  v = cmd_get_start (tap_id t) ∨ v = cmd_data (tap_id t) ->
  stop_event ids (IoWrite v err).
Proof.
  intros <- Ht Hv. exists (tap_id t). split; [|exact Hv].
  apply list_elem_of_fmap. exists t. split; [reflexivity | exact Ht].
Qed.

Lemma stop_and_dump_talks {D} iteration_order fuel env h :
  talks (D:=D) (stop_event (manifest_ids env)) (fun _ => True)
    (stop_and_dump iteration_order fuel env h).
Proof.
  unfold stop_and_dump, manifest_ids.
  destruct (manifest_json env) as [| |l].
  { apply (talks_bind _ _ _ (fun _ => False));
      [apply talks_quiet; intros w; repeat split; intros a Ha; discriminate Ha
      | intros a []]. }
  { apply (talks_bind _ _ _ (fun _ => False));
      [apply talks_quiet; intros w; repeat split; intros a Ha; discriminate Ha
      | intros a []]. }
  set (ids := map (fun tap => u32 (json_id tap)) l).
  apply (talks_bind _ _ _ (fun taps => map tap_id taps = ids)).
  { apply talks_quiet. intros w. repeat split.
    intros a Ha. injection Ha as <-. apply read_taps_tap_ids. }
  intros taps Hids.
  apply (talks_bind _ _ _ (fun _ => True)).
  { eapply talks_of_triple.
    apply (triple_for_each _ (fun _ => True) (fun _ => True)).
    intros tap Htap. apply triple_reg_write. intros err.
    apply (stop_event_of_tap taps ids tap); auto. }
  intros _ _.
  apply (talks_bind _ _ _ (fun taps' => map tap_id taps' = ids)).
  { apply (talks_of_triple _ _ (fun _ => True) (fun _ => True)).
    eapply triple_weaken;
      [apply (load_loop_ids h taps taps (fun _ => True) (fun _ => True)); auto
      | | auto | auto | ].
    - intros [v err|v err] (t & Ht & He); [|exact I].
      apply (stop_event_of_tap taps ids t); [exact Hids | exact Ht|].
      simpl in He. tauto.
    - intros taps' H. cbv beta in *. congruence. }
  intros taps' Hids'.
  apply (talks_bind _ _ _ (fun _ => True)).
  { apply talks_quiet. intros w. repeat split. }
  intros _ _.
  apply (talks_bind _ _ _ (fun _ => True)).
  { destruct (dump_header iteration_order fuel taps');
      apply talks_quiet; intros w; repeat split. }
  intros header _.
  apply (talks_bind _ _ _ (fun _ => True)).
  { apply talks_quiet. intros w. repeat split. }
  intros _ _.
  destruct (find_earliest_tap taps') as [i|] eqn:Hfind.
  2:{ apply talks_quiet. intros w. repeat split. }
  apply (talks_bind _ _ _ (fun _ => True)).
  { apply (talks_of_triple _ _ (fun _ => True) (fun _ => True)).
    eapply triple_weaken; [apply (dump_taps_triple h fuel fuel i taps' 0 Hfind)
                          | | auto | auto | auto].
    intros [v err|v err] (t & Ht & _ & He); [|exact I].
    apply (stop_event_of_tap taps' ids t); [exact Hids' | exact Ht|].
    simpl in He. tauto. }
  intros [taps'' cur] _.
  apply talks_quiet. intros w. repeat split.
Qed.

Lemma stop_body_talks {D} iteration_order (fuel : nat) (env : environment)
    (hdevice : vx_device_h) :
  talks (D:=D) (stop_event (manifest_ids env)) (fun _ => True)
    (vx_scope_stop_body iteration_order fuel env hdevice).
Proof.
  unfold vx_scope_stop_body. destruct hdevice as [a|].
  2:{ apply talks_quiet. intros w0. repeat split. }
  apply (talks_bind _ _ _ (fun _ => True)).
  { apply talks_quiet. intros w0. repeat split. }
  intros running _. destruct running; cbn [negb].
  - apply (talks_bind _ _ _ (fun _ => True)).
    { apply talks_quiet. intros w0. repeat split. }
    intros _ _. apply stop_and_dump_talks.
  - apply talks_quiet. intros w0. repeat split.
Qed.

(** X16: what a Stop writes to the device, on any device and whatever its
    outcome: only the hard stop ([SET_STOP] with the time 0), [GET_COUNT],
    [GET_START] and [GET_DATA], and only for tap ids of the manifest.  It
    never starts a capture or sets a depth, and it leaves the installed
    callbacks and the watchers as they are. *)
Theorem stop_commands {D} iteration_order (fuel : nat) (env : environment)
    (hdevice : vx_device_h) (w : world D) :
  (∃ ev,
     io (snd (vx_scope_stop iteration_order fuel env hdevice w)) = io w ++ ev ∧
     Forall (stop_event (manifest_ids env)) ev) ∧
  g_callback (snd (vx_scope_stop iteration_order fuel env hdevice w))
  = g_callback w ∧
  auto_stop (snd (vx_scope_stop iteration_order fuel env hdevice w))
  = auto_stop w.
Proof.
  unfold vx_scope_stop, call.
  destruct (vx_scope_stop_body iteration_order fuel env hdevice w)
    as [[[]|hh] w'] eqn:E;
    destruct (stop_body_talks iteration_order fuel env hdevice w _ _ E)
      as (Hev & Hc & Ha & _); cbn [fst snd];
    (split; [exact Hev|]); split; assumption.
Qed.

(** ** What a start leaves behind *)

Section Framed.
Context {D : Type}.

Lemma framed_ret {A} (a : A) : framed (D:=D) (ret a).
Proof. intros w r w' H. injection H as <- <-. repeat split. discriminate. Qed.

Lemma framed_stop_with {A} (h : halt) :
  h <> Status 0 -> framed (D:=D) (A:=A) (stop_with h).
Proof.
  intros Hh w r w' H. injection H as <- <-. repeat split. congruence.
Qed.

Lemma framed_bind {A B} (m : M D A) (k : A → M D B) :
  framed m -> (∀ a, framed (k a)) -> framed (bind m k).
Proof.
  intros Hm Hk w r w' Hrun. unfold bind in Hrun.
  destruct (m w) as [[a|h] w1] eqn:Em.
  - destruct (Hm w _ _ Em) as (? & ? & ? & ? & ? & _).
    destruct (Hk a w1 _ _ Hrun) as (? & ? & ? & ? & ? & ?).
    repeat split; congruence.
  - injection Hrun as <- <-.
    destruct (Hm w _ _ Em) as (? & ? & ? & ? & ? & Hr).
    repeat split; try assumption. congruence.
Qed.

Lemma framed_reg_write h v : framed (D:=D) (reg_write h v).
Proof.
  intros w r w' Hrun. unfold reg_write in Hrun.
  destruct (g_callback w) as [cb|] eqn:Hcb.
  2:{ injection Hrun as <- <-. repeat split; congruence. }
  destruct (registerWrite cb h v (dev w)) as [err d].
  destruct (Z.eqb_spec err 0) as [->|Hne]; injection Hrun as <- <-;
    repeat split; simpl; congruence.
Qed.

Lemma framed_reg_read h : framed (D:=D) (reg_read h).
Proof.
  intros w r w' Hrun. unfold reg_read in Hrun.
  destruct (g_callback w) as [cb|] eqn:Hcb.
  2:{ injection Hrun as <- <-. repeat split; congruence. }
  destruct (registerRead cb h (dev w)) as [[err v] d].
  destruct (Z.eqb_spec err 0) as [->|Hne]; injection Hrun as <- <-;
    repeat split; simpl; congruence.
Qed.

Lemma framed_for_each {A} (body : A → M D unit) (l : list A) :
  (∀ a, framed (body a)) -> framed (for_each body l).
Proof.
  intros Hbody. induction l as [|a l IH]; cbn [for_each].
  - apply framed_ret.
  - apply framed_bind; [apply Hbody | intros _; exact IH].
Qed.

Lemma starting_bind {A} (t : Z) (m : M D A) (k : A → M D unit) :
  framed m -> (∀ a, starting t (k a)) -> starting t (bind m k).
Proof.
  intros Hm Hk w r w' Hrun. unfold bind in Hrun.
  destruct (m w) as [[a|h] w1] eqn:Em.
  - destruct (Hm w _ _ Em) as (Hv & Hd & Hr & Ha & Hc & _).
    destruct (Hk a w1 _ _ Hrun) as (Hv' & Hd' & Hc' & Hout).
    split; [congruence|]. split; [congruence|]. split; [congruence|].
    destruct r as [[]|h]; rewrite <- ?Hr, <- ?Ha; exact Hout.
  - injection Hrun as <- <-.
    destruct (Hm w _ _ Em) as (Hv & Hd & Hr & Ha & Hc & Hne).
    repeat split; try assumption. congruence.
Qed.

Lemma starting_end (t : Z) :
  starting (D:=D) t
    ((fun w => (inl tt, upd_running true w));;
     (fun w => (inl tt, upd_auto_stop t w))).
Proof. intros w r w' Hrun. injection Hrun as <- <-. repeat split. Qed.

Lemma starting_stop_with (t : Z) (h : halt) :
  h <> Status 0 -> starting (D:=D) t (stop_with h).
Proof. intros Hh w r w' Hrun. injection Hrun as <- <-. repeat split. exact Hh. Qed.
End Framed.

Lemma start_body_frame {D} (env : environment)
    (callback : option (scope_callback_t D)) (hdevice : vx_device_h)
    (start_time stop_time : Z) (w0 : world D) r w' :
  vx_scope_start_body env callback hdevice start_time stop_time w0 = (r, w') ->
  scope_vcd w' = scope_vcd w0 ∧
  (g_callback w' = g_callback w0 ∨
   ∃ cb, callback = Some cb ∧ g_callback w' = Some cb) ∧
  match r with
  | inl _ => g_running w' = true ∧
             auto_stop w' = auto_stop w0 ++ [default TIMEOUT_TIME (SCOPE_TIMEOUT env)] ∧
             g_callback w' = callback ∧ is_Some callback
  | inr h => h ≠ Status 0 ∧ g_running w' = g_running w0 ∧
             auto_stop w' = auto_stop w0
  end.
Proof.
  set (t := default TIMEOUT_TIME (SCOPE_TIMEOUT env)).
  unfold vx_scope_start_body.
  destruct hdevice as [a|];
    [|intros H; injection H as <- <-; repeat split; [left; reflexivity | discriminate]].
  destruct callback as [cb|];
    [|intros H; injection H as <- <-; repeat split; [left; reflexivity | discriminate]].
  destruct (manifest_opens env); cbn [negb];
    [|intros H; injection H as <- <-; repeat split; [left; reflexivity | discriminate]].
  unfold bind at 1.
  destruct (manifest_json env) as [| |l];
    [intros H; injection H as <- <-; repeat split; [left; reflexivity | discriminate]
    |intros H; injection H as <- <-; repeat split; [left; reflexivity | discriminate]|].
  cbn [ret]. unfold bind at 1.
  match goal with
  | |- ?m (upd_callback cb w0) = _ → _ => assert (starting t m) as Hrest
  end.
  { apply starting_bind.
    { apply framed_for_each. intros tap. cbv zeta.
      apply framed_bind; [apply framed_reg_write|]. intros _.
      apply framed_bind; [apply framed_reg_read|]. intros dev_width.
      destruct (negb (u32 (json_width tap) =? dev_width));
        [apply framed_stop_with; discriminate | apply framed_ret]. }
    intros _. apply starting_bind.
    { destruct (SCOPE_DEPTH env);
        [apply framed_for_each; intros tap; apply framed_reg_write
        | apply framed_ret]. }
    intros _. apply starting_bind.
    { destruct (negb (stop_time =? u64 (-1)));
        [apply framed_for_each; intros tap; apply framed_reg_write
        | apply framed_ret]. }
    intros _. apply starting_bind.
    { destruct (negb (start_time =? u64 (-1)));
        [apply framed_for_each; intros tap; apply framed_reg_write
        | apply framed_ret]. }
    intros _. apply starting_end. }
  intros Hrun.
  destruct (Hrest (upd_callback cb w0) r w' Hrun) as (Hv & Hd & Hc & Hout).
  split; [exact Hv|]. split; [right; exists cb; split; [reflexivity | exact Hc]|].
  destruct r as [[]|h]; [|exact Hout].
  destruct Hout as [Hr Ha]. repeat split; try assumption. eexists. reflexivity.
Qed.

(** X21: Start marks the session running, and creates its one watcher, exactly
    when it returns 0; with any other outcome the running flag and the
    watchers are as they were.  In no case does it touch the file. *)
Theorem start_marks_running {D} (env : environment)
    (callback : option (scope_callback_t D)) (hdevice : vx_device_h)
    (start_time stop_time : Z) (w : world D) :
  scope_vcd (snd (vx_scope_start env callback hdevice start_time stop_time w))
  = scope_vcd w ∧
  (fst (vx_scope_start env callback hdevice start_time stop_time w) = Status 0 →
   g_running (snd (vx_scope_start env callback hdevice start_time stop_time w))
   = true ∧
   auto_stop (snd (vx_scope_start env callback hdevice start_time stop_time w))
   = auto_stop w ++ [default TIMEOUT_TIME (SCOPE_TIMEOUT env)] ∧
   g_callback (snd (vx_scope_start env callback hdevice start_time stop_time w))
   = callback) ∧
  (fst (vx_scope_start env callback hdevice start_time stop_time w) ≠ Status 0 →
   g_running (snd (vx_scope_start env callback hdevice start_time stop_time w))
   = g_running w ∧
   auto_stop (snd (vx_scope_start env callback hdevice start_time stop_time w))
   = auto_stop w).
Proof.
  unfold vx_scope_start, call.
  destruct (vx_scope_start_body env callback hdevice start_time stop_time w)
    as [[[]|h] w'] eqn:E;
    destruct (start_body_frame _ _ _ _ _ _ _ _ E) as (Hv & _ & Hout);
    cbn [fst snd].
  - destruct Hout as (Hr & Ha & Hc & _).
    split; [exact Hv|].
    split; [intros _; repeat split; assumption | intros H; congruence].
  - destruct Hout as (Hne & Hr & Ha).
    split; [exact Hv|]. split; [intros H; congruence | intros _; split; assumption].
Qed.

Lemma start_marks_running_witness :
  (fst (vx_scope_start manifest1 (Some four_wide) handle 5 (u64 (-1)) (fresh tt))
   = Status 0) /\
  (g_running
     (snd (vx_scope_start manifest1 (Some four_wide) handle 5 (u64 (-1))
             (fresh tt)))
   = true) /\
  (auto_stop
     (snd (vx_scope_start manifest1 (Some four_wide) handle 5 (u64 (-1))
             (fresh tt)))
   = [30]) /\
  (fst (vx_scope_start manifest2 (Some four_wide) handle 5 9 (fresh tt))
   <> Status 0) /\
  (g_running (snd (vx_scope_start manifest2 (Some four_wide) handle 5 9 (fresh tt)))
   = false) /\
  (auto_stop (snd (vx_scope_start manifest2 (Some four_wide) handle 5 9 (fresh tt)))
   = []).
Proof.
  assert (fst (vx_scope_start manifest1 (Some four_wide) handle 5 (u64 (-1))
                 (fresh tt)) = Status 0) as H1 by (vm_compute; reflexivity).
  assert (fst (vx_scope_start manifest2 (Some four_wide) handle 5 9 (fresh tt))
          <> Status 0) as H2 by (vm_compute; discriminate).
  destruct (start_marks_running manifest1 (Some four_wide) handle 5 (u64 (-1))
              (fresh tt)) as (_ & Hyes & _).
  destruct (start_marks_running manifest2 (Some four_wide) handle 5 9 (fresh tt))
    as (_ & _ & Hno).
  destruct (Hyes H1) as (Hr & Ha & _). destruct (Hno H2) as (Hr' & Ha').
  split; [exact H1|]. split; [exact Hr|]. split; [exact Ha|].
  split; [exact H2|]. split; [exact Hr' | exact Ha'].
Defined.

(** ** Signal identifiers and command words *)

(** X23: [vx_scope_stop] numbers the sub-signals 1, 2, 3, ... through all taps
    in the order of the manifest; the identifier 0, which the header gives
    to the clock, is given to no sub-signal. *)
Theorem signal_ids_count_from_one (taps : list json_tap) :
  1 + signal_count taps < 2 ^ 32 ->
  all_ids (read_taps 1 taps) = seqZ 1 (signal_count taps) ∧
  0 ∉ all_ids (read_taps 1 taps).
Proof.
  intros H. rewrite read_taps_ids by lia. split; [reflexivity|].
  intros Hin. apply elem_of_seqZ in Hin. lia.
Qed.

Lemma signal_ids_count_from_one_witness :
  1 + signal_count
        [ {| json_id := 0; json_width := 4; json_path := "top.tap";
             json_signals := [("a"%string, 1); ("b"%string, 3)] |};
          {| json_id := 1; json_width := 2; json_path := "top.tap2";
             json_signals := [("c"%string, 1); ("d"%string, 1)] |} ] < 2 ^ 32 /\
  all_ids (read_taps 1
        [ {| json_id := 0; json_width := 4; json_path := "top.tap";
             json_signals := [("a"%string, 1); ("b"%string, 3)] |};
          {| json_id := 1; json_width := 2; json_path := "top.tap2";
             json_signals := [("c"%string, 1); ("d"%string, 1)] |} ])
  = [1; 2; 3; 4].
Proof.
  assert (1 + signal_count
        [ {| json_id := 0; json_width := 4; json_path := "top.tap";
             json_signals := [("a"%string, 1); ("b"%string, 3)] |};
          {| json_id := 1; json_width := 2; json_path := "top.tap2";
             json_signals := [("c"%string, 1); ("d"%string, 1)] |} ] < 2 ^ 32)
    as H by (vm_compute; reflexivity).
  split; [exact H|].
  etransitivity; [exact (proj1 (signal_ids_count_from_one _ H))|].
  vm_compute. reflexivity.
Defined.

Lemma cmd_get_sum (id op : Z) :
  0 <= id < 2 ^ 29 -> 0 <= op < 8 -> cmd_get id op = id * 8 + op.
Proof.
  intros Hid Hop. unfold cmd_get.
  rewrite Z.shiftl_mul_pow2 by lia. change (2 ^ 3) with 8.
  rewrite u32_small by lia.
  change 8 with (2 ^ 3). apply lor_shifted_add; lia.
Qed.

(** X24: below 2^29 every tap id and opcode has a command word of its own: the
    word of a [GET] command tells the tap and the opcode. *)
Theorem cmd_get_injective (id id' op op' : Z) :
  0 <= id < 2 ^ 29 -> 0 <= id' < 2 ^ 29 -> 0 <= op < 8 -> 0 <= op' < 8 ->
  cmd_get id op = cmd_get id' op' ->
  id = id' ∧ op = op'.
Proof.
  intros Hid Hid' Hop Hop'. rewrite !cmd_get_sum by assumption. lia.
Qed.

Lemma cmd_get_injective_witness :
  0 <= 7 < 2 ^ 29 /\ 0 <= 3 < 8 /\ cmd_get 7 3 = cmd_get 7 3 /\ (7 = 7 ∧ 3 = 3).
Proof.
  assert (0 <= 7 < 2 ^ 29) as H1 by lia.
  assert (0 <= 3 < 8) as H2 by lia.
  split; [exact H1|]. split; [exact H2|]. split; [reflexivity|].
  exact (cmd_get_injective 7 7 3 3 H1 H1 H2 H2 eq_refl).
Defined.

(** X25: a tap id above 255 runs into the payload: the [GET] word of the tap
    [id + 256 * k] is the word with the payload [k] for the tap [id].  So
    the hard stop of tap 256 is the [SET_STOP] of tap 0 with the time 1. *)
Theorem tap_id_above_255 (id k op : Z) :
  0 <= id < 256 -> 0 <= k < 2 ^ 21 -> 0 <= op < 8 ->
  cmd_get (id + 256 * k) op = cmd_word k op id ∧
  cmd_stop_now (id + 256 * k) = cmd_stop k id.
Proof.
  intros Hid Hk Hop.
  assert (u32 (Z.shiftl (id + 256 * k) 3) = k * 2 ^ 11 + id * 2 ^ 3) as Hs.
  { rewrite Z.shiftl_mul_pow2 by lia. rewrite u32_small by lia. lia. }
  assert (k * 2 ^ 11 + id * 2 ^ 3 = Z.lor (Z.shiftl k 11) (Z.shiftl id 3)) as Hl.
  { rewrite !Z.shiftl_mul_pow2 by lia. symmetry.
    apply lor_shifted_add; lia. }
  split.
  - unfold cmd_get, cmd_word. rewrite Hs, Hl. reflexivity.
  - unfold cmd_stop_now, cmd_stop. rewrite Hs, Hl.
    rewrite (shiftl_small_id id Hid), u64_small.
    + rewrite Z.shiftl_0_l, Z.lor_0_l. reflexivity.
    + rewrite Z.shiftl_mul_pow2 by lia. lia.
Qed.

Lemma tap_id_above_255_witness :
  0 <= 0 < 256 /\ 0 <= 1 < 2 ^ 21 /\ 0 <= 5 < 8 /\
  cmd_get 256 5 = cmd_word 1 5 0 /\ cmd_stop_now 256 = cmd_stop 1 0.
Proof.
  assert (0 <= 0 < 256) as H1 by lia.
  assert (0 <= 1 < 2 ^ 21) as H2 by lia.
  assert (0 <= 5 < 8) as H3 by lia.
  split; [exact H1|]. split; [exact H2|]. split; [exact H3|].
  exact (tap_id_above_255 0 1 5 H1 H2 H3).
Defined.

(** ** The header and the counters of the taps *)

Lemma var_lines_same n t t' : signals t' = signals t -> var_lines n t' = var_lines n t.
Proof. intros H. unfold var_lines. rewrite H. reflexivity. Qed.

Lemma dump_module_same (iteration_order : gset string → list string)
    (hierarchy : gmap string (gset string)) (tails tails' : gmap string tap_t) :
  (∀ name, option_Forall2 (fun t t' => signals t' = signals t)
             (tails !! name) (tails' !! name)) ->
  ∀ fuel name n,
    dump_module iteration_order fuel name hierarchy tails' n
    = dump_module iteration_order fuel name hierarchy tails n.
Proof.
  intros Hrel. induction fuel as [|fuel IH]; intros name n; [reflexivity|].
  cbn [dump_module].
  assert (match tails' !! name with
          | Some tap => var_lines n tap
          | None => []
          end
          = match tails !! name with
            | Some tap => var_lines n tap
            | None => []
            end) as ->.
  { destruct (Hrel name) as [t t' Hs|]; [apply var_lines_same, Hs | reflexivity]. }
  destruct (hierarchy !! name) as [set|]; [|reflexivity].
  rewrite (mapM_ext _ (fun child =>
             dump_module iteration_order fuel child hierarchy tails (S n)));
    [reflexivity|].
  intros child. apply IH.
Qed.

Lemma build_hierarchy_same taps taps' :
  Forall2 same_decl taps taps' ->
  ∀ hierarchy heads tails tails',
    (∀ name, option_Forall2 (fun t t' => signals t' = signals t)
               (tails !! name) (tails' !! name)) ->
    match build_hierarchy taps (hierarchy, heads, tails),
          build_hierarchy taps' (hierarchy, heads, tails') with
    | Some (h1, hd1, tl1), Some (h2, hd2, tl2) =>
        h2 = h1 ∧ hd2 = hd1 ∧
        ∀ name, option_Forall2 (fun t t' => signals t' = signals t)
                  (tl1 !! name) (tl2 !! name)
    | None, None => True
    | _, _ => False
    end.
Proof.
  induction 1 as [|t t' taps taps' [Hp Hs] _ IH]; intros hierarchy heads tails
    tails' Hrel; cbn [build_hierarchy].
  - auto.
  - rewrite Hp.
    destruct (head (split (path t) ".")) as [h|]; [|exact I].
    destruct (last (split (path t) ".")) as [l|]; [|exact I].
    cbn [mbind option_bind]. apply IH.
    intros name. destruct (decide (l = name)) as [->|Hne].
    + rewrite !lookup_insert_eq. constructor. exact Hs.
    + rewrite !lookup_insert_ne by assumption. apply Hrel.
Qed.

Lemma dump_header_same_decl (iteration_order : gset string → list string)
    (fuel : nat) (taps taps' : list tap_t) :
  Forall2 same_decl taps taps' ->
  dump_header iteration_order fuel taps'
  = dump_header iteration_order fuel taps.
Proof.
  intros H. unfold dump_header.
  pose proof (build_hierarchy_same taps taps' H ∅ ∅ ∅ ∅) as Hb.
  destruct (build_hierarchy taps (∅, ∅, ∅)) as [[[h1 hd1] tl1]|];
    destruct (build_hierarchy taps' (∅, ∅, ∅)) as [[[h2 hd2] tl2]|];
    try (destruct Hb; [intros name; rewrite !lookup_empty; constructor]; fail);
    [|reflexivity].
  destruct Hb as (-> & -> & Hrel).
  { intros name. rewrite !lookup_empty. constructor. }
  rewrite (mapM_ext _ (fun head => dump_module iteration_order fuel head h1 tl1 1));
    [reflexivity|].
  intros head. apply dump_module_same, Hrel.
Qed.

(** X7: the header depends on the paths and the sub-signals of the taps only:
    taps that differ in their counters and times get the same header, be
    it the lines written or the way the call ends. *)
Theorem header_ignores_counters (iteration_order : gset string → list string)
    (fuel : nat) (taps taps' : list tap_t) :
  Forall2 same_decl taps taps' ->
  dump_header iteration_order fuel taps'
  = dump_header iteration_order fuel taps.
Proof. intros H. rewrite (dump_header_same_decl iteration_order fuel taps taps' H). reflexivity. Qed.

Lemma header_ignores_counters_witness :
  Forall2 same_decl [tap_reg; tap_alu]
    [set_trace_info tap_reg 5 100; set_progress tap_alu 1 7] /\
  dump_header elements 3 [set_trace_info tap_reg 5 100; set_progress tap_alu 1 7]
  = dump_header elements 3 [tap_reg; tap_alu].
Proof.
  assert (Forall2 same_decl [tap_reg; tap_alu]
            [set_trace_info tap_reg 5 100; set_progress tap_alu 1 7]) as H
    by (repeat constructor).
  split; [exact H|].
  exact (header_ignores_counters elements 3 _ _ H).
Defined.

(** ** A whole stop *)

Section StopLoops.
Context {D : Type} (cb : scope_callback_t D) (h : vx_device_h) (w : world D).
Hypothesis Hok : transfers_ok cb.
Hypothesis Hcb : g_callback w = Some cb.

Lemma reg_write_dev v d ev :
  reg_write h v (after w d ev [])
  = (inl tt, after w (snd (registerWrite cb h v d)) (ev ++ [IoWrite v 0]) []).
Proof.
  destruct Hok as [Hw _]. unfold reg_write.
  change (g_callback (after w d ev [])) with (g_callback w). rewrite Hcb.
  change (dev (after w d ev [])) with d.
  specialize (Hw h v d). destruct (registerWrite cb h v d) as [e d'].
  simpl in Hw. subst e. cbn [Z.eqb snd]. rewrite upd_dev_after. reflexivity.
Qed.

Lemma write_loop_dev (f : tap_t → Z) (taps : list tap_t) : ∀ d ev,
  for_each (fun tap => reg_write h (f tap)) taps (after w d ev [])
  = (inl tt,
     after w (write_all cb h (map f taps) d)
       (ev ++ map (fun tap => IoWrite (f tap) 0) taps) []).
Proof.
  induction taps as [|tap rest IH]; intros d ev; cbn [for_each].
  - simpl. rewrite app_nil_r. reflexivity.
  - unfold bind. rewrite reg_write_dev, IH. simpl.
    rewrite <- app_assoc. reflexivity.
Qed.

Lemma load_loop_all (taps : list tap_t) : ∀ d ev,
  ∃ ev1,
    for_each_tap (load_trace_info h) taps (after w d ev [])
    = (inl (fst (load_all cb h taps d)),
       after w (snd (load_all cb h taps d)) (ev ++ ev1) []).
Proof.
  induction taps as [|tap rest IH]; intros d ev; cbn [for_each_tap load_all].
  - exists []. rewrite app_nil_r. reflexivity.
  - unfold bind at 1.
    rewrite (load_trace_info_spec cb h tap (after w d ev []) Hok Hcb).
    change (dev (after w d ev [])) with d.
    destruct (fst (count_of cb h tap d) =? 0); rewrite after_after.
    + destruct (IH (snd (count_of cb h tap d))
                  (ev ++ [IoWrite (cmd_count (tap_id tap)) 0;
                          IoRead (fst (count_of cb h tap d)) 0])) as [ev2 E].
      unfold bind at 1. cbn [app]. rewrite E.
      destruct (load_all cb h rest _) as [rest' d'].
      eexists. cbn [fst snd ret]. rewrite <- app_assoc. reflexivity.
    + destruct (IH (snd (delta_of cb h tap d))
                  (ev ++ [IoWrite (cmd_count (tap_id tap)) 0;
                          IoRead (fst (count_of cb h tap d)) 0;
                          IoWrite (cmd_get_start (tap_id tap)) 0;
                          IoRead (fst (start_of cb h tap d)) 0;
                          IoWrite (cmd_data (tap_id tap)) 0;
                          IoRead (fst (delta_of cb h tap d)) 0])) as [ev2 E].
      unfold bind at 1. cbn [app]. rewrite E.
      destruct (load_all cb h rest _) as [rest' d'].
      eexists. cbn [fst snd ret]. rewrite <- app_assoc. reflexivity.
Qed.
End StopLoops.

Lemma load_all_loaded {D} (cb : scope_callback_t D) h (taps : list tap_t) : ∀ d,
  Forall2 loaded taps (fst (load_all cb h taps d)).
Proof.
  induction taps as [|tap rest IH]; intros d; cbn [load_all]; [constructor|].
  destruct (fst (count_of cb h tap d) =? 0).
  - specialize (IH (snd (count_of cb h tap d))).
    destruct (load_all cb h rest _) as [rest' d']. cbn [fst] in *.
    constructor; [|exact IH]. repeat split. left. reflexivity.
  - specialize (IH (snd (delta_of cb h tap d))).
    destruct (load_all cb h rest _) as [rest' d']. cbn [fst] in *.
    constructor; [|exact IH]. repeat split. right. apply u32_range.
Qed.

Lemma loaded_in_range t t1 :
  loaded t t1 -> samples t = 0 -> cur_sample t = 0 -> in_range t1.
Proof.
  intros (_ & _ & Hc & _ & _ & Hs) Hz Hcz. unfold in_range.
  rewrite Hc, Hcz. destruct Hs as [-> | Hs]; [rewrite Hz|]; lia.
Qed.

Lemma loaded_well_formed t t1 : loaded t t1 -> well_formed t -> well_formed t1.
Proof.
  intros (_ & Hw & _ & _ & Hs & _) [[Hpos Hsum Hu] Htwo].
  split; [split|]; rewrite ?Hs, ?Hw; assumption.
Qed.

Lemma loaded_sample_words t t1 : loaded t t1 -> sample_words t1 = sample_words t.
Proof. intros (_ & Hw & _). unfold sample_words. rewrite Hw. reflexivity. Qed.

Lemma read_taps_fresh l : ∀ s,
  Forall (fun t => samples t = 0 ∧ cur_sample t = 0) (read_taps s l).
Proof.
  induction l as [|tap rest IH]; intros s; cbn [read_taps]; [constructor|].
  destruct (read_signals s (json_signals tap)) as [sigs next].
  constructor; [split; reflexivity | apply IH].
Qed.

Lemma stop_run {D} (cb : scope_callback_t D) (a : N)
    (iteration_order : gset string → list string) (fuel : nat)
    (env : environment) (manifest : list json_tap) (w : world D)
    (header : list vcd_line) :
  transfers_ok cb ->
  g_callback w = Some cb ->
  g_running w = true ->
  manifest_json env = ParseTaps manifest ->
  Forall well_formed (read_taps 1 manifest) ->
  Forall (fun t => (sample_words t <= fuel)%nat) (read_taps 1 manifest) ->
  dump_header iteration_order fuel (read_taps 1 manifest) = inl header ->
  (total_remaining (loaded_taps cb (Some a) manifest (dev w)) <= fuel)%nat ->
  ∃ w' body log,
    vx_scope_stop iteration_order fuel env (Some a) w = (Status 0, w') ∧
    g_running w' = false ∧
    scope_vcd w' = header ++ body ∧
    dispatched w' = dispatched w ++ log ∧
    ∀ j t, loaded_taps cb (Some a) manifest (dev w) !! j = Some t →
      Z.of_nat (length (times_of j log)) = samples t.
Proof.
  intros Hok Hcb Hrun Hjson Hwf Hwords Hheader Hfuel.
  set (taps0 := read_taps 1 manifest) in *.
  set (taps1 := loaded_taps cb (Some a) manifest (dev w)) in *.
  assert (Forall2 loaded taps0 taps1) as Hloaded by apply load_all_loaded.
  assert (Forall in_range taps1) as Hrange1.
  { pose proof (read_taps_fresh manifest 1) as Hfresh. fold taps0 in Hfresh.
    clear -Hloaded Hfresh.
    induction Hloaded as [|t t1 l l1 Ht _ IH]; [constructor|].
    inversion Hfresh as [|? ? [Hs Hc] Hrest]; subst.
    constructor; [eapply loaded_in_range; eassumption | apply IH, Hrest]. }
  assert (Forall well_formed taps1) as Hwf1.
  { clear -Hloaded Hwf.
    induction Hloaded as [|t t1 l l1 Ht _ IH]; [constructor|].
    inversion Hwf as [|? ? Hw Hrest]; subst.
    constructor; [eapply loaded_well_formed; eassumption | apply IH, Hrest]. }
  assert (Forall (fun t => (sample_words t <= fuel)%nat) taps1) as Hwords1.
  { clear -Hloaded Hwords.
    induction Hloaded as [|t t1 l l1 Ht _ IH]; [constructor|].
    inversion Hwords as [|? ? Hw Hrest]; subst.
    constructor; [rewrite (loaded_sample_words _ _ Ht); exact Hw | apply IH, Hrest]. }
  assert (dump_header iteration_order fuel taps1 = inl header) as Hheader1.
  { rewrite <- Hheader. apply dump_header_same_decl.
    eapply Forall2_impl; [exact Hloaded|].
    intros t t1 (_ & _ & _ & Hp & Hs & _). split; assumption. }
  unfold vx_scope_stop, call, vx_scope_stop_body.
  unfold bind at 1. rewrite Hrun. cbn [negb fst snd].
  unfold bind at 1. unfold stop_and_dump. rewrite Hjson.
  unfold bind at 1. cbn [ret]. fold taps0.
  set (wr := upd_running false w).
  assert (g_callback wr = Some cb) as Hcbr by exact Hcb.
  rewrite <- (after_nil wr).
  unfold bind at 1.
  rewrite (write_loop_dev cb (Some a) wr Hok Hcbr
             (fun tap => cmd_stop_now (tap_id tap)) taps0 (dev wr) []).
  destruct (load_loop_all cb (Some a) wr Hok Hcbr taps0
              (write_all cb (Some a)
                 (map (fun tap => cmd_stop_now (tap_id tap)) taps0) (dev wr))
              ([] ++ map (fun tap => IoWrite (cmd_stop_now (tap_id tap)) 0) taps0))
    as [ev1 E1].
  unfold bind at 1. rewrite E1. clear E1.
  change (fst (load_all cb (Some a) taps0
                 (write_all cb (Some a)
                    (map (fun tap => cmd_stop_now (tap_id tap)) taps0) (dev wr))))
    with taps1.
  unfold bind at 1. rewrite Hheader1. unfold bind at 1. cbn [ret].
  unfold bind at 1. unfold emit at 1. cbn [fst snd].
  match goal with
  | |- context [upd_vcd ?f ?x] => set (w4 := upd_vcd f x)
  end.
  assert (g_callback w4 = Some cb) as Hcb4 by exact Hcb.
  assert (scope_vcd w4 = header) as Hvcd4 by reflexivity.
  assert (dispatched w4 = dispatched w) as Hlog4 by reflexivity.
  assert (g_running w4 = false) as Hrun4 by reflexivity.
  clearbody w4.
  destruct (find_earliest_tap taps1) as [i|] eqn:Hfind.
  - destruct (dump_taps_finishes cb (Some a) Hok fuel fuel i taps1 0 w4 Hcb4
                Hwf1 Hrange1 Hwords1 Hfind Hfuel)
      as (taps' & cur' & w' & log & E & Hlog & Hfin & Hcount).
    pose proof (dump_taps_triple (Some a) fuel fuel i taps1 0 Hfind w4 _ _ E)
      as [(ev & lines & log' & X & _) _].
    unfold bind at 1. rewrite E. unfold emit. cbn [fst snd].
    eexists _, (lines ++ fst (advance_clock cur' (u64 (cur' + 1)))), log.
    split; [reflexivity|]. cbn [g_running scope_vcd dispatched upd_vcd].
    split; [rewrite (ext_running _ _ _ _ _ X); exact Hrun4|].
    split; [rewrite (ext_vcd _ _ _ _ _ X), Hvcd4, app_assoc; reflexivity|].
    split; [rewrite Hlog, Hlog4; reflexivity|].
    intros j t Hj. rewrite (Hcount j t Hj). unfold remaining.
    pose proof (proj1 (Forall_lookup _ _) Hrange1 j t Hj) as [Hr _].
    assert (cur_sample t = 0) as Hz.
    { pose proof (read_taps_fresh manifest 1) as Hfresh. fold taps0 in Hfresh.
      destruct (Forall2_lookup_r _ _ _ _ _ Hloaded Hj) as (t0 & Hj0 & Hl).
      pose proof (proj1 (Forall_lookup _ _) Hfresh j t0 Hj0) as [_ Hc0].
      destruct Hl as (_ & _ & Hc & _). congruence. }
    rewrite Hz. lia.
  - exists w4, [], []. split; [reflexivity|].
    split; [exact Hrun4|]. split; [rewrite app_nil_r; exact Hvcd4|].
    split; [rewrite app_nil_r; exact Hlog4|].
    intros j t Hj. apply find_earliest_tap_none in Hfind.
    pose proof (proj1 (Forall_lookup _ _) Hfind j t Hj) as Hd.
    pose proof (proj1 (Forall_lookup _ _) Hrange1 j t Hj) as Hr.
    destruct (idle_finished t Hr Hd) as [_ H0].
    assert (cur_sample t = 0) as Hz.
    { pose proof (read_taps_fresh manifest 1) as Hfresh. fold taps0 in Hfresh.
      destruct (Forall2_lookup_r _ _ _ _ _ Hloaded Hj) as (t0 & Hj0 & Hl).
      pose proof (proj1 (Forall_lookup _ _) Hfresh j t0 Hj0) as [_ Hc0].
      destruct Hl as (_ & _ & Hc & _). congruence. }
    unfold remaining in H0. destruct Hr as [Hr _]. simpl. lia.
Qed.

(** X15: on a device whose transfers succeed, for a manifest whose taps have two
    or more sub-signals with widths that add up, and whose header can be
    written: once the capture is stopped and the trace information loaded,
    Stop writes the header, dumps every sample of every tap, each tap once
    for every sample the device counted for it, and returns 0 with the
    session no longer running. *)
Theorem stop_completes {D} (cb : scope_callback_t D) (a : N)
    (iteration_order : gset string → list string) (fuel : nat)
    (env : environment) (manifest : list json_tap) (w : world D)
    (header : list vcd_line) :
  transfers_ok cb ->
  g_callback w = Some cb ->
  g_running w = true ->
  manifest_json env = ParseTaps manifest ->
  Forall well_formed (read_taps 1 manifest) ->
  Forall (fun t => (sample_words t <= fuel)%nat) (read_taps 1 manifest) ->
  dump_header iteration_order fuel (read_taps 1 manifest) = inl header ->
  (total_remaining (loaded_taps cb (Some a) manifest (dev w)) <= fuel)%nat ->
  ∃ w' body log,
    vx_scope_stop iteration_order fuel env (Some a) w = (Status 0, w') ∧
    g_running w' = false ∧
    scope_vcd w' = header ++ body ∧
    dispatched w' = dispatched w ++ log ∧
    ∀ j t, loaded_taps cb (Some a) manifest (dev w) !! j = Some t →
      Z.of_nat (length (times_of j log)) = samples t.
Proof.
  intros Hok Hcb Hrun Hjson Hwf Hwords Hheader Hfuel.
  destruct (stop_run cb a iteration_order fuel env manifest w header
              Hok Hcb Hrun Hjson Hwf Hwords Hheader Hfuel)
    as (w' & body & log & H).
  exists w', body, log. exact H.
Qed.

Lemma well_formed_two_taps : Forall well_formed (read_taps 1 two_taps).
Proof.
  constructor; [repeat constructor; simpl; lia|].
  constructor; [repeat constructor; simpl; lia | constructor].
Qed.

Lemma stop_completes_witness :
  transfers_ok scripted /\
  manifest_json manifest2 = ParseTaps two_taps /\
  (total_remaining (loaded_taps scripted handle two_taps stop_script) <= 10)%nat /\
  ∃ w' body log,
    vx_scope_stop elements 10 manifest2 handle (session stop_script true)
    = (Status 0, w') ∧
    g_running w' = false ∧
    map render (scope_vcd w')
    = header_text (read_taps 1 two_taps) ++ map render body ∧
    dispatched w' = [] ++ log ∧
    length (times_of 0 log) = 2%nat ∧ length (times_of 1 log) = 1%nat.
Proof.
  assert (total_remaining (loaded_taps scripted handle two_taps stop_script) <= 10)%nat
    as Hfuel by (vm_compute; lia).
  assert (Forall (fun t => (sample_words t <= 10)%nat) (read_taps 1 two_taps))
    as Hwords
    by (constructor; [vm_compute; lia|];
        constructor; [vm_compute; lia | constructor]).
  split; [exact transfers_ok_scripted|]. split; [reflexivity|].
  split; [exact Hfuel|].
  destruct (dump_header elements 10 (read_taps 1 two_taps)) as [header|hh]
    eqn:Hheader; [|vm_compute in Hheader; discriminate Hheader].
  destruct (stop_completes scripted 1%N elements 10 manifest2 two_taps
              (session stop_script true) header transfers_ok_scripted
              eq_refl eq_refl eq_refl well_formed_two_taps Hwords Hheader Hfuel)
    as (w' & body & log & E & Hrun & Hvcd & Hlog & Hcount).
  exists w', body, log.
  split; [exact E|]. split; [exact Hrun|]. split; [|split; [exact Hlog|]].
  - rewrite Hvcd, map_app. f_equal.
    assert (dump_header elements 3 (read_taps 1 two_taps) = inl header) as H3.
    { rewrite <- Hheader. vm_compute. reflexivity. }
    unfold header_text. rewrite H3. reflexivity.
  - split.
    + apply Nat2Z.inj. rewrite (Hcount 0%nat _ eq_refl). reflexivity.
    + apply Nat2Z.inj. rewrite (Hcount 1%nat _ eq_refl). reflexivity.
Defined.

(** ** Sessions *)

(** X22: a running session has its callbacks installed, and both entry points
    keep it so: Start marks a session running only after it has installed
    the callbacks, and neither removes them.  Hence, from a program start
    on, Stop gets to the device only through callbacks a Start has
    installed. *)
Theorem running_session_has_callbacks {D} iteration_order (fuel : nat)
    (env : environment) (callback : option (scope_callback_t D))
    (hdevice : vx_device_h) (start_time stop_time : Z) (w : world D) :
  usable w ->
  usable (snd (vx_scope_start env callback hdevice start_time stop_time w)) ∧
  usable (snd (vx_scope_stop iteration_order fuel env hdevice w)).
Proof.
  intros Hw. split.
  - unfold vx_scope_start, call.
    destruct (vx_scope_start_body env callback hdevice start_time stop_time w)
      as [[[]|h] w'] eqn:E;
      destruct (start_body_frame _ _ _ _ _ _ _ _ E) as (_ & Hc & Hout);
      cbn [snd]; intros Hrun.
    + destruct Hout as (_ & _ & -> & Hsome). exact Hsome.
    + destruct Hout as (_ & Hr & _).
      destruct Hc as [-> | (cb & _ & ->)]; [|eexists; reflexivity].
      apply Hw. congruence.
  - destruct hdevice as [a|].
    + intros Hrun.
      rewrite (stop_clears_running iteration_order fuel env a w
                 (fst (vx_scope_stop iteration_order fuel env (Some a) w))
                 (snd (vx_scope_stop iteration_order fuel env (Some a) w)))
        in Hrun; [discriminate Hrun|].
      apply surjective_pairing.
    + exact Hw.
Qed.

Lemma running_session_has_callbacks_witness :
  usable (fresh tt) /\
  usable (snd (vx_scope_start manifest1 (Some four_wide) handle 5 9 (fresh tt))) /\
  usable (snd (vx_scope_stop elements 10 manifest1 handle (fresh tt))).
Proof.
  assert (usable (fresh tt)) as H by (intros Hrun; discriminate Hrun).
  split; [exact H|].
  exact (running_session_has_callbacks elements 10 manifest1 (Some four_wide)
           handle 5 9 (fresh tt) H).
Defined.

(** ** The declarations of the header *)

Lemma elem_of_concat {A} (x : A) (ls : list (list A)) :
  x ∈ concat ls -> ∃ l, l ∈ ls ∧ x ∈ l.
Proof.
  induction ls as [|l ls IH]; cbn [concat]; intros H; [inversion H|].
  apply elem_of_app in H as [H|H].
  - exists l. split; [left | exact H].
  - destruct (IH H) as (l' & Hl' & Hx). exists l'. split; [right; exact Hl' | exact Hx].
Qed.

Lemma dump_module_vars (iteration_order : gset string → list string)
    (hierarchy : gmap string (gset string)) (tails : gmap string tap_t) :
  ∀ fuel name n lines m width id signal_name,
  dump_module iteration_order fuel name hierarchy tails n = Some lines ->
  LVar m width id signal_name ∈ lines ->
  ∃ module tap s,
    tails !! module = Some tap ∧ s ∈ signals tap ∧
    sig_width s = width ∧ sig_id s = id ∧ sig_name s = signal_name.
Proof.
  induction fuel as [|fuel IH]; intros name n lines m width id signal_name H Hin;
    [discriminate H|].
  cbn [dump_module] in H.
  destruct (match hierarchy !! name with
            | Some set =>
                mapM (fun child =>
                        dump_module iteration_order fuel child hierarchy tails (S n))
                     (iteration_order set)
            | None => Some []
            end) as [children|] eqn:Hc; [|discriminate H].
  cbn [mbind option_bind] in H. injection H as <-.
  cbn [app] in Hin. apply elem_of_cons in Hin as [Hin|Hin]; [discriminate Hin|].
  apply elem_of_app in Hin as [Hin|Hin].
  - destruct (tails !! name) as [tap|] eqn:Ht; [|inversion Hin].
    unfold var_lines in Hin. apply list_elem_of_fmap in Hin as (s & Hs & Hin).
    injection Hs as -> -> -> ->. exists name, tap, s. auto.
  - apply elem_of_app in Hin as [Hin|Hin];
      [|apply list_elem_of_singleton in Hin; discriminate Hin].
    apply elem_of_concat in Hin as (l & Hl & Hin).
    destruct (hierarchy !! name) as [set|].
    + apply mapM_Some_1 in Hc.
      apply list_elem_of_lookup_1 in Hl as [k Hk].
      destruct (Forall2_lookup_r _ _ _ _ _ Hc Hk) as (child & _ & Hchild).
      eapply IH; eassumption.
    + injection Hc as <-. inversion Hl.
Qed.

Lemma build_hierarchy_tails taps : ∀ hierarchy heads tails hierarchy' heads' tails',
  build_hierarchy taps (hierarchy, heads, tails) = Some (hierarchy', heads', tails') ->
  ∀ name t, tails' !! name = Some t →
    (tails !! name = Some t ∧ Forall (fun t' => tail_name t' ≠ Some name) taps) ∨
    (∃ before after,
       taps = before ++ t :: after ∧ tail_name t = Some name ∧
       Forall (fun t' => tail_name t' ≠ Some name) after).
Proof.
  induction taps as [|tap rest IH]; intros hierarchy heads tails hierarchy' heads'
    tails' H name t Ht; cbn [build_hierarchy] in H.
  - injection H as <- <- <-. left. split; [exact Ht | constructor].
  - destruct (head (split (path tap) ".")) as [h|]; [|discriminate H].
    destruct (last (split (path tap) ".")) as [l|] eqn:El; [|discriminate H].
    cbn [mbind option_bind] in H.
    destruct (IH _ _ _ _ _ _ H name t Ht) as [[Hacc Hrest] | (before & after & -> & Hn & Hafter)].
    + destruct (decide (l = name)) as [->|Hne].
      * rewrite lookup_insert_eq in Hacc. injection Hacc as ->.
        right. exists [], rest. split; [reflexivity|]. split; [exact El | exact Hrest].
      * rewrite lookup_insert_ne in Hacc by assumption.
        left. split; [exact Hacc|]. constructor; [|exact Hrest].
        unfold tail_name. rewrite El. congruence.
    + right. exists (tap :: before), after. split; [reflexivity|].
      split; assumption.
Qed.

(** X6: every [$var] line of the header declares a sub-signal of a tap of the
    list, and of one that no later tap shares the last name of its path
    with: of two taps whose paths end in the same module name, the header
    declares the sub-signals of the later one only. *)
Theorem header_declares_last_tap (iteration_order : gset string → list string)
    (fuel : nat) (taps : list tap_t) (lines : list vcd_line)
    (indentation : nat) (width id : Z) (name : string) :
  dump_header iteration_order fuel taps = inl lines ->
  LVar indentation width id name ∈ lines ->
  ∃ before tap after s,
    taps = before ++ tap :: after ∧ s ∈ signals tap ∧
    sig_width s = width ∧ sig_id s = id ∧ sig_name s = name ∧
    Forall (fun t => tail_name t ≠ tail_name tap) after.
Proof.
  unfold dump_header.
  destruct (build_hierarchy taps (∅, ∅, ∅)) as [[[hierarchy heads] tails]|] eqn:Hb;
    [|discriminate].
  destruct (mapM _ _) as [modules|] eqn:Hm; [|discriminate].
  intros H Hin. injection H as <-.
  do 4 (apply elem_of_cons in Hin as [Hin|Hin]; [discriminate Hin|]).
  apply elem_of_app in Hin as [Hin|Hin].
  2:{ unfold header_end in Hin.
      repeat (apply elem_of_cons in Hin as [Hin|Hin]; [discriminate Hin|]).
      inversion Hin. }
  apply elem_of_concat in Hin as (l & Hl & Hin).
  apply mapM_Some_1 in Hm.
  apply list_elem_of_lookup_1 in Hl as [k Hk].
  destruct (Forall2_lookup_r _ _ _ _ _ Hm Hk) as (head & _ & Hhead).
  destruct (dump_module_vars _ _ _ _ _ _ _ _ _ _ _ Hhead Hin)
    as (module & tap & s & Ht & Hs & Hw & Hi & Hn).
  destruct (build_hierarchy_tails _ _ _ _ _ _ _ Hb module tap Ht)
    as [[Hempty _] | (before & after & -> & Htail & Hafter)].
  { rewrite lookup_empty in Hempty. discriminate Hempty. }
  exists before, tap, after, s. repeat split; try assumption.
  rewrite Htail. exact Hafter.
Qed.

Lemma header_declares_last_tap_witness :
  dump_header elements 3 [tap_core1; tap_core2]
  = inl (match dump_header elements 3 [tap_core1; tap_core2] with
         | inl lines => lines
         | inr _ => []
         end) /\
  LVar 2 1 3 "c"
  ∈ match dump_header elements 3 [tap_core1; tap_core2] with
    | inl lines => lines
    | inr _ => []
    end /\
  (LVar 2 1 1 "a"
   ∉ match dump_header elements 3 [tap_core1; tap_core2] with
     | inl lines => lines
     | inr _ => []
     end) /\
  ∃ before tap after s,
    [tap_core1; tap_core2] = before ++ tap :: after ∧ s ∈ signals tap ∧
    sig_width s = 1 ∧ sig_id s = 3 ∧ sig_name s = "c"%string ∧
    Forall (fun t => tail_name t ≠ tail_name tap) after.
Proof.
  assert (dump_header elements 3 [tap_core1; tap_core2]
          = inl (match dump_header elements 3 [tap_core1; tap_core2] with
                 | inl lines => lines
                 | inr _ => []
                 end)) as H by (vm_compute; reflexivity).
  assert (LVar 2 1 3 "c"
          ∈ match dump_header elements 3 [tap_core1; tap_core2] with
            | inl lines => lines
            | inr _ => []
            end) as Hin.
  { vm_compute. repeat first [left | right]. }
  split; [exact H|]. split; [exact Hin|]. split.
  - vm_compute. intros Hno.
    repeat (apply elem_of_cons in Hno as [Hno|Hno]; [discriminate Hno|]).
    inversion Hno.
  - exact (header_declares_last_tap elements 3 [tap_core1; tap_core2] _ 2 1 3 "c"
             H Hin).
Defined.

(** ** The text of the value lines *)

Lemma length_of_list_ascii (l : list ascii) :
  String.length (string_of_list_ascii l) = length l.
Proof. induction l as [|c l IH]; simpl; [reflexivity|]. rewrite IH. reflexivity. Qed.

Lemma signal_text_value wordf off (s : tap_signal_t) :
  0 <= sig_width s ->
  value_of s (LValue (signal_text wordf off (sig_width s)) (sig_id s)).
Proof.
  intros Hw. exists (signal_text wordf off (sig_width s)).
  split; [reflexivity|]. unfold signal_text, binary. split.
  - rewrite length_of_list_ascii, length_map, length_seqZ. lia.
  - rewrite list_ascii_of_string_of_list_ascii.
    apply Forall_forall. intros c Hc.
    apply list_elem_of_fmap in Hc as (i & -> & _).
    unfold sample_bit, bit_char. destruct (_ =? 0); auto.
Qed.

Lemma sample_lines_values wordf (rs : list tap_signal_t) : ∀ off,
  Forall (fun s => 0 < sig_width s) rs ->
  Forall2 value_of rs (sample_lines wordf off rs).
Proof.
  induction rs as [|s rs IH]; intros off H; cbn [sample_lines]; [constructor|].
  inversion H as [|? ? Hs Hrest]; subst.
  constructor; [apply signal_text_value; lia | apply IH, Hrest].
Qed.

(** X26: on a device whose transfers succeed, [dump_tap] writes for a tap
    with two or more sub-signals whose widths add up one line for each
    sub-signal, from the last to the first: the letter [b], one binary
    digit for each bit of the sub-signal, and its identifier. *)
Theorem value_lines_are_binary {D} (cb : scope_callback_t D)
    (hdevice : vx_device_h) (tap : tap_t) (w : world D) (fuel : nat) :
  transfers_ok cb ->
  g_callback w = Some cb ->
  well_formed tap ->
  (sample_words tap <= fuel)%nat ->
  ∃ tap' w' lines,
    dump_tap fuel hdevice tap w = (inl tap', w') ∧
    scope_vcd w' = scope_vcd w ++ lines ∧
    Forall2 value_of (rev (signals tap)) lines.
Proof.
  intros Hok Hcb Hwf Hfuel.
  eexists _, _, _. split; [apply (dump_tap_run cb hdevice tap w fuel); assumption|].
  split; [reflexivity|].
  apply sample_lines_values.
  destruct Hwf as [[Hpos _ _] _].
  apply Forall_forall. intros s Hs.
  apply (proj1 (Forall_forall _ _) Hpos).
  apply list_elem_of_In, in_rev, list_elem_of_In. exact Hs.
Qed.

Lemma value_lines_are_binary_witness :
  transfers_ok scripted /\ well_formed tap13 /\
  ∃ tap' w' lines,
    dump_tap 1 handle tap13 (session [11; 7] true) = (inl tap', w') ∧
    scope_vcd w' = [] ++ lines ∧
    Forall2 value_of (rev (signals tap13)) lines.
Proof.
  split; [exact transfers_ok_scripted|]. split; [exact well_formed_tap13|].
  exact (value_lines_are_binary scripted handle tap13 (session [11; 7] true) 1
           transfers_ok_scripted eq_refl well_formed_tap13 ltac:(vm_compute; lia)).
Defined.

(** ** A session from its start to its end *)


